(** * Code quality analyser: a shallow embedding of [main.py]

    The analyser reads one block of Python source text and reports a
    complexity score, a quality score, the average function length, naming
    violations, style recommendations and pairs of near-duplicate lines.

    Conventions of the embedding.
    - A Python [str] is a [string]; its characters are the code points
      U+0000..U+00FF, so the case and whitespace tables below are the
      Latin-1 rows of the Unicode tables that [str.islower], [str.lower],
      [str.isupper] and [str.strip] consult.
    - A Python [int] is a [Z] (scores) or a [nat] (lengths and indices that
      never go below zero); a float obtained by dividing two integers is
      kept as the exact quotient in [Q].
    - An exception is the left summand of a [sum]; the loops of the source
      are folds that thread their local variables. *)

From Stdlib Require Import List String Ascii Bool Arith ZArith QArith Lia.
From Stdlib Require Import Permutation Sorted DecimalString.
Import ListNotations.

Set Warnings "-register-all".

Local Open Scope string_scope.
Local Open Scope list_scope.
Local Open Scope nat_scope.

(** ** Python strings *)

Module Str.

Definition ord (c : ascii) : nat := nat_of_ascii c.

Definition between (lo hi n : nat) : bool := (lo <=? n) && (n <=? hi).

(** [str.isspace] on one character. *)
Definition isspace (c : ascii) : bool :=
  let n := ord c in
  between 9 13 n || between 28 32 n || (n =? 133) || (n =? 160).

(** [str.isupper] on one character. *)
Definition char_isupper (c : ascii) : bool :=
  let n := ord c in
  between 65 90 n || between 192 214 n || between 216 222 n.

(** [str.islower] on one character. *)
Definition char_islower (c : ascii) : bool :=
  let n := ord c in
  between 97 122 n || (n =? 170) || (n =? 181) || (n =? 186)
  || between 223 246 n || between 248 255 n.

(** [str.lower] on one character. *)
Definition char_lower (c : ascii) : ascii :=
  if char_isupper c then ascii_of_nat (ord c + 32) else c.

(** [s.lower()] *)
Fixpoint lower (s : string) : string :=
  match s with
  | EmptyString => EmptyString
  | String c r => String (char_lower c) (lower r)
  end.

(** [s.islower()]: no uppercase character and at least one lowercase
    one.  The loop of the interpreter carries the flag [cased]. *)
Fixpoint islower_from (cased : bool) (s : string) : bool :=
  match s with
  | EmptyString => cased
  | String c r =>
      if char_isupper c then false
      else islower_from (cased || char_islower c) r
  end.

Definition islower (s : string) : bool := islower_from false s.

(** [s.isupper()]: no lowercase character and at least one uppercase. *)
Fixpoint isupper_from (cased : bool) (s : string) : bool :=
  match s with
  | EmptyString => cased
  | String c r =>
      if char_islower c then false
      else isupper_from (cased || char_isupper c) r
  end.

Definition isupper (s : string) : bool := isupper_from false s.

(** [s.lstrip()], [s.rstrip()], [s.strip()] *)
Fixpoint lstrip (s : string) : string :=
  match s with
  | EmptyString => EmptyString
  | String c r => if isspace c then lstrip r else s
  end.

Fixpoint rstrip (s : string) : string :=
  match s with
  | EmptyString => EmptyString
  | String c r =>
      match rstrip r with
      | EmptyString => if isspace c then EmptyString else String c EmptyString
      | r' => String c r'
      end
  end.

Definition strip (s : string) : string := rstrip (lstrip s).

(** [s.startswith(p)] *)
Definition startswith (s p : string) : bool := prefix p s.

(** [needle in hay] *)
Fixpoint contains (needle hay : string) : bool :=
  prefix needle hay ||
  match hay with
  | EmptyString => false
  | String _ r => contains needle r
  end.

(** [s.split("\n")]: never empty, one more piece than there are line
    feeds. *)
Definition LF : ascii := "010"%char.

Fixpoint split_lines (s : string) : list string :=
  match s with
  | EmptyString => [EmptyString]
  | String c r =>
      if Ascii.eqb c LF then EmptyString :: split_lines r
      else match split_lines r with
           | l :: ls => String c l :: ls
           | [] => [String c EmptyString]
           end
  end.

(** ["\n".join(lines)] *)
Fixpoint join_lines (lines : list string) : string :=
  match lines with
  | [] => EmptyString
  | l :: r =>
      match r with
      | [] => l
      | _ => (l ++ String LF (join_lines r))%string
      end
  end.

(** [xs[i]] with Python's negative indices; [None] is [IndexError]. *)
Definition index {A} (xs : list A) (i : Z) : option A :=
  let n := Z.of_nat (List.length xs) in
  if (0 <=? i)%Z then nth_error xs (Z.to_nat i)
  else if (- n <=? i)%Z then nth_error xs (Z.to_nat (n + i))
  else None.

(** The bound of a slice, clamped as Python clamps it. *)
Definition clamp (len : nat) (k : Z) : nat :=
  let n := Z.of_nat len in
  if (k <? 0)%Z then Z.to_nat (Z.max 0 (n + k))
  else Z.to_nat (Z.min n k).

Fixpoint take (n : nat) (s : string) : string :=
  match n, s with
  | S n', String c r => String c (take n' r)
  | _, _ => EmptyString
  end.

Fixpoint drop (n : nat) (s : string) : string :=
  match n, s with
  | S n', String _ r => drop n' r
  | _, _ => s
  end.

(** [s[:k]] and [s[k:]] *)
Definition slice_to (s : string) (k : Z) : string := take (clamp (String.length s) k) s.
Definition slice_from (s : string) (k : Z) : string := drop (clamp (String.length s) k) s.

(** [str(n)] for a non-negative integer. *)
Definition of_nat (n : nat) : string := NilZero.string_of_uint (Nat.to_uint n).

(** The text [needle] occurs somewhere in [hay]. *)
Definition Occurs (needle hay : string) : Prop :=
  exists l r, hay = (l ++ needle ++ r)%string.

End Str.

(** ** Complexity and quality scores *)

(** The comment test of the source: [line.strip().startswith("#")]. *)
Definition is_comment_line (line : string) : bool :=
  Str.startswith (Str.strip line) "#".

Definition analyze_code_complexity (code : string) : Z :=
  fold_left
    (fun complexity_score line =>
       if is_comment_line line then (complexity_score + 1)%Z
       else complexity_score)
    (Str.split_lines code) 0%Z.

Definition analyze_code_quality (code : string) : Z :=
  let quality_score := 0%Z in
  let complexity_score := analyze_code_complexity code in
  let quality_score := (quality_score + complexity_score)%Z in
  let quality_score :=
    if Str.contains "goto" code then (quality_score - 10)%Z else quality_score in
  let quality_score :=
    if Str.contains "magic_number" code then (quality_score - 5)%Z
    else quality_score in
  quality_score.

(** ** Syntax trees

    A node of Python's [ast] carries its class, the scalar fields the
    analyser reads, its line number where the class has one, and its child
    nodes in the order of [_fields]: those of the fields before [body], the
    statements of [body], and those of the fields after it.  A class without
    a [body] field keeps all its children in [front]. *)

Inductive constant : Type :=
| CStr (s : string)
| COther.

Inductive kind : Type :=
| ast_Module
| ast_FunctionDef (name : string)
| ast_ClassDef (name : string)
| ast_Name (id : string)
| ast_Expr
| ast_Constant (value : constant)
| ast_Other.

Inductive node : Type :=
| Node (k : kind) (lineno : option Z) (front body back : list node).

Definition node_kind (n : node) : kind := let 'Node k _ _ _ _ := n in k.
Definition node_lineno (n : node) : option Z := let 'Node _ l _ _ _ := n in l.
Definition node_body (n : node) : list node := let 'Node _ _ _ b _ := n in b.

(** [ast.iter_child_nodes] *)
Definition iter_child_nodes (n : node) : list node :=
  let 'Node _ _ front body back := n in front ++ body ++ back.

Fixpoint size (n : node) : nat :=
  let 'Node _ _ front body back := n in
  S (list_sum (map size front) + list_sum (map size body)
     + list_sum (map size back)).

Definition forest_size (ns : list node) : nat := list_sum (map size ns).

(** All nodes of a tree, parents before children. *)
Fixpoint descendants (n : node) : list node :=
  let 'Node _ _ front body back := n in
  n :: flat_map descendants front ++ flat_map descendants body
    ++ flat_map descendants back.

(** A node object is identified by the child positions that lead to it from
    the root.  The trees are those [ast.parse] builds: the only objects it
    puts at more than one position are the contexts ([Load], [Store],
    [Del]) and the operators, which have no fields; [ast.walk] yields such
    an object once for each position, and here every position has a node
    of its own. *)
Definition path : Type := list nat.

Fixpoint enumerate {A} (start : nat) (xs : list A) : list (nat * A) :=
  match xs with
  | [] => []
  | x :: r => (start, x) :: enumerate (S start) r
  end.

Definition child_refs (p : path) (n : node) : list (path * node) :=
  map (fun ic => (p ++ [fst ic], snd ic)) (enumerate 0 (iter_child_nodes n)).

(** [ast.walk]: the deque [todo] is popped on the left and the children of
    the popped node are appended on the right.  Each pop uses one unit of
    fuel and [size tree] units empty the deque ([walk_fuel]). *)
Fixpoint walk_todo (fuel : nat) (todo : list (path * node)) : list (path * node) :=
  match fuel, todo with
  | S fuel', (p, n) :: todo' => (p, n) :: walk_todo fuel' (todo' ++ child_refs p n)
  | _, _ => []
  end.

Definition walk (tree : node) : list (path * node) :=
  walk_todo (size tree) [([], tree)].

Definition walk_nodes (tree : node) : list node := map snd (walk tree).

Fixpoint subtree (p : path) (n : node) : option node :=
  match p with
  | [] => Some n
  | i :: p' =>
      match nth_error (iter_child_nodes n) i with
      | Some c => subtree p' c
      | None => None
      end
  end.

Fixpoint replace_nth {A} (i : nat) (x : A) (xs : list A) : list A :=
  match i, xs with
  | 0, _ :: r => x :: r
  | S i', y :: r => y :: replace_nth i' x r
  | _, [] => []
  end.

Definition set_children (n : node) (cs : list node) : node :=
  let 'Node k l front body back := n in
  Node k l (firstn (List.length front) cs)
       (firstn (List.length body) (skipn (List.length front) cs))
       (skipn (List.length front + List.length body) cs).

Definition set_kind (k : kind) (n : node) : node :=
  let 'Node _ l front body back := n in Node k l front body back.

(** Assignment to a scalar field of the node object at [p]: the tree is the
    same object graph, with that one node's class record replaced. *)
Fixpoint assign (p : path) (k : kind) (n : node) : node :=
  match p with
  | [] => set_kind k n
  | i :: p' =>
      match nth_error (iter_child_nodes n) i with
      | Some c => set_children n (replace_nth i (assign p' k c) (iter_child_nodes n))
      | None => n
      end
  end.

(** ** Exceptions *)

Record syntax_error : Type := mk_syntax_error
  { se_msg : string; se_lineno : Z; se_offset : Z }.

(** The exceptions met here.  [SyntaxError] stands for the class with its
    subclasses ([IndentationError], [TabError]), which [except SyntaxError]
    catches alike; [ValueError] likewise ([UnicodeEncodeError]). *)
Inductive exn : Type :=
| SyntaxError (e : syntax_error)
| IndexError
| AttributeError
| ValueError
| MemoryError
| RecursionError.

Definition result (A : Type) : Type := (exn + A)%type.

Definition bind {A B} (r : result A) (f : A -> result B) : result B :=
  match r with
  | inl e => inl e
  | inr a => f a
  end.

Notation "x <- r ;; k" := (bind r (fun x => k))
  (at level 61, r at next level, right associativity).

(** A [for] loop whose body may raise. *)
Fixpoint for_each {A S} (body : S -> A -> result S) (xs : list A) (s : S)
  : result S :=
  match xs with
  | [] => inr s
  | x :: r => s' <- body s x ;; for_each body r s'
  end.

(** ** Average function length *)

Definition function_lengths (tree : node) : list nat :=
  fold_left
    (fun function_lengths n =>
       match node_kind n with
       | ast_FunctionDef _ => function_lengths ++ [List.length (node_body n)]
       | _ => function_lengths
       end)
    (walk_nodes tree) [].

Definition calculate_average_function_length (tree : node) : Q :=
  let function_lengths := function_lengths tree in
  match function_lengths with
  | [] => 0%Q
  | _ => (inject_Z (Z.of_nat (list_sum function_lengths))
          / inject_Z (Z.of_nat (List.length function_lengths)))%Q
  end.

(** ** Naming convention checker *)

(** [re.match(r'^[a-zA-Z_][a-zA-Z0-9_]*$', s)]: [$] also matches just before
    a line feed that ends the string. *)
Definition ident_start (c : ascii) : bool :=
  let n := Str.ord c in
  Str.between 97 122 n || Str.between 65 90 n || (n =? 95).

Definition ident_char (c : ascii) : bool :=
  ident_start c || Str.between 48 57 (Str.ord c).

Fixpoint ident_tail (s : string) : bool :=
  match s with
  | EmptyString => true
  | String c r =>
      if ident_char c then ident_tail r
      else Ascii.eqb c Str.LF && String.eqb r EmptyString
  end.

Definition re_match_identifier (s : string) : bool :=
  match s with
  | EmptyString => false
  | String c r => ident_start c && ident_tail r
  end.

Definition function_message (function_name : string) : string :=
  ("Function name '" ++ function_name ++ "' should be in lowercase.")%string.

Definition uppercase_message (variable_name : string) : string :=
  ("Variable name '" ++ variable_name ++ "' should not be in uppercase.")%string.

Definition pattern_message (variable_name : string) : string :=
  ("Variable name '" ++ variable_name
     ++ "' does not follow naming conventions.")%string.

Section Naming.

(** The built-in [compile], applied to the tree as it is at the time of the
    call; it answers with a code object or raises [SyntaxError]. *)
Variable code_object : Type.
Variable compile : node -> syntax_error + code_object.

(** The local variables of [check_naming_conventions], together with the
    tree object it was handed. *)
Record naming_state : Type := mk_naming_state
  { ns_tree : node;
    ns_violations : list string;
    ns_modified_code : option code_object }.

Definition recompile (tree : node) (violations : list string)
  : result naming_state :=
  match compile tree with
  | inl e => inl (SyntaxError e)
  | inr c => inr (mk_naming_state tree violations (Some c))
  end.

(** The body of the loop, run on the node object at [p]. *)
Definition naming_body (st : naming_state) (p : path) : result naming_state :=
  let tree := ns_tree st in
  let violations := ns_violations st in
  match option_map node_kind (subtree p tree) with
  | Some (ast_FunctionDef function_name) =>
      if negb (Str.islower function_name) then
        let violations := violations ++ [function_message function_name] in
        let tree := assign p (ast_FunctionDef (Str.lower function_name)) tree in
        recompile tree violations
      else inr st
  | Some (ast_Name variable_name) =>
      if Str.isupper variable_name then
        let violations := violations ++ [uppercase_message variable_name] in
        let tree := assign p (ast_Name (Str.lower variable_name)) tree in
        recompile tree violations
      else if negb (re_match_identifier variable_name) then
        inr (mk_naming_state tree
               (violations ++ [pattern_message variable_name])
               (ns_modified_code st))
      else inr st
  | _ => inr st
  end.

(** The loop never changes which children a node has, so the nodes arrive
    in the order fixed by the tree as it is on entry. *)
Definition check_naming_conventions (tree : node) : result naming_state :=
  for_each naming_body (map fst (walk tree)) (mk_naming_state tree [] None).

End Naming.

Arguments mk_naming_state {code_object}.
Arguments ns_tree {code_object}.
Arguments ns_violations {code_object}.
Arguments ns_modified_code {code_object}.
Arguments check_naming_conventions {code_object}.
Arguments naming_body {code_object}.
Arguments recompile {code_object}.

(** ** Style recommender *)

Definition placeholder : string := String Str.LF ("# Add comments here" ++ String Str.LF "").

Definition function_recommendation (name : string) : string :=
  ("Consider adding comments to function '" ++ name ++ "'.")%string.

Definition class_recommendation (name : string) : string :=
  ("Consider adding comments to class '" ++ name ++ "'.")%string.

Definition module_recommendation : string := "Consider adding comments here.".

Definition line_length_limit : nat := 79.

Definition length_recommendation (i : nat) : string :=
  ("Consider splitting line " ++ Str.of_nat i
     ++ " as it exceeds the line length limit of "
     ++ Str.of_nat line_length_limit ++ " characters.")%string.

Section Style.

(** [inspect.cleandoc], which [ast.get_docstring] applies to the text. *)
Variable cleandoc : string -> string.

(** [ast.get_docstring] on a node that can carry one. *)
Definition get_docstring (n : node) : option string :=
  match node_body n with
  | Node ast_Expr _ (Node (ast_Constant (CStr text)) _ _ _ _ :: _) _ _ :: _ =>
      Some (cleandoc text)
  | _ => None
  end.

(** [not ast.get_docstring(node)]: no docstring, or an empty one. *)
Definition lacks_docstring (n : node) : bool :=
  match get_docstring n with
  | Some (String _ _) => false
  | _ => true
  end.

(** The local variables [recommendations] and [modified_code]. *)
Definition style_state : Type := (list string * string)%type.

(** The branch shared by [FunctionDef] and [ClassDef]; the insertion cuts
    [modified_code] at {e character} offset [line_number - 1]. *)
Definition recommend_at_body (code : string) (message : string) (n : node)
           (st : style_state) : result style_state :=
  let '(recommendations, modified_code) := st in
  match node_body n with
  | [] => inl IndexError
  | first :: _ =>
      match node_lineno first with
      | None => inl AttributeError
      | Some line_number =>
          match Str.index (Str.split_lines code) (line_number - 1) with
          | None => inl IndexError
          | Some line =>
              if is_comment_line line then inr st
              else inr (recommendations ++ [message],
                        (Str.slice_to modified_code (line_number - 1)
                           ++ placeholder
                           ++ Str.slice_from modified_code (line_number - 1))%string)
          end
      end
  end.

Definition style_body (code : string) (st : style_state) (n : node)
  : result style_state :=
  let '(recommendations, modified_code) := st in
  match node_kind n with
  | ast_FunctionDef name =>
      if lacks_docstring n
      then recommend_at_body code (function_recommendation name) n st
      else inr st
  | ast_ClassDef name =>
      if lacks_docstring n
      then recommend_at_body code (class_recommendation name) n st
      else inr st
  | ast_Module =>
      if lacks_docstring n then
        match Str.index (Str.split_lines code) 0 with
        | None => inl IndexError
        | Some line =>
            if is_comment_line line then inr st
            else inr (recommendations ++ [module_recommendation],
                      ("# Add comments here" ++ String Str.LF modified_code)%string)
        end
      else inr st
  | _ => inr st
  end.

(** The second loop: [i] counts lines from 1, yet cuts [modified_code] at
    character offsets [i - 1] and [i]. *)
Definition length_body (st : style_state) (il : nat * string) : style_state :=
  let '(recommendations, modified_code) := st in
  let '(i, line) := il in
  if line_length_limit <? String.length line then
    (recommendations ++ [length_recommendation i],
     (Str.slice_to modified_code (Z.of_nat i - 1)
        ++ String "\"%char (String Str.LF "")
        ++ Str.slice_from modified_code (Z.of_nat i))%string)
  else st.

Definition no_recommendations : string := "No coding style recommendations found.".
Definition no_modification : string := "No modified actions applied".

(** What the function hands back, with the lines it printed. *)
Record style_report : Type := mk_style_report
  { recommendations : list string;
    modified_code : string;
    printed : list string }.

(** [ast.parse]: the tree of the text, or the exception it raises.  That
    is [SyntaxError] for a text outside the grammar; the parser of
    Python 3.11 also raises [ValueError] for a text with a NUL character,
    and [MemoryError] or [RecursionError] for one nested too deep. *)
Variable ast_parse : string -> exn + node.

Definition recommend_coding_style (code : string) : result style_report :=
  tree <- ast_parse code ;;
  st <- for_each (style_body code) (walk_nodes tree) ([], code) ;;
  let lines := Str.split_lines code in
  let '(recommendations, modified_code) :=
    fold_left length_body (enumerate 1 lines) st in
  let '(recommendations, modified_code) :=
    match recommendations with
    | [] => ([no_recommendations], no_modification)
    | _ => (recommendations, modified_code)
    end in
  inr (mk_style_report recommendations modified_code
         (flat_map (fun recommendation =>
                      ["Recommended coding style: "; recommendation])
                   recommendations)).

(** ** The whole analysis *)

Variable code_object : Type.
Variable compile : node -> syntax_error + code_object.

Record analysis : Type := mk_analysis
  { complexity_score : Z;
    quality_score : Z;
    average_function_length : Q;
    naming_violations : list string * option code_object;
    style : style_report }.

Definition analyze_code (code : string) : result analysis :=
  let complexity := analyze_code_complexity code in
  let quality := analyze_code_quality code in
  tree <- ast_parse code ;;
  let average := calculate_average_function_length tree in
  ns <- check_naming_conventions compile tree ;;
  rs <- recommend_coding_style code ;;
  inr (mk_analysis complexity quality average
         (ns_violations ns, ns_modified_code ns) rs).

(** The guarded call of the script: a [SyntaxError] is reported and ends
    the process with status 1; any other exception is not caught. *)
Inductive output : Type :=
| print_str (s : string)
| print_exc (e : syntax_error).

Inductive outcome : Type :=
| Exit (out : list output) (status : Z)
| Traceback (e : exn)
| Continue (r : analysis).

Definition guarded_analysis (code : string) : outcome :=
  match analyze_code code with
  | inl (SyntaxError e) =>
      Exit [print_str "Invalid syntax in the provided code."; print_exc e] 1
  | inl e => Traceback e
  | inr r => Continue r
  end.

End Style.

Arguments mk_analysis {code_object}.
Arguments Exit {code_object}.
Arguments Traceback {code_object}.
Arguments Continue {code_object}.
Arguments analyze_code cleandoc ast_parse {code_object} compile code.
Arguments guarded_analysis cleandoc ast_parse {code_object} compile code.

(** ** [difflib.SequenceMatcher(None, a, b)]

    No junk predicate is given, so [bjunk] is empty; [autojunk] keeps its
    default and drops from [b2j] the characters that fill more than
    [n // 100 + 1] positions of a [b] of 200 characters or more. *)

Module difflib.

Definition Match : Type := (nat * nat * nat)%type.

Definition dict : Type := list (nat * nat).

Fixpoint dict_get (d : dict) (key default : nat) : nat :=
  match d with
  | [] => default
  | (k, v) :: r => if k =? key then v else dict_get r key default
  end.

Section Matcher.

Variables a b : list ascii.

Definition item (s : list ascii) (i : nat) : ascii := nth i s Ascii.zero.

Fixpoint indices_from (i : nat) (s : list ascii) (elt : ascii) : list nat :=
  match s with
  | [] => []
  | c :: r =>
      if Ascii.eqb c elt then i :: indices_from (S i) r elt
      else indices_from (S i) r elt
  end.

(** [__chain_b]: the positions of [elt] in [b], in increasing order, unless
    [elt] was purged as popular. *)
Definition popular (elt : ascii) : bool :=
  let n := List.length b in
  (200 <=? n) && (n / 100 + 1 <? List.length (indices_from 0 b elt)).

Definition b2j_get (elt : ascii) : list nat :=
  if popular elt then [] else indices_from 0 b elt.

Definition isbjunk (elt : ascii) : bool := false.

(** The inner loop of [find_longest_match] over the positions [j] of
    [a[i]] in [b]: [continue] below [blo], [break] from [bhi] on. *)
Fixpoint scan_row (i blo bhi : nat) (j2len : dict) (js : list nat)
         (newj2len : dict) (best : Match) : dict * Match :=
  match js with
  | [] => (newj2len, best)
  | j :: js' =>
      if j <? blo then scan_row i blo bhi j2len js' newj2len best
      else if bhi <=? j then (newj2len, best)
      else
        let k := match j with
                 | 0 => 0
                 | S j' => dict_get j2len j' 0
                 end + 1 in
        let newj2len := (j, k) :: newj2len in
        let '(besti, bestj, bestsize) := best in
        let best := if bestsize <? k then (i + 1 - k, j + 1 - k, k) else best in
        scan_row i blo bhi j2len js' newj2len best
  end.

Definition scan_rows (alo ahi blo bhi : nat) : Match :=
  snd (fold_left
         (fun st i =>
            let '(j2len, best) := st in
            scan_row i blo bhi j2len (b2j_get (item a i)) [] best)
         (seq alo (ahi - alo)) ([], (alo, blo, 0))).

(** The two pairs of [while] loops that grow the block to the left and to
    the right, first over characters that are not junk, then over junk. *)
Fixpoint extend_left (junk : bool) (alo blo besti bestj bestsize : nat)
  : Match :=
  match besti, bestj with
  | S i', S j' =>
      if (alo <? besti) && (blo <? bestj)
         && Bool.eqb (isbjunk (item b j')) junk
         && Ascii.eqb (item a i') (item b j')
      then extend_left junk alo blo i' j' (bestsize + 1)
      else (besti, bestj, bestsize)
  | _, _ => (besti, bestj, bestsize)
  end.

Fixpoint extend_right (fuel : nat) (junk : bool) (ahi bhi besti bestj bestsize : nat)
  : Match :=
  match fuel with
  | 0 => (besti, bestj, bestsize)
  | S fuel' =>
      if (besti + bestsize <? ahi) && (bestj + bestsize <? bhi)
         && Bool.eqb (isbjunk (item b (bestj + bestsize))) junk
         && Ascii.eqb (item a (besti + bestsize)) (item b (bestj + bestsize))
      then extend_right fuel' junk ahi bhi besti bestj (bestsize + 1)
      else (besti, bestj, bestsize)
  end.

Definition find_longest_match (alo ahi blo bhi : nat) : Match :=
  let '(besti, bestj, bestsize) := scan_rows alo ahi blo bhi in
  let '(besti, bestj, bestsize) :=
    extend_left false alo blo besti bestj bestsize in
  let '(besti, bestj, bestsize) :=
    extend_right (ahi - (besti + bestsize)) false ahi bhi besti bestj bestsize in
  let '(besti, bestj, bestsize) :=
    extend_left true alo blo besti bestj bestsize in
  extend_right (ahi - (besti + bestsize)) true ahi bhi besti bestj bestsize.

Definition range : Type := (nat * nat * nat * nat)%type.

(** The loop of [get_matching_blocks]; [queue.pop()] takes the range pushed
    last, which is the head of the list here. *)
Fixpoint match_ranges (fuel : nat) (queue : list range)
         (matching_blocks : list Match) : list Match :=
  match fuel, queue with
  | S fuel', (alo, ahi, blo, bhi) :: queue =>
      let '(i, j, k) := find_longest_match alo ahi blo bhi in
      if k =? 0 then match_ranges fuel' queue matching_blocks
      else
        let matching_blocks := matching_blocks ++ [(i, j, k)] in
        let queue :=
          if (alo <? i) && (blo <? j) then (alo, i, blo, j) :: queue
          else queue in
        let queue :=
          if (i + k <? ahi) && (j + k <? bhi) then (i + k, ahi, j + k, bhi) :: queue
          else queue in
        match_ranges fuel' queue matching_blocks
  | _, _ => matching_blocks
  end.

(** Tuples compare lexicographically. *)
Definition match_leb (x y : Match) : bool :=
  let '(i1, j1, k1) := x in
  let '(i2, j2, k2) := y in
  (i1 <? i2) || ((i1 =? i2) && ((j1 <? j2) || ((j1 =? j2) && (k1 <=? k2)))).

Fixpoint insert_sorted (x : Match) (l : list Match) : list Match :=
  match l with
  | [] => [x]
  | y :: r => if match_leb x y then x :: l else y :: insert_sorted x r
  end.

Definition sort (l : list Match) : list Match := fold_right insert_sorted [] l.

(** Adjacent blocks are merged; [cur] is [(i1, j1, k1)]. *)
Definition collapse_step (st : Match * list Match) (x : Match)
  : Match * list Match :=
  let '((i1, j1, k1), non_adjacent) := st in
  let '(i2, j2, k2) := x in
  if (i1 + k1 =? i2) && (j1 + k1 =? j2) then ((i1, j1, k1 + k2), non_adjacent)
  else ((i2, j2, k2),
        if k1 =? 0 then non_adjacent else non_adjacent ++ [(i1, j1, k1)]).

(** Every productive pop removes at least one character of [a] from the
    ranges still to be searched and adds at most one range to the queue, so
    [2 * len(a) + 1] pops empty it. *)
Definition get_matching_blocks : list Match :=
  let la := List.length a in
  let lb := List.length b in
  let matching_blocks := sort (match_ranges (2 * la + 1) [(0, la, 0, lb)] []) in
  let '((i1, j1, k1), non_adjacent) :=
    fold_left collapse_step matching_blocks ((0, 0, 0), []) in
  let non_adjacent :=
    if k1 =? 0 then non_adjacent else non_adjacent ++ [(i1, j1, k1)] in
  non_adjacent ++ [(la, lb, 0)].

(** [2.0 * matches / length]: the float is the correctly rounded value of
    this quotient. *)
Definition calculate_ratio (matches length : nat) : Q :=
  if length =? 0 then 1%Q
  else (2 * inject_Z (Z.of_nat matches) / inject_Z (Z.of_nat length))%Q.

Definition ratio : Q :=
  let matches := list_sum (map (fun triple : Match => snd triple) get_matching_blocks) in
  calculate_ratio matches (List.length a + List.length b).

End Matcher.

(** A block lies inside the range that was searched. *)
Definition inside (alo ahi blo bhi : nat) (m : Match) : Prop :=
  let '(i, j, k) := m in
  alo <= i /\ i + k <= ahi /\ blo <= j /\ j + k <= bhi.

(** Run lengths recorded for the rows before [i]. *)
Definition runs_below (alo blo i : nat) (d : dict) : Prop :=
  forall j, dict_get d j 0 <= i - alo /\ dict_get d j 0 <= j + 1 - blo.

Definition range_ok (r : range) : Prop :=
  let '(alo, ahi, blo, bhi) := r in alo <= ahi /\ blo <= bhi.

(** What a range still costs: one pop for itself and two for each
    character of [a] it covers. *)
Definition weight (r : range) : nat :=
  let '(alo, ahi, _, _) := r in 2 * (ahi - alo) + 1.

Definition queue_weight (queue : list range) : nat := list_sum (map weight queue).

End difflib.

(** ** Duplicate line detector *)

Definition similarity (line1 line2 : string) : Q :=
  difflib.ratio (list_ascii_of_string line1) (list_ascii_of_string line2).

(** [similarity > 0.8].  The literal is the double nearest to 4/5; for
    lines that together have fewer than 2^50 characters the rounded
    quotient exceeds it exactly when the quotient exceeds 4/5. *)
Definition similar (line1 line2 : string) : bool :=
  negb (Qle_bool (similarity line1 line2) (8 # 10)).

Definition detect_repeated_code (code : string) : list (nat * nat) :=
  let lines := Str.split_lines code in
  fold_left
    (fun repeated_code il1 =>
       let '(i, line1) := il1 in
       fold_left
         (fun repeated_code jl2 =>
            let '(j, line2) := jl2 in
            if similar line1 line2 then repeated_code ++ [(i, j + i + 1)]
            else repeated_code)
         (enumerate 0 (skipn (i + 1) lines)) repeated_code)
    (enumerate 0 lines) [].

(** * Vocabulary of the statements *)

(** ** Node references and shapes *)

Definition kind_at (p : path) (tree : node) : option kind :=
  option_map node_kind (subtree p tree).

(** The shape of a tree: what is left when every class record is erased.
    Assignments to scalar fields keep it, and the order in which [ast.walk]
    reaches the node objects depends on nothing else. *)
Fixpoint shape (n : node) : node :=
  let 'Node _ _ front body back := n in
  Node ast_Other None (map shape front) (map shape body) (map shape back).

Definition same_ref (x y : path * node) : Prop :=
  fst x = fst y /\ shape (snd x) = shape (snd y).

(** Two references lie on one branch when the path of one extends the
    path of the other; the references waiting in the deque of [ast.walk]
    never do. *)
Definition is_prefix (p q : path) : Prop := exists r, q = p ++ r.

Definition unrelated (p q : path) : Prop := ~ is_prefix p q /\ ~ is_prefix q p.

Fixpoint antichain (ps : list path) : Prop :=
  match ps with
  | [] => True
  | p :: r => Forall (unrelated p) r /\ antichain r
  end.

(** ** The functions of a tree *)

Definition is_function (n : node) : bool :=
  match node_kind n with
  | ast_FunctionDef _ => true
  | _ => false
  end.

(** All [FunctionDef] nodes of a tree, and the number of statements
    directly in the body of one. *)
Definition functions (tree : node) : list node :=
  filter is_function (descendants tree).

Definition body_count (n : node) : nat := List.length (node_body n).

Definition mean (xs : list nat) : Q :=
  (inject_Z (Z.of_nat (list_sum xs)) / inject_Z (Z.of_nat (List.length xs)))%Q.

(** ** The pairs of the detector, line by line *)

(** The pairs reported for line [i]: the candidates [jl] are the lines after
    it, numbered from 0. *)
Definition row (i : nat) (line1 : string) (jl : nat * string) : list (nat * nat) :=
  if similar line1 (snd jl) then [(i, fst jl + i + 1)] else [].

Definition rows (lines : list string) (il : nat * string) : list (nat * nat) :=
  flat_map (row (fst il) (snd il)) (enumerate 0 (skipn (fst il + 1) lines)).

(** Outer index ascending, then inner index ascending. *)
Definition pair_lt (x y : nat * nat) : Prop :=
  fst x < fst y \/ (fst x = fst y /\ snd x < snd y).

(** ** Case of a string *)

Fixpoint has_upper (s : string) : bool :=
  match s with
  | EmptyString => false
  | String c r => Str.char_isupper c || has_upper r
  end.

Fixpoint has_lower (s : string) : bool :=
  match s with
  | EmptyString => false
  | String c r => Str.char_islower c || has_lower r
  end.

(** A cased character of this alphabet is an uppercase or a lowercase one
    (beyond U+00FF there are titlecase characters as well). *)
Definition has_cased (s : string) : bool := has_upper s || has_lower s.

(** ** One visit of the naming checker *)

(** What one visit does to the class record of a node, and what it
    reports. *)
Definition renamed (k : kind) : kind :=
  match k with
  | ast_FunctionDef name =>
      if Str.islower name then k else ast_FunctionDef (Str.lower name)
  | ast_Name id => if Str.isupper id then ast_Name (Str.lower id) else k
  | _ => k
  end.

Definition violation_of (k : kind) : list string :=
  match k with
  | ast_FunctionDef name =>
      if Str.islower name then [] else [function_message name]
  | ast_Name id =>
      if Str.isupper id then [uppercase_message id]
      else if re_match_identifier id then [] else [pattern_message id]
  | _ => []
  end.

Definition violations_at (tree : node) (p : path) : list string :=
  match kind_at p tree with
  | Some k => violation_of k
  | None => []
  end.

(** A visit leaves a state alone when the record it finds is in order. *)
Definition in_order (k : kind) : bool :=
  match k with
  | ast_FunctionDef name => Str.islower name
  | ast_Name id => negb (Str.isupper id) && re_match_identifier id
  | _ => true
  end.

(** Names the first call can put in order: a function name with a cased
    character, an identifier that matches the pattern of the checker. *)
Definition well_named (k : kind) : bool :=
  match k with
  | ast_FunctionDef name => has_cased name
  | ast_Name id => re_match_identifier id
  | _ => true
  end.

(** ** One visit of the style recommender *)

(** The source line the recommender looks at for a function or a class:
    the one numbered by the first statement of the body. *)
Definition first_body_line (code : string) (n : node) : option string :=
  match node_body n with
  | first :: _ =>
      match node_lineno first with
      | Some line_number => Str.index (Str.split_lines code) (line_number - 1)
      | None => None
      end
  | [] => None
  end.

(** The message, if any, that the first loop emits for one node. *)
Definition doc_message (cleandoc : string -> string) (code : string) (n : node)
  : list string :=
  let at_body message :=
    match first_body_line code n with
    | Some line => if is_comment_line line then [] else [message]
    | None => []
    end in
  if lacks_docstring cleandoc n then
    match node_kind n with
    | ast_FunctionDef name => at_body (function_recommendation name)
    | ast_ClassDef name => at_body (class_recommendation name)
    | ast_Module =>
        match Str.index (Str.split_lines code) 0 with
        | Some line => if is_comment_line line then [] else [module_recommendation]
        | None => []
        end
    | _ => []
    end
  else [].

(** Nodes the first loop passes over. *)
Definition plain (k : kind) : bool :=
  match k with
  | ast_FunctionDef _ | ast_ClassDef _ | ast_Module => false
  | _ => true
  end.

Definition placeholder_line : string := "# Add comments here".

(** ** Sample programs and their trees *)

(** The trees of [def Foo(): pass] and of [def _(): pass]. *)
Definition arguments : node := Node ast_Other None [] [] [].
Definition pass_at (l : Z) : node := Node ast_Other (Some l) [] [] [].
Definition def_pass (name : string) : node :=
  Node (ast_FunctionDef name) (Some 1%Z) [arguments] [pass_at 1] [].
Definition module_of (body : list node) : node := Node ast_Module None [] body [].

Definition foo_tree : node := module_of [def_pass "Foo"].
Definition foo_tree_renamed : node := module_of [def_pass "foo"].
Definition underscore_tree : node := module_of [def_pass "_"].

(** [def f():] with [pass] on the next line, and [def f(): pass]. *)
Definition two_line_def : string := ("def f():" ++ String Str.LF "    pass")%string.
Definition two_line_def_tree : node :=
  module_of [Node (ast_FunctionDef "f") (Some 1%Z) [arguments] [pass_at 2] []].

Definition one_line_def : string := "def f(): pass".
Definition one_line_def_tree : node := module_of [def_pass "f"].

(** [x = 1] *)
Definition assignment : string := "x = 1".
Definition assignment_tree : node :=
  module_of
    [Node ast_Other (Some 1%Z)
          [Node (ast_Name "x") (Some 1%Z) [Node ast_Other None [] [] []] [] [];
           Node (ast_Constant COther) (Some 1%Z) [] [] []]
          [] []].

(** [def f():] and [pass] separated by a carriage return: one line for
    [split("\n")], two lines for the parser. *)
Definition carriage_return_def : string :=
  ("def f():" ++ String "013"%char "  pass")%string.

(** [X; return]: an expression statement and a [return] at module level,
    which [ast.parse] accepts and [compile] rejects. *)
Definition stray_return : string := "X; return".
Definition stray_return_tree : node :=
  module_of
    [Node ast_Expr (Some 1%Z)
          [Node (ast_Name "X") (Some 1%Z) [Node ast_Other None [] [] []] [] []]
          [] [];
     Node ast_Other (Some 1%Z) [] [] []].

Definition abc_abc : string := ("abc" ++ String Str.LF "abc")%string.
Definition abc_xyz : string := ("abc" ++ String Str.LF "xyz")%string.

Definition two_blank_lines : string :=
  ("x" ++ String Str.LF (String Str.LF (String Str.LF "y")))%string.

(** ** Stand-ins for the library on the samples *)

(** A [compile] that always succeeds and keeps the tree it was given. *)
Definition snapshot (tree : node) : syntax_error + node := inr tree.

Definition return_outside_function : syntax_error :=
  mk_syntax_error "'return' outside function" 1 4.

(** What [compile] answers for a module with a [return] at its top
    level. *)
Definition rejects_return (tree : node) : syntax_error + node :=
  inl return_outside_function.

(** [def] alone, which the parser rejects at the end of the word, and a
    text with a NUL character, for which the parser of Python 3.11 raises
    [ValueError]. *)
Definition lone_def : string := "def".
Definition lone_def_error : syntax_error := mk_syntax_error "invalid syntax" 1 4.

Definition nul_text : string := ("x = 1" ++ String "000"%char "")%string.

(** A parser known on a few texts only: the table holds what [ast.parse]
    answers for each of them, a tree or an exception.  A function has to
    answer the other texts too; no statement below applies it to one. *)
Definition unlisted : exn + node := inl MemoryError.

Fixpoint parse_by_table (table : list (string * (exn + node))) (code : string)
  : exn + node :=
  match table with
  | [] => unlisted
  | (text, answer) :: rest =>
      if String.eqb text code then answer else parse_by_table rest code
  end.

Definition sample_parser : string -> exn + node :=
  parse_by_table [(two_line_def, inr two_line_def_tree);
                  (one_line_def, inr one_line_def_tree);
                  (assignment, inr assignment_tree);
                  (stray_return, inr stray_return_tree);
                  (carriage_return_def, inr two_line_def_tree);
                  ("", inr (module_of []));
                  (lone_def, inl (SyntaxError lone_def_error));
                  (nul_text, inl ValueError)].

Definition no_cleaning (text : string) : string := text.

(** ** Sentences of the specification that the code does not meet *)

(** C2 as the specification words it: a violation is reported and the name
    rewritten exactly for the function names with an uppercase character. *)
Definition uppercase_rule : Prop :=
  forall (compile : node -> syntax_error + node) tree st p name,
    check_naming_conventions compile tree = inr st ->
    In p (map fst (walk tree)) ->
    kind_at p tree = Some (ast_FunctionDef name) ->
    (In (function_message name) (ns_violations st)
     /\ kind_at p (ns_tree st) = Some (ast_FunctionDef (Str.lower name)))
    <-> has_upper name = true.

(** C5 as the specification words it. *)
Definition second_check_always_silent : Prop :=
  forall (compile : node -> syntax_error + node) tree st1 st2,
    check_naming_conventions compile tree = inr st1 ->
    check_naming_conventions compile (ns_tree st1) = inr st2 ->
    ns_violations st2 = [].

(** C3 as the specification words it, first half: the placeholder line is
    put immediately before the source line of the first body statement. *)
Definition splice_rule : Prop :=
  forall (cleandoc : string -> string)
         (ast_parse : string -> exn + node) code tree n name line r,
    ast_parse code = inr tree ->
    In n (walk_nodes tree) ->
    node_kind n = ast_FunctionDef name ->
    lacks_docstring cleandoc n = true ->
    first_body_line code n = Some line ->
    is_comment_line line = false ->
    recommend_coding_style cleandoc ast_parse code = inr r ->
    In (function_recommendation name) (recommendations r)
    /\ exists i,
        nth_error (Str.split_lines (modified_code r)) i = Some placeholder_line
        /\ nth_error (Str.split_lines (modified_code r)) (S i) = Some line.

(** Second half: a one-line module that is not a comment and has no
    docstring gets the one recommendation and the placeholder line in
    front. *)
Definition one_line_rule : Prop :=
  forall (cleandoc : string -> string)
         (ast_parse : string -> exn + node) code tree,
    ast_parse code = inr tree ->
    node_kind tree = ast_Module ->
    lacks_docstring cleandoc tree = true ->
    Str.split_lines code = [code] ->
    is_comment_line code = false ->
    exists out,
      recommend_coding_style cleandoc ast_parse code
      = inr (mk_style_report [module_recommendation]
               (placeholder_line ++ String Str.LF code) out).

(** C6 as the specification words it: a [SyntaxError] comes out exactly
    when the parser rejects the text, and nothing else is ever raised. *)
Definition syntax_failure_rule : Prop :=
  forall (cleandoc : string -> string)
         (ast_parse : string -> exn + node)
         (compile : node -> syntax_error + node) code,
    ((exists e, analyze_code cleandoc ast_parse compile code
                = inl (SyntaxError e))
     <-> (exists e, ast_parse code = inl e))
    /\ (forall ex, analyze_code cleandoc ast_parse compile code = inl ex ->
                   exists e, ex = SyntaxError e).

(** * The script

    The statements run when the file is started as a program, from the first
    prompt to the statistics of the scores.  What follows them (the tables of
    the fixed sample names, the chart of random numbers, the sets) reads
    nothing of the user's text and is not modelled. *)

(** What [print] is given: a string, an integer, a float, a list of
    integers, an exception. *)
Inductive value : Type :=
| v_str (s : string)
| v_int (z : Z)
| v_float (q : Q)
| v_ints (zs : list Z)
| v_exc (e : syntax_error).

(** What reaches standard output: the prompt of an [input] call, or the
    arguments of one [print] call. *)
Inductive event : Type :=
| ev_prompt (text : string)
| ev_print (args : list value).

Inductive script_exn : Type :=
| EOFError
| Raised (e : exn).

(** How the modelled statements end: [exit(1)], an exception nobody
    catches, or on to the rest of the script. *)
Inductive status : Type :=
| exit_status (code : Z)
| traceback (e : script_exn)
| goes_on.

Definition prompt_text : string := "Enter your code for analysis: ".
Definition empty_input : string := "Empty input! Please provide code.".

(** [input(...).strip()], again while the result is empty.  [stdin] holds
    the lines still to be read, without their line ends; [input] raises
    [EOFError] when there is none. *)
Fixpoint read_code (stdin : list string) (out : list event)
  : list event * option (string * list string) :=
  match stdin with
  | [] => (out ++ [ev_prompt prompt_text], None)
  | line :: rest =>
      let out := out ++ [ev_prompt prompt_text] in
      let code := Str.strip line in
      match code with
      | EmptyString => read_code rest (out ++ [ev_print [v_str empty_input]])
      | _ => (out, Some (code, rest))
      end
  end.

(** [sorted(scores, reverse=True)] on integers. *)
Fixpoint insert_desc (x : Z) (l : list Z) : list Z :=
  match l with
  | [] => [x]
  | y :: r => if (y <? x)%Z then x :: l else y :: insert_desc x r
  end.

Definition sorted_reverse (l : list Z) : list Z := fold_right insert_desc [] l.

(** [.mean()], [.max()] and [.min()] of a column of integers that is not
    empty. *)
Definition column_mean (l : list Z) : Q :=
  (inject_Z (fold_left Z.add l 0%Z) / inject_Z (Z.of_nat (List.length l)))%Q.

Definition column_max (l : list Z) : Z :=
  match l with
  | [] => 0%Z
  | x :: r => fold_left Z.max r x
  end.

Definition column_min (l : list Z) : Z :=
  match l with
  | [] => 0%Z
  | x :: r => fold_left Z.min r x
  end.

Definition violation_header : string := "Naming convention violation identified: ".
Definition no_violation : string := "No naming convention violation identified".

(** The [for ... break ... else] over the violations: the first one, or the
    fixed message. *)
Definition report_violation (naming_violations : list string) : list event :=
  match naming_violations with
  | violation :: _ =>
      [ev_print [v_str violation_header]; ev_print [v_str violation]]
  | [] => [ev_print [v_str violation_header]; ev_print [v_str no_violation]]
  end.

Definition repeated_line (ij : nat * nat) : string :=
  ("lines " ++ Str.of_nat (fst ij + 1) ++ " and " ++ Str.of_nat (snd ij + 1))%string.

Definition report_repeated (repeated_code : list (nat * nat)) : list event :=
  match repeated_code with
  | [] => [ev_print [v_str "No repeated code found."]]
  | _ =>
      ev_print [v_str "Repeated Code:"]
      :: map (fun ij => ev_print [v_str (repeated_line ij)]) repeated_code
  end.

Definition fixed_scores : list Z := [20; 10; 15; 5]%Z.

Arguments complexity_score {code_object}.
Arguments quality_score {code_object}.
Arguments average_function_length {code_object}.
Arguments naming_violations {code_object}.
Arguments style {code_object}.

Section Script.

Variable cleandoc : string -> string.
Variable ast_parse : string -> exn + node.
Variable code_object : Type.
Variable compile : node -> syntax_error + code_object.

(** The prints that follow a successful analysis, given the violations of
    the second call of the checker. *)
Definition report (code : string) (r : analysis code_object)
           (naming_violations : list string) : list event :=
  let sorted_scores := sorted_reverse (quality_score r :: fixed_scores) in
  [ev_print [v_str "Code Complexity Score:"; v_int (complexity_score r)];
   ev_print [v_str "Code Quality Score:"; v_int (quality_score r)];
   ev_print [v_str "Average Function Length:";
             v_float (average_function_length r)];
   ev_print [v_str "Modified Code:"];
   ev_print [v_str (modified_code (style r))]]
  ++ report_violation naming_violations
  ++ [ev_print [v_str "Sorted Scores:"; v_ints sorted_scores]]
  ++ report_repeated (detect_repeated_code code)
  ++ [ev_print [v_str "Mean Score:"; v_float (column_mean sorted_scores)];
      ev_print [v_str "Max Score:"; v_int (column_max sorted_scores)];
      ev_print [v_str "Min Score:"; v_int (column_min sorted_scores)]].

Definition script (stdin : list string) : list event * status :=
  match read_code stdin [] with
  | (out, None) => (out, traceback EOFError)
  | (out, Some (code, _)) =>
      match analyze_code cleandoc ast_parse compile code with
      | inl (SyntaxError e) =>
          (out ++ [ev_print [v_str "Invalid syntax in the provided code."];
                   ev_print [v_exc e]],
           exit_status 1)
      | inl e => (out, traceback (Raised e))
      | inr r =>
          let out :=
            out ++ map (fun line => ev_print [v_str line]) (printed (style r)) in
          let out :=
            out ++ [ev_print [v_str "Code Complexity Score:";
                              v_int (complexity_score r)];
                    ev_print [v_str "Code Quality Score:";
                              v_int (quality_score r)];
                    ev_print [v_str "Average Function Length:";
                              v_float (average_function_length r)];
                    ev_print [v_str "Modified Code:"];
                    ev_print [v_str (modified_code (style r))]] in
          match ast_parse code with
          | inl e => (out, traceback (Raised e))
          | inr tree =>
              match check_naming_conventions compile tree with
              | inl e => (out, traceback (Raised e))
              | inr ns =>
                  let out := out ++ report_violation (ns_violations ns) in
                  let scores := quality_score r :: fixed_scores in
                  let sorted_scores := sorted_reverse scores in
                  let out :=
                    out ++ [ev_print [v_str "Sorted Scores:";
                                      v_ints sorted_scores]] in
                  let out := out ++ report_repeated (detect_repeated_code code) in
                  let out :=
                    out ++ [ev_print [v_str "Mean Score:";
                                      v_float (column_mean sorted_scores)];
                            ev_print [v_str "Max Score:";
                                      v_int (column_max sorted_scores)];
                            ev_print [v_str "Min Score:";
                                      v_int (column_min sorted_scores)]] in
                  (out, goes_on)
              end
          end
      end
  end.

End Script.

Arguments script cleandoc ast_parse {code_object} compile stdin.
Arguments report {code_object} code r naming_violations.

(** * Further vocabulary *)

(** ** Trees that differ in their class records only *)

Fixpoint map_kinds (f : kind -> kind) (n : node) : node :=
  let 'Node k l front body back := n in
  Node (f k) l (map (map_kinds f) front) (map (map_kinds f) body)
       (map (map_kinds f) back).

(** A tree without its class records: the line numbers and the three lists
    of children stay. *)
Fixpoint skeleton (n : node) : node :=
  let 'Node _ l front body back := n in
  Node ast_Other l (map skeleton front) (map skeleton body) (map skeleton back).

(** The records for which the checker assigns a new name and compiles. *)
Definition rewrites (k : kind) : bool :=
  match k with
  | ast_FunctionDef name => negb (Str.islower name)
  | ast_Name id => Str.isupper id
  | _ => false
  end.

(** What the visit of the node object at [p] does to the tree, and the tree
    after the visits of the node objects at [done], in that order. *)
Definition lower_at (tree : node) (p : path) : node :=
  match kind_at p tree with
  | Some k => if rewrites k then assign p (renamed k) tree else tree
  | None => tree
  end.

Definition lowered (done : list path) (tree : node) : node :=
  fold_left lower_at done tree.

(** The order of the tree loops: a position comes before every deeper one
    and, on its own level, before those that branch off to its right. *)
Fixpoint left_of (p q : path) : Prop :=
  match p, q with
  | i :: p', j :: q' => i < j \/ (i = j /\ left_of p' q')
  | _, _ => False
  end.

Definition walk_order (p q : path) : Prop :=
  List.length p < List.length q
  \/ (List.length p = List.length q /\ left_of p q).

(** The deque holds the rest of one level and then what is already known of
    the next, whose parents all stand left of the rest of this level. *)
Definition ordered_queue (ps : list path) : Prop :=
  StronglySorted walk_order ps
  /\ (forall x y, In x ps -> In y ps -> List.length y <= List.length x + 1)
  /\ (forall x y, In x ps -> In y ps ->
                  List.length y = List.length x + 1 ->
                  left_of (removelast y) x).

(** The code object in hand is that of the tree as it is. *)
Definition handle_current {code_object : Type}
           (compile : node -> syntax_error + code_object)
           (st : naming_state code_object) : Prop :=
  forall c, ns_modified_code st = Some c -> compile (ns_tree st) = inr c.

(** ** What the style recommender finds *)

(** The message of the second loop for one numbered line. *)
Definition long_line_message (il : nat * string) : list string :=
  if line_length_limit <? String.length (snd il)
  then [length_recommendation (fst il)] else [].

(** All messages of the two loops, in the order they are appended. *)
Definition found_recommendations (cleandoc : string -> string) (code : string)
           (tree : node) : list string :=
  flat_map (doc_message cleandoc code) (walk_nodes tree)
  ++ flat_map long_line_message (enumerate 1 (Str.split_lines code)).

(** By how many characters a node's recommendation lengthens the working
    copy: the module's placeholder has 20 characters, the other one 21. *)
Definition doc_growth (cleandoc : string -> string) (code : string) (n : node)
  : nat :=
  match doc_message cleandoc code n with
  | [] => 0
  | _ => match node_kind n with
         | ast_Module => 20
         | _ => 21
         end
  end.

Definition recommendation_header : string := "Recommended coding style: ".

(** ** Texts joined by a line feed *)

Definition join (a b : string) : string := (a ++ String Str.LF b)%string.

Fixpoint no_line_feed (s : string) : bool :=
  match s with
  | EmptyString => true
  | String c r => negb (Ascii.eqb c Str.LF) && no_line_feed r
  end.

Definition line_count (code : string) : nat := List.length (Str.split_lines code).

(** ** What the script writes while it asks for the text *)

Definition blank (line : string) : Prop := Str.strip line = EmptyString.

(** One prompt and one complaint for each blank line, then the prompt that
    is answered, or that meets the end of the input. *)
Definition prompts (blanks : list string) : list event :=
  flat_map (fun _ : string => [ev_prompt prompt_text; ev_print [v_str empty_input]])
           blanks
  ++ [ev_prompt prompt_text].

(** Largest first. *)
Definition descending (l : list Z) : Prop :=
  StronglySorted (fun x y => (y <= x)%Z) l.

(** * Properties *)

(** ** Strings *)

Lemma prefix_app (p s : string) :
  prefix p s = true <-> exists r, s = (p ++ r)%string.
Proof.
  revert s; induction p as [|c p IH]; intros s; simpl.
  - split; [intros _; now exists s | now destruct s].
  - destruct s as [|d s].
    + split; [discriminate | intros [r Hr]; discriminate].
    + simpl. destruct (ascii_dec c d) as [->|Hcd].
      * rewrite IH. split; intros [r Hr]; exists r; congruence.
      * split; [discriminate | intros [r Hr]; congruence].
Qed.

Lemma contains_occurs (needle hay : string) :
  Str.contains needle hay = true <-> Str.Occurs needle hay.
Proof.
  unfold Str.Occurs. induction hay as [|c hay IH]; cbn [Str.contains].
  - rewrite orb_false_r, prefix_app. split.
    + intros [r Hr]. now exists EmptyString, r.
    + intros [[|d l] [r Hr]]; [now exists r | discriminate].
  - rewrite orb_true_iff, prefix_app, IH. split.
    + intros [[r Hr] | [l [r Hr]]].
      * now exists EmptyString, r.
      * exists (String c l), r. simpl. now rewrite Hr.
    + intros [[|d l] [r Hr]].
      * left. now exists r.
      * right. exists l, r. simpl in Hr. congruence.
Qed.

Lemma split_lines_nonempty (s : string) : Str.split_lines s <> [].
Proof.
  destruct s as [|c s]; simpl; [discriminate|].
  destruct (Ascii.eqb c Str.LF); [discriminate|].
  destruct (Str.split_lines s); discriminate.
Qed.

Lemma join_split_lines (s : string) : Str.join_lines (Str.split_lines s) = s.
Proof.
  induction s as [|c s IH]; [reflexivity|].
  cbn [Str.split_lines]. destruct (Ascii.eqb c Str.LF) eqn:Ec.
  - apply Ascii.eqb_eq in Ec. subst c. cbn [Str.join_lines].
    destruct (Str.split_lines s) eqn:Es; [now apply split_lines_nonempty in Es|].
    rewrite IH. reflexivity.
  - destruct (Str.split_lines s) as [|l ls] eqn:Es;
      [now apply split_lines_nonempty in Es|].
    rewrite <- IH. cbn [Str.join_lines]. now destruct ls.
Qed.

(** ** Scores *)

Lemma count_loop {A} (p : A -> bool) (xs : list A) (z : Z) :
  fold_left (fun acc x => if p x then (acc + 1)%Z else acc) xs z
  = (z + Z.of_nat (List.length (filter p xs)))%Z.
Proof.
  revert z; induction xs as [|x xs IH]; intros z; simpl.
  - lia.
  - rewrite IH. destruct (p x); simpl List.length; lia.
Qed.

(** C7: the complexity score of a text is the number of its lines whose
    stripped form starts with the comment marker; it is never negative, and
    the scorer is a total function of the text. *)
Theorem complexity_counts_comment_lines (code : string) :
  analyze_code_complexity code
  = Z.of_nat (List.length (filter (fun line => Str.startswith (Str.strip line) "#")
                                  (Str.split_lines code)))
  /\ (0 <= analyze_code_complexity code)%Z.
Proof.
  assert (E : analyze_code_complexity code
              = Z.of_nat (List.length (filter is_comment_line (Str.split_lines code)))).
  { unfold analyze_code_complexity. now rewrite count_loop. }
  split; [exact E | rewrite E; lia].
Qed.

Lemma quality_unfold (code : string) :
  analyze_code_quality code
  = (analyze_code_complexity code
     - (if Str.contains "goto" code then 10 else 0)
     - (if Str.contains "magic_number" code then 5 else 0))%Z.
Proof.
  unfold analyze_code_quality.
  destruct (Str.contains "goto" code), (Str.contains "magic_number" code); lia.
Qed.

(** C1: the quality score is the complexity score, less 10 when "goto"
    occurs somewhere in the text and less 5 when "magic_number" does, each
    penalty taken at most once; the result is an integer of either sign. *)
Theorem quality_score_penalties (code : string) :
  exists goto magic : bool,
    (goto = true <-> Str.Occurs "goto" code)
    /\ (magic = true <-> Str.Occurs "magic_number" code)
    /\ analyze_code_quality code
       = (analyze_code_complexity code
          - (if goto then 10 else 0) - (if magic then 5 else 0))%Z.
Proof.
  exists (Str.contains "goto" code), (Str.contains "magic_number" code).
  split; [apply contains_occurs|].
  split; [apply contains_occurs|].
  apply quality_unfold.
Qed.

(** C9: the quality score never exceeds the complexity score. *)
Theorem quality_le_complexity (code : string) :
  (analyze_code_quality code <= analyze_code_complexity code)%Z.
Proof.
  rewrite quality_unfold.
  destruct (Str.contains "goto" code), (Str.contains "magic_number" code); lia.
Qed.

Example quality_negative : analyze_code_quality "goto magic_number" = (-15)%Z.
Proof. reflexivity. Qed.

Example length_recommendation_80 :
  length_recommendation 3
  = "Consider splitting line 3 as it exceeds the line length limit of 79 characters.".
Proof. reflexivity. Qed.

(** ** Tree walks *)

Lemma size_children (n : node) : size n = S (forest_size (iter_child_nodes n)).
Proof.
  destruct n as [k l f b t]. unfold forest_size. simpl.
  rewrite !map_app, !list_sum_app. lia.
Qed.

Lemma forest_size_app (xs ys : list node) :
  forest_size (xs ++ ys) = forest_size xs + forest_size ys.
Proof. unfold forest_size. now rewrite map_app, list_sum_app. Qed.

Lemma forest_size_cons (x : node) (xs : list node) :
  forest_size (x :: xs) = size x + forest_size xs.
Proof. reflexivity. Qed.

Lemma descendants_children (n : node) :
  descendants n = n :: flat_map descendants (iter_child_nodes n).
Proof. destruct n as [k l f b t]. simpl. now rewrite !flat_map_app. Qed.

Lemma enumerate_snd {A} (xs : list A) (i : nat) : map snd (enumerate i xs) = xs.
Proof. revert i; induction xs; intros i; simpl; [|rewrite IHxs]; reflexivity. Qed.

Lemma enumerate_fst {A} (xs : list A) (i : nat) :
  map fst (enumerate i xs) = seq i (List.length xs).
Proof. revert i; induction xs; intros i; simpl; [|rewrite IHxs]; reflexivity. Qed.

Lemma child_refs_nodes (p : path) (n : node) :
  map snd (child_refs p n) = iter_child_nodes n.
Proof.
  unfold child_refs. rewrite map_map. simpl.
  apply (enumerate_snd (iter_child_nodes n) 0).
Qed.

(** More fuel than the size of the forest does not change the walk: the
    deque is empty when the fuel [size tree] is used up. *)
Lemma walk_fuel (fuel : nat) (todo : list (path * node)) :
  forest_size (map snd todo) <= fuel ->
  walk_todo fuel todo = walk_todo (forest_size (map snd todo)) todo.
Proof.
  revert todo. induction fuel as [|fuel IH]; intros todo Hle.
  - now replace (forest_size (map snd todo)) with 0 by lia.
  - destruct todo as [|[p n] todo].
    + reflexivity.
    + assert (Hs : forest_size (map snd (((p, n) :: todo)))
                  = S (forest_size (map snd (todo ++ child_refs p n)))).
      { rewrite map_app, forest_size_app, child_refs_nodes.
        cbn [map snd]. rewrite forest_size_cons, size_children. lia. }
      rewrite Hs. simpl. f_equal. apply IH. lia.
Qed.

Lemma walk_todo_nodes (fuel : nat) (todo : list (path * node)) :
  forest_size (map snd todo) <= fuel ->
  Permutation (map snd (walk_todo fuel todo))
              (flat_map descendants (map snd todo)).
Proof.
  revert todo. induction fuel as [|fuel IH]; intros todo Hle.
  - destruct todo as [|[p n] todo]; [constructor|].
    cbn [map snd] in Hle. rewrite forest_size_cons, size_children in Hle. lia.
  - destruct todo as [|[p n] todo]; [constructor|].
    cbn [map snd] in Hle. rewrite forest_size_cons, size_children in Hle.
    cbn [walk_todo map snd flat_map]. rewrite descendants_children.
    cbn [app]. constructor.
    assert (Hs : forest_size (map snd (todo ++ child_refs p n)) <= fuel).
    { rewrite map_app, forest_size_app, child_refs_nodes. lia. }
    rewrite (IH _ Hs), map_app, flat_map_app, child_refs_nodes.
    apply Permutation_app_comm.
Qed.

(** [ast.walk] yields every node of the tree exactly once. *)
Lemma walk_visits_all (tree : node) :
  Permutation (walk_nodes tree) (descendants tree).
Proof.
  unfold walk_nodes, walk.
  rewrite (walk_todo_nodes (size tree) [([], tree)]).
  - cbn [map snd flat_map]. now rewrite app_nil_r.
  - cbn [map snd]. rewrite forest_size_cons. unfold forest_size. simpl. lia.
Qed.

(** ** Average function length *)

Lemma function_lengths_loop (ns : list node) (acc : list nat) :
  fold_left
    (fun function_lengths n =>
       match node_kind n with
       | ast_FunctionDef _ => function_lengths ++ [List.length (node_body n)]
       | _ => function_lengths
       end) ns acc
  = acc ++ map body_count (filter is_function ns).
Proof.
  revert acc; induction ns as [|n ns IH]; intros acc; simpl.
  - now rewrite app_nil_r.
  - rewrite IH. unfold is_function.
    destruct (node_kind n); simpl; try reflexivity.
    now rewrite <- app_assoc.
Qed.

Lemma function_lengths_spec (tree : node) :
  function_lengths tree = map body_count (filter is_function (walk_nodes tree)).
Proof. unfold function_lengths. now rewrite function_lengths_loop. Qed.

Lemma function_lengths_perm (tree : node) :
  Permutation (function_lengths tree) (map body_count (functions tree)).
Proof.
  rewrite function_lengths_spec. apply Permutation_map.
  unfold functions.
  assert (H := walk_visits_all tree). revert H.
  generalize (walk_nodes tree) (descendants tree).
  induction 1; simpl.
  - constructor.
  - destruct (is_function x); [constructor|]; assumption.
  - destruct (is_function x), (is_function y); try constructor;
      apply Permutation_refl.
  - etransitivity; eassumption.
Qed.

Lemma list_sum_perm (xs ys : list nat) :
  Permutation xs ys -> list_sum xs = list_sum ys.
Proof. induction 1; simpl; lia. Qed.

Lemma list_sum_positive (xs : list nat) :
  xs <> [] -> Forall (fun x => 0 < x) xs -> 0 < list_sum xs.
Proof.
  destruct xs as [|x xs]; [congruence|].
  intros _ H. inversion H; subst. simpl. lia.
Qed.

Lemma mean_zero (xs : list nat) :
  xs <> [] -> Forall (fun x => 0 < x) xs -> ~ (mean xs == 0)%Q.
Proof.
  intros Hne Hpos Hz.
  assert (Hs := list_sum_positive xs Hne Hpos).
  assert (Hl : 0 < List.length xs) by (destruct xs; [congruence | simpl; lia]).
  unfold mean in Hz.
  apply Qmult_integral in Hz. destruct Hz as [Hz | Hz].
  - unfold Qeq in Hz. simpl in Hz. lia.
  - revert Hz. unfold Qinv, inject_Z, Qeq. simpl.
    destruct (Z.of_nat (List.length xs)) eqn:E; simpl; lia.
Qed.

(** C8: the average function length is the arithmetic mean, over all
    [FunctionDef] nodes of the tree, of the number of statements directly in
    the body; it is 0 exactly when the tree has no [FunctionDef] node.  The
    grammar gives every function body at least one statement, which is the
    hypothesis of the last part. *)
Theorem average_function_length_mean (tree : node) :
  (functions tree <> [] ->
   (calculate_average_function_length tree
    == mean (map body_count (functions tree)))%Q)
  /\ (functions tree = [] ->
      (calculate_average_function_length tree == 0)%Q)
  /\ (Forall (fun f => node_body f <> []) (functions tree) ->
      (calculate_average_function_length tree == 0)%Q ->
      functions tree = []).
Proof.
  assert (HP := function_lengths_perm tree).
  assert (HE : (calculate_average_function_length tree
                == mean (function_lengths tree))%Q
               \/ function_lengths tree = []
                  /\ calculate_average_function_length tree = 0%Q).
  { unfold calculate_average_function_length.
    destruct (function_lengths tree); [right; now split | left; reflexivity]. }
  assert (HM : (mean (function_lengths tree)
                == mean (map body_count (functions tree)))%Q).
  { unfold mean.
    now rewrite (list_sum_perm _ _ HP), (Permutation_length HP). }
  split; [|split].
  - intros Hne. destruct HE as [HE | [HE _]].
    + now rewrite HE.
    + rewrite HE in HP. apply Permutation_nil in HP.
      destruct (functions tree); [congruence | discriminate].
  - intros Hnil. unfold calculate_average_function_length.
    rewrite Hnil in HP. apply Permutation_sym, Permutation_nil in HP.
    now rewrite HP.
  - intros Hbody Hz.
    destruct (functions tree) as [|f fs] eqn:Ef; [reflexivity | exfalso].
    destruct HE as [HE | [HE _]].
    + rewrite HE, HM in Hz. revert Hz. apply mean_zero; [discriminate|].
      rewrite Forall_map. revert Hbody. apply Forall_impl.
      intros g Hg. unfold body_count. destruct (node_body g); [congruence|].
      simpl. lia.
    + rewrite HE in HP. apply Permutation_nil in HP. discriminate.
Qed.

Lemma average_function_length_mean_witness :
  (calculate_average_function_length foo_tree
   == mean (map body_count (functions foo_tree)))%Q
  /\ functions assignment_tree = [].
Proof.
  split.
  - apply (proj1 (average_function_length_mean foo_tree)). discriminate.
  - apply (proj2 (proj2 (average_function_length_mean assignment_tree))).
    + constructor.
    + reflexivity.
Defined.

(** ** Duplicate line detector *)

Lemma fold_left_collect {A B} (f : A -> list B) (g : list B -> A -> list B)
      (xs : list A) (acc : list B) :
  (forall acc x, g acc x = acc ++ f x) ->
  fold_left g xs acc = acc ++ flat_map f xs.
Proof.
  intros Hg. revert acc; induction xs as [|x xs IH]; intros acc; simpl.
  - now rewrite app_nil_r.
  - now rewrite IH, Hg, <- app_assoc.
Qed.

Lemma detect_repeated_code_rows (code : string) :
  detect_repeated_code code
  = flat_map (rows (Str.split_lines code)) (enumerate 0 (Str.split_lines code)).
Proof.
  unfold detect_repeated_code.
  rewrite (fold_left_collect (rows (Str.split_lines code))); [reflexivity|].
  intros acc [i line1]. unfold rows. cbn [fst snd].
  apply fold_left_collect. intros acc' [j line2]. unfold row. cbn [fst snd].
  destruct (similar line1 line2); [reflexivity | now rewrite app_nil_r].
Qed.

Lemma enumerate_In {A} (xs : list A) (s i : nat) (x : A) :
  In (i, x) (enumerate s xs) <-> s <= i /\ nth_error xs (i - s) = Some x.
Proof.
  revert s; induction xs as [|y xs IH]; intros s; simpl.
  - split; [tauto | intros [_ H]; destruct (i - s); discriminate].
  - rewrite IH. split.
    + intros [E | [Hle Hn]].
      * inversion E; subst. rewrite Nat.sub_diag. split; [lia | reflexivity].
      * split; [lia|]. replace (i - s) with (S (i - S s)) by lia. exact Hn.
    + intros [Hle Hn]. destruct (Nat.eq_dec s i) as [->|Hne].
      * rewrite Nat.sub_diag in Hn. simpl in Hn. left. congruence.
      * right. split; [lia|].
        replace (i - s) with (S (i - S s)) in Hn by lia. exact Hn.
Qed.

Lemma detect_repeated_code_In (code : string) (i j : nat) :
  In (i, j) (detect_repeated_code code)
  <-> i < j
      /\ exists line1 line2,
          nth_error (Str.split_lines code) i = Some line1
          /\ nth_error (Str.split_lines code) j = Some line2
          /\ similar line1 line2 = true.
Proof.
  rewrite detect_repeated_code_rows, in_flat_map. split.
  - intros [[i' line1] [Hi Hrow]]. unfold rows in Hrow. cbn [fst snd] in Hrow.
    apply in_flat_map in Hrow. destruct Hrow as [[j' line2] [Hj Hin]].
    unfold row in Hin. cbn [fst snd] in Hin.
    destruct (similar line1 line2) eqn:Hsim; [|contradiction].
    destruct Hin as [E | []]. inversion E; subst.
    apply enumerate_In in Hi. apply enumerate_In in Hj.
    destruct Hi as [_ Hi], Hj as [_ Hj].
    rewrite Nat.sub_0_r in Hi, Hj. rewrite nth_error_skipn in Hj.
    split; [lia|]. exists line1, line2.
    replace (j' + i + 1) with (i + 1 + j') by lia. auto.
  - intros [Hlt [line1 [line2 [Hi [Hj Hsim]]]]].
    exists (i, line1). split.
    + apply enumerate_In. rewrite Nat.sub_0_r. split; [lia | exact Hi].
    + unfold rows. cbn [fst snd]. apply in_flat_map.
      exists (j - i - 1, line2). split.
      * apply enumerate_In. rewrite Nat.sub_0_r, nth_error_skipn.
        split; [lia|]. now replace (i + 1 + (j - i - 1)) with j by lia.
      * unfold row. cbn [fst snd]. rewrite Hsim. left. f_equal. lia.
Qed.

Lemma sorted_app {A} (R : A -> A -> Prop) (l1 l2 : list A) :
  StronglySorted R l1 -> StronglySorted R l2 ->
  (forall x y, In x l1 -> In y l2 -> R x y) ->
  StronglySorted R (l1 ++ l2).
Proof.
  induction 1 as [|x l1 Hs IH Hx]; intros H2 Hcross; simpl; [assumption|].
  constructor.
  - apply IH; [assumption|]. intros; apply Hcross; simpl; auto.
  - apply Forall_app. split; [assumption|].
    apply Forall_forall. intros y Hy. apply Hcross; simpl; auto.
Qed.

Lemma row_sorted (i : nat) (line1 : string) (xs : list string) (s : nat) :
  StronglySorted pair_lt (flat_map (row i line1) (enumerate s xs))
  /\ forall x, In x (flat_map (row i line1) (enumerate s xs)) ->
               fst x = i /\ s + i + 1 <= snd x.
Proof.
  revert s; induction xs as [|y xs IH]; intros s; simpl.
  - split; [constructor | contradiction].
  - destruct (IH (S s)) as [Hs Hin]. unfold row at 1 3. cbn [fst snd].
    destruct (similar line1 y); simpl.
    + split.
      * constructor; [assumption|]. apply Forall_forall. intros x Hx.
        destruct (Hin x Hx) as [Hf Hsnd]. right. simpl. lia.
      * intros x [E | Hx]; [subst; simpl; lia|].
        destruct (Hin x Hx). lia.
    + split; [assumption|]. intros x Hx. destruct (Hin x Hx). lia.
Qed.

Lemma rows_sorted (lines xs : list string) (s : nat) :
  StronglySorted pair_lt (flat_map (rows lines) (enumerate s xs))
  /\ forall x, In x (flat_map (rows lines) (enumerate s xs)) -> s <= fst x.
Proof.
  revert s; induction xs as [|y xs IH]; intros s; simpl.
  - split; [constructor | contradiction].
  - destruct (IH (S s)) as [Hs Hin]. unfold rows at 1 3. cbn [fst snd].
    destruct (row_sorted s y (skipn (s + 1) lines) 0) as [Hr Hrin].
    split.
    + apply sorted_app; [assumption | assumption |].
      intros x z Hx Hz. left.
      destruct (Hrin x Hx) as [-> _]. apply (Hin z Hz).
    + intros x Hx. apply in_app_or in Hx. destruct Hx as [Hx | Hx].
      * destruct (Hrin x Hx). lia.
      * specialize (Hin x Hx). lia.
Qed.

(** C4: the detector splits the text at line feeds, blank lines kept (the
    lines joined by line feeds are the text again), and returns exactly the
    pairs [(i, j)], [i < j], of line indices whose similarity ratio exceeds
    0.8, with the outer index ascending and, for equal outer index, the
    inner index ascending; it returns [[(0, 1)]] on "abc\nabc" and nothing
    on "abc\nxyz". *)
Theorem detect_repeated_code_pairs :
  (forall code, Str.join_lines (Str.split_lines code) = code)
  /\ (forall code i j,
      In (i, j) (detect_repeated_code code)
      <-> i < j
          /\ exists line1 line2,
              nth_error (Str.split_lines code) i = Some line1
              /\ nth_error (Str.split_lines code) j = Some line2
              /\ (8 # 10 < similarity line1 line2)%Q)
  /\ (forall code, StronglySorted pair_lt (detect_repeated_code code))
  /\ detect_repeated_code abc_abc = [(0, 1)]
  /\ detect_repeated_code abc_xyz = [].
Proof.
  split; [exact join_split_lines|].
  split; [|split; [|split]].
  - intros code i j. rewrite detect_repeated_code_In.
    assert (Hsim : forall l1 l2,
               similar l1 l2 = true <-> (8 # 10 < similarity l1 l2)%Q).
    { intros l1 l2. unfold similar. rewrite negb_true_iff.
      rewrite <- not_true_iff_false, Qle_bool_iff. split.
      - apply Qnot_le_lt.
      - apply Qlt_not_le. }
    split; intros [Hlt [l1 [l2 [H1 [H2 H3]]]]]; (split; [exact Hlt|]);
      exists l1, l2; repeat split; try assumption; now apply Hsim.
  - intros code. rewrite detect_repeated_code_rows. apply rows_sorted.
  - vm_compute. reflexivity.
  - vm_compute. reflexivity.
Qed.

(** The ratio of the library's own documentation. *)
Example ratio_abcd_bcde : (similarity "abcd" "bcde" == 75 # 100)%Q.
Proof. vm_compute. reflexivity. Qed.

Lemma similar_empty : similar "" "" = true.
Proof. vm_compute. reflexivity. Qed.

(** C10: when a text has two or more empty lines, every pair of distinct
    indices of empty lines is reported, the ratio of two empty strings
    being 1. *)
Theorem empty_lines_are_duplicates (code : string) (i j : nat) :
  i < j ->
  nth_error (Str.split_lines code) i = Some "" ->
  nth_error (Str.split_lines code) j = Some "" ->
  (similarity "" "" == 1)%Q /\ In (i, j) (detect_repeated_code code).
Proof.
  intros Hlt Hi Hj. split; [vm_compute; reflexivity|].
  apply detect_repeated_code_In. split; [exact Hlt|].
  exists "", "". auto using similar_empty.
Qed.

Lemma empty_lines_are_duplicates_witness :
  In (1, 2) (detect_repeated_code two_blank_lines).
Proof.
  apply (empty_lines_are_duplicates two_blank_lines 1 2);
    [lia | reflexivity | reflexivity].
Defined.

(** ** Node objects and assignment *)

Lemma node_induction (P : node -> Prop) :
  (forall k l front body back,
      Forall P front -> Forall P body -> Forall P back ->
      P (Node k l front body back)) ->
  forall n, P n.
Proof.
  intros H. fix IH 1. intros [k l front body back].
  apply H.
  - induction front as [|c cs IHcs]; constructor; [apply IH | exact IHcs].
  - induction body as [|c cs IHcs]; constructor; [apply IH | exact IHcs].
  - induction back as [|c cs IHcs]; constructor; [apply IH | exact IHcs].
Qed.

Lemma children_set_children (n : node) (cs : list node) :
  iter_child_nodes (set_children n cs) = cs.
Proof.
  destruct n as [k l f b t]. simpl.
  transitivity (firstn (List.length f) cs ++ skipn (List.length f) cs);
    [|apply firstn_skipn].
  f_equal.
  transitivity (firstn (List.length b) (skipn (List.length f) cs)
                  ++ skipn (List.length b) (skipn (List.length f) cs));
    [|apply firstn_skipn].
  f_equal. rewrite skipn_skipn. f_equal. lia.
Qed.

Lemma kind_set_children (n : node) (cs : list node) :
  node_kind (set_children n cs) = node_kind n.
Proof. now destruct n. Qed.

Lemma children_set_kind (k : kind) (n : node) :
  iter_child_nodes (set_kind k n) = iter_child_nodes n.
Proof. now destruct n. Qed.

Lemma replace_nth_same {A} (i : nat) (x y : A) (xs : list A) :
  nth_error xs i = Some y -> nth_error (replace_nth i x xs) i = Some x.
Proof.
  revert xs; induction i as [|i IH]; intros [|z xs]; simpl; try discriminate.
  - reflexivity.
  - apply IH.
Qed.

Lemma replace_nth_other {A} (i j : nat) (x : A) (xs : list A) :
  i <> j -> nth_error (replace_nth i x xs) j = nth_error xs j.
Proof.
  revert j xs; induction i as [|i IH]; intros [|j] [|z xs] Hne; simpl;
    try reflexivity; try congruence.
  apply IH. congruence.
Qed.

Lemma subtree_assign_same (k : kind) (p : path) (tree n : node) :
  subtree p tree = Some n -> subtree p (assign p k tree) = Some (set_kind k n).
Proof.
  revert tree; induction p as [|i p IH]; intros tree; simpl.
  - congruence.
  - destruct (nth_error (iter_child_nodes tree) i) as [c|] eqn:Ec; [|discriminate].
    intros Hs. simpl. rewrite children_set_children.
    rewrite (replace_nth_same _ _ _ _ Ec). now apply IH.
Qed.

Lemma kind_at_assign_same (k : kind) (p : path) (tree : node) :
  kind_at p tree <> None -> kind_at p (assign p k tree) = Some k.
Proof.
  unfold kind_at. destruct (subtree p tree) as [n|] eqn:E; [|simpl; congruence].
  intros _. rewrite (subtree_assign_same k _ _ _ E). now destruct n.
Qed.

Lemma kind_at_assign_other (k : kind) (p q : path) (tree : node) :
  q <> p -> kind_at q (assign p k tree) = kind_at q tree.
Proof.
  unfold kind_at. revert q tree; induction p as [|i p IH]; intros q tree Hne.
  - destruct q as [|j q]; [congruence|]. simpl.
    now rewrite children_set_kind.
  - simpl. destruct (nth_error (iter_child_nodes tree) i) as [c|] eqn:Ec;
      [|reflexivity].
    destruct q as [|j q]; simpl.
    + now rewrite kind_set_children.
    + rewrite children_set_children.
      destruct (Nat.eq_dec i j) as [->|Hij].
      * rewrite (replace_nth_same _ _ _ _ Ec), Ec. apply IH. congruence.
      * now rewrite (replace_nth_other _ _ _ _ Hij).
Qed.

Lemma children_shape (n : node) :
  iter_child_nodes (shape n) = map shape (iter_child_nodes n).
Proof. destruct n as [k l f b t]. simpl. now rewrite !map_app. Qed.

Lemma shape_set_kind (k : kind) (n : node) : shape (set_kind k n) = shape n.
Proof. now destruct n. Qed.

Lemma firstn_length_app {A} (xs ys : list A) :
  firstn (List.length xs) (xs ++ ys) = xs.
Proof. induction xs; simpl; [now destruct ys | now f_equal]. Qed.

Lemma skipn_length_app {A} (xs ys : list A) :
  skipn (List.length xs) (xs ++ ys) = ys.
Proof. induction xs; simpl; [reflexivity | assumption]. Qed.

Lemma shape_set_children (n : node) (cs : list node) :
  map shape cs = map shape (iter_child_nodes n) ->
  shape (set_children n cs) = shape n.
Proof.
  destruct n as [k l f b t]. simpl. intros H.
  rewrite !map_app in H. f_equal.
  - rewrite <- firstn_map, H, <- (length_map shape f).
    apply firstn_length_app.
  - rewrite <- firstn_map, <- skipn_map, H, <- (length_map shape f).
    rewrite skipn_length_app, <- (length_map shape b).
    apply firstn_length_app.
  - rewrite <- skipn_map, H, Nat.add_comm, <- skipn_skipn.
    rewrite <- (length_map shape f), skipn_length_app.
    rewrite <- (length_map shape b). apply skipn_length_app.
Qed.

Lemma map_shape_replace (i : nat) (x y : node) (xs : list node) :
  shape x = shape y -> nth_error xs i = Some y ->
  map shape (replace_nth i x xs) = map shape xs.
Proof.
  intros Hs. revert xs; induction i as [|i IH]; intros [|z xs]; simpl;
    try discriminate.
  - intros E. inversion E; subst. now rewrite Hs.
  - intros E. now rewrite IH.
Qed.

Lemma shape_assign (k : kind) (p : path) (tree : node) :
  shape (assign p k tree) = shape tree.
Proof.
  revert tree; induction p as [|i p IH]; intros tree; simpl.
  - apply shape_set_kind.
  - destruct (nth_error (iter_child_nodes tree) i) as [c|] eqn:Ec; [|reflexivity].
    apply shape_set_children. apply map_shape_replace with (y := c); auto.
Qed.

Lemma child_refs_shape (p : path) (n m : node) :
  shape n = shape m -> Forall2 same_ref (child_refs p n) (child_refs p m).
Proof.
  intros H. assert (Hc : map shape (iter_child_nodes n)
                         = map shape (iter_child_nodes m)).
  { now rewrite <- !children_shape, H. }
  unfold child_refs. revert Hc.
  generalize (iter_child_nodes n) (iter_child_nodes m) 0.
  induction l as [|x xs IH]; intros [|y ys] s E; simpl in *; try discriminate.
  - constructor.
  - inversion E. constructor; [split; simpl; auto | now apply IH].
Qed.

Lemma walk_todo_shape (fuel : nat) (todo1 todo2 : list (path * node)) :
  Forall2 same_ref todo1 todo2 ->
  map fst (walk_todo fuel todo1) = map fst (walk_todo fuel todo2).
Proof.
  revert todo1 todo2; induction fuel as [|fuel IH]; intros todo1 todo2 H.
  - reflexivity.
  - destruct H as [|[p n] [q m] r1 r2 [Hp Hs] Hr]; [reflexivity|].
    simpl in Hp, Hs. subst q. simpl. f_equal. apply IH.
    apply Forall2_app; [assumption | now apply child_refs_shape].
Qed.

Lemma walk_shape (t1 t2 : node) :
  shape t1 = shape t2 -> map fst (walk t1) = map fst (walk t2).
Proof.
  intros H. unfold walk.
  assert (F1 : walk_todo (size t1 + size t2) [([], t1)]
               = walk_todo (size t1) [([], t1)]).
  { rewrite walk_fuel; cbn [map snd]; rewrite forest_size_cons;
      unfold forest_size; simpl; [f_equal; lia | lia]. }
  assert (F2 : walk_todo (size t1 + size t2) [([], t2)]
               = walk_todo (size t2) [([], t2)]).
  { rewrite walk_fuel; cbn [map snd]; rewrite forest_size_cons;
      unfold forest_size; simpl; [f_equal; lia | lia]. }
  rewrite <- F1, <- F2. apply walk_todo_shape.
  constructor; [now split | constructor].
Qed.

(** Every reference handed out by the walk leads to the node it names. *)
Lemma subtree_app (p q : path) (tree : node) :
  subtree (p ++ q) tree
  = match subtree p tree with
    | Some n => subtree q n
    | None => None
    end.
Proof.
  revert tree; induction p as [|i p IH]; intros tree; simpl; [reflexivity|].
  destruct (nth_error (iter_child_nodes tree) i); [apply IH | reflexivity].
Qed.

Lemma child_refs_In (p q : path) (n c : node) :
  In (q, c) (child_refs p n) ->
  exists i, q = p ++ [i] /\ nth_error (iter_child_nodes n) i = Some c.
Proof.
  unfold child_refs. rewrite in_map_iff. intros [[i c'] [E Hin]].
  simpl in E. inversion E; subst. exists i. split; [reflexivity|].
  apply enumerate_In in Hin. now rewrite Nat.sub_0_r in Hin.
Qed.

Lemma walk_todo_valid (tree : node) (fuel : nat) (todo : list (path * node)) :
  (forall p n, In (p, n) todo -> subtree p tree = Some n) ->
  forall p n, In (p, n) (walk_todo fuel todo) -> subtree p tree = Some n.
Proof.
  revert todo; induction fuel as [|fuel IH]; intros todo Hv p n; simpl.
  - contradiction.
  - destruct todo as [|[q m] todo]; [contradiction|].
    intros [E | Hin].
    + inversion E; subst. apply Hv. now left.
    + revert Hin. apply IH. intros p' n' Hin'.
      apply in_app_or in Hin'. destruct Hin' as [Hin' | Hin'].
      * apply Hv. now right.
      * apply child_refs_In in Hin'. destruct Hin' as [i [-> Hi]].
        rewrite subtree_app, (Hv q m (or_introl eq_refl)). simpl.
        now rewrite Hi.
Qed.

Lemma walk_valid (tree : node) (p : path) (n : node) :
  In (p, n) (walk tree) -> subtree p tree = Some n.
Proof.
  apply walk_todo_valid. intros q m [E | []]. now inversion E.
Qed.

Lemma is_prefix_refl (p : path) : is_prefix p p.
Proof. exists []. now rewrite app_nil_r. Qed.

Lemma is_prefix_child (p q : path) (i : nat) :
  is_prefix q (p ++ [i]) -> q = p ++ [i] \/ is_prefix q p.
Proof.
  intros [r Hr]. destruct r as [|a r] using rev_ind.
  - left. now rewrite app_nil_r in Hr.
  - right. rewrite app_assoc in Hr. apply app_inj_tail in Hr.
    destruct Hr as [Hr _]. now exists r.
Qed.

Lemma child_not_prefix (p : path) (i : nat) : ~ is_prefix (p ++ [i]) p.
Proof.
  intros [r Hr]. apply (f_equal (@List.length nat)) in Hr.
  rewrite !length_app in Hr. simpl in Hr. lia.
Qed.

Lemma is_prefix_trans (p q r : path) :
  is_prefix p q -> is_prefix q r -> is_prefix p r.
Proof. intros [a ->] [b ->]. exists (a ++ b). now rewrite app_assoc. Qed.

Lemma unrelated_child (p x : path) (i : nat) :
  unrelated p x -> unrelated x (p ++ [i]).
Proof.
  intros [Hpx Hxp]. split.
  - intros H. apply is_prefix_child in H. destruct H as [-> | H].
    + apply Hpx. now exists [i].
    + now apply Hxp.
  - intros H. apply Hpx. apply is_prefix_trans with (p ++ [i]); [|exact H].
    now exists [i].
Qed.

Lemma antichain_app (xs ys : list path) :
  antichain xs -> antichain ys ->
  (forall x y, In x xs -> In y ys -> unrelated x y) ->
  antichain (xs ++ ys).
Proof.
  induction xs as [|x xs IH]; simpl; intros Hx Hy Hc; [assumption|].
  destruct Hx as [Hx1 Hx2]. split.
  - apply Forall_app. split; [assumption|].
    apply Forall_forall. intros y Hin. apply Hc; auto.
  - apply IH; auto.
Qed.

Lemma antichain_children (p : path) (s len : nat) :
  antichain (map (fun i => p ++ [i]) (seq s len)).
Proof.
  revert s; induction len as [|len IH]; intros s; simpl; [exact I|].
  split; [|apply IH].
  apply Forall_forall. intros q Hq. apply in_map_iff in Hq.
  destruct Hq as [j [<- Hj]]. apply in_seq in Hj.
  split; intros [r Hr]; rewrite <- app_assoc in Hr; apply app_inv_head in Hr;
    destruct r; inversion Hr; lia.
Qed.

Lemma child_refs_paths (p : path) (n : node) :
  map fst (child_refs p n)
  = map (fun i => p ++ [i]) (seq 0 (List.length (iter_child_nodes n))).
Proof.
  unfold child_refs. rewrite map_map. simpl.
  rewrite <- (enumerate_fst (iter_child_nodes n) 0). now rewrite map_map.
Qed.

Lemma walk_todo_paths (fuel : nat) (todo : list (path * node)) :
  antichain (map fst todo) ->
  NoDup (map fst (walk_todo fuel todo))
  /\ forall q, In q (map fst (walk_todo fuel todo)) ->
               exists p, In p (map fst todo) /\ is_prefix p q.
Proof.
  revert todo; induction fuel as [|fuel IH]; intros todo Ha.
  - split; [constructor | contradiction].
  - destruct todo as [|[p n] todo]; [split; [constructor | contradiction]|].
    cbn [map fst antichain] in Ha. destruct Ha as [Hp Ha].
    rewrite Forall_forall in Hp.
    destruct (IH (todo ++ child_refs p n)) as [Hnd Hpre].
    { rewrite map_app. apply antichain_app; [assumption| |].
      - rewrite child_refs_paths. apply antichain_children.
      - intros x y Hx Hy. rewrite child_refs_paths in Hy.
        apply in_map_iff in Hy. destruct Hy as [i [<- _]].
        apply unrelated_child. now apply Hp. }
    cbn [walk_todo map fst]. split.
    + constructor; [|assumption]. intros Hin.
      destruct (Hpre p Hin) as [x [Hx Hxp]].
      rewrite map_app in Hx. apply in_app_or in Hx. destruct Hx as [Hx | Hx].
      * now apply (Hp x Hx).
      * rewrite child_refs_paths in Hx. apply in_map_iff in Hx.
        destruct Hx as [i [<- _]]. now apply (child_not_prefix p i).
    + intros q [<- | Hq].
      * exists p. split; [now left | apply is_prefix_refl].
      * destruct (Hpre q Hq) as [x [Hx Hxq]].
        rewrite map_app in Hx. apply in_app_or in Hx. destruct Hx as [Hx | Hx].
        -- exists x. split; [now right | assumption].
        -- rewrite child_refs_paths in Hx. apply in_map_iff in Hx.
           destruct Hx as [i [<- _]]. exists p. split; [now left|].
           apply is_prefix_trans with (p ++ [i]); [now exists [i] | assumption].
Qed.

Lemma walk_NoDup (tree : node) : NoDup (map fst (walk tree)).
Proof. apply walk_todo_paths. simpl. auto. Qed.

(** ** Case of strings *)

Ltac each_char c :=
  destruct c as [[] [] [] [] [] [] [] []]; vm_compute; reflexivity.

Lemma char_lower_not_upper (c : ascii) :
  Str.char_isupper (Str.char_lower c) = false.
Proof. each_char c. Qed.

Lemma char_lower_islower (c : ascii) :
  Str.char_islower (Str.char_lower c) = Str.char_isupper c || Str.char_islower c.
Proof. each_char c. Qed.

Lemma char_lower_ident_start (c : ascii) :
  ident_start (Str.char_lower c) = ident_start c.
Proof. each_char c. Qed.

Lemma char_lower_ident_char (c : ascii) :
  ident_char (Str.char_lower c) = ident_char c.
Proof. each_char c. Qed.

Lemma char_lower_LF (c : ascii) :
  Ascii.eqb (Str.char_lower c) Str.LF = Ascii.eqb c Str.LF.
Proof. each_char c. Qed.

Lemma char_not_both (c : ascii) :
  Str.char_isupper c && Str.char_islower c = false.
Proof. each_char c. Qed.

Lemma islower_from_spec (cased : bool) (s : string) :
  Str.islower_from cased s = negb (has_upper s) && (cased || has_lower s).
Proof.
  revert cased; induction s as [|c s IH]; intros cased; simpl.
  - now rewrite orb_false_r.
  - destruct (Str.char_isupper c); simpl; [reflexivity|].
    now rewrite IH, orb_assoc.
Qed.

Lemma islower_spec (s : string) :
  Str.islower s = negb (has_upper s) && has_lower s.
Proof. apply islower_from_spec. Qed.

Lemma isupper_from_spec (cased : bool) (s : string) :
  Str.isupper_from cased s = negb (has_lower s) && (cased || has_upper s).
Proof.
  revert cased; induction s as [|c s IH]; intros cased; simpl.
  - now rewrite orb_false_r.
  - destruct (Str.char_islower c); simpl; [reflexivity|].
    now rewrite IH, orb_assoc.
Qed.

Lemma isupper_spec (s : string) :
  Str.isupper s = negb (has_lower s) && has_upper s.
Proof. apply isupper_from_spec. Qed.

Lemma lower_has_upper (s : string) : has_upper (Str.lower s) = false.
Proof.
  induction s as [|c s IH]; simpl; [reflexivity|].
  now rewrite char_lower_not_upper, IH.
Qed.

Lemma lower_has_lower (s : string) : has_lower (Str.lower s) = has_cased s.
Proof.
  unfold has_cased. induction s as [|c s IH]; simpl; [reflexivity|].
  rewrite char_lower_islower, IH.
  destruct (Str.char_isupper c), (Str.char_islower c), (has_upper s);
    reflexivity.
Qed.

Lemma lower_islower (s : string) : Str.islower (Str.lower s) = has_cased s.
Proof. now rewrite islower_spec, lower_has_upper, lower_has_lower. Qed.

Lemma lower_isupper (s : string) : Str.isupper (Str.lower s) = false.
Proof. rewrite isupper_spec, lower_has_upper. apply andb_false_r. Qed.

Lemma lower_fixed (s : string) : has_upper s = false -> Str.lower s = s.
Proof.
  induction s as [|c s IH]; simpl; [reflexivity|].
  intros H. apply orb_false_iff in H. destruct H as [Hc Hs].
  unfold Str.char_lower. now rewrite Hc, IH.
Qed.

Lemma lower_ident_tail (s : string) : ident_tail (Str.lower s) = ident_tail s.
Proof.
  induction s as [|c s IH]; simpl; [reflexivity|].
  rewrite char_lower_ident_char, char_lower_LF, IH.
  now destruct s.
Qed.

Lemma lower_re_match (s : string) :
  re_match_identifier (Str.lower s) = re_match_identifier s.
Proof.
  destruct s as [|c s]; simpl; [reflexivity|].
  now rewrite char_lower_ident_start, lower_ident_tail.
Qed.

Lemma append_length (a b : string) :
  String.length (a ++ b) = String.length a + String.length b.
Proof. induction a; simpl; [reflexivity | now f_equal]. Qed.

Lemma append_inj_l (a b s : string) : (a ++ s = b ++ s)%string -> a = b.
Proof.
  revert b; induction a as [|c a IH]; intros [|d b] H; simpl in H.
  - reflexivity.
  - apply (f_equal String.length) in H. simpl in H.
    rewrite append_length in H. lia.
  - apply (f_equal String.length) in H. simpl in H.
    rewrite append_length in H. lia.
  - inversion H. f_equal. now apply IH.
Qed.

Lemma function_message_inj (a b : string) :
  function_message a = function_message b -> a = b.
Proof.
  unfold function_message. intros H. cbn [append] in H.
  do 15 (apply (f_equal (fun s => match s with
                                  | String _ r => r
                                  | EmptyString => EmptyString
                                  end)) in H; cbn beta iota in H).
  revert H. apply append_inj_l.
Qed.

(** ** Naming convention checker *)

Lemma flat_map_agree {A B} (f g : A -> list B) (xs : list A) :
  (forall x, In x xs -> f x = g x) -> flat_map f xs = flat_map g xs.
Proof.
  induction xs as [|x xs IH]; intros H; simpl; [reflexivity|].
  rewrite (H x (or_introl eq_refl)), IH; [reflexivity|].
  intros y Hy. apply H. now right.
Qed.

Section NamingFacts.

Context {code_object : Type} (compile : node -> syntax_error + code_object).

Lemma naming_body_step (st st1 : naming_state code_object) (p : path) :
  naming_body compile st p = inr st1 ->
  ns_violations st1 = ns_violations st ++ violations_at (ns_tree st) p
  /\ kind_at p (ns_tree st1) = option_map renamed (kind_at p (ns_tree st))
  /\ (forall q, q <> p -> kind_at q (ns_tree st1) = kind_at q (ns_tree st))
  /\ shape (ns_tree st1) = shape (ns_tree st).
Proof.
  unfold naming_body, violations_at, recompile. fold (kind_at p (ns_tree st)).
  destruct (kind_at p (ns_tree st)) as [k|] eqn:Ek.
  2:{ intros E; inversion E; subst. rewrite app_nil_r, Ek. auto. }
  assert (Hk : kind_at p (ns_tree st) <> None) by congruence.
  destruct k as [ |name|name|id| | | ]; simpl;
    try (intros E; inversion E; subst; rewrite app_nil_r, Ek; now auto).
  - destruct (Str.islower name); simpl.
    + intros E; inversion E; subst. rewrite app_nil_r, Ek. auto.
    + destruct (compile _); intros E; inversion E; subst; simpl.
      repeat split.
      * now apply kind_at_assign_same.
      * intros q Hq. now apply kind_at_assign_other.
      * apply shape_assign.
  - destruct (Str.isupper id); simpl.
    + destruct (compile _); intros E; inversion E; subst; simpl.
      repeat split.
      * now apply kind_at_assign_same.
      * intros q Hq. now apply kind_at_assign_other.
      * apply shape_assign.
    + destruct (re_match_identifier id); simpl;
        intros E; inversion E; subst; simpl; rewrite ?app_nil_r, Ek; auto.
Qed.

Lemma naming_loop (ps : list path) (st st' : naming_state code_object) :
  NoDup ps ->
  for_each (naming_body compile) ps st = inr st' ->
  ns_violations st'
  = ns_violations st ++ flat_map (violations_at (ns_tree st)) ps
  /\ (forall q, In q ps ->
                kind_at q (ns_tree st') = option_map renamed (kind_at q (ns_tree st)))
  /\ (forall q, ~ In q ps -> kind_at q (ns_tree st') = kind_at q (ns_tree st))
  /\ shape (ns_tree st') = shape (ns_tree st).
Proof.
  revert st; induction ps as [|p ps IH]; intros st Hnd; simpl.
  - intros E; inversion E; subst. rewrite app_nil_r. tauto.
  - destruct (naming_body compile st p) as [e|st1] eqn:Estep; simpl;
      [discriminate|].
    inversion Hnd as [|? ? Hnotin Hnd']; subst.
    intros Hrest. destruct (IH st1 Hnd' Hrest) as [Hv [Hin [Hout Hshape]]].
    destruct (naming_body_step _ _ _ Estep) as [Hv1 [Hp [Hq Hs1]]].
    assert (Hsame : forall q, In q ps ->
                              kind_at q (ns_tree st1) = kind_at q (ns_tree st)).
    { intros q Hqin. apply Hq. intros ->. contradiction. }
    repeat split.
    + rewrite Hv, Hv1, <- app_assoc. do 2 f_equal.
      apply flat_map_agree. intros q Hqin. unfold violations_at.
      now rewrite Hsame.
    + intros q [<- | Hqin].
      * now rewrite Hout, Hp.
      * now rewrite Hin, Hsame.
    + intros q Hnot. rewrite Hout by tauto. apply Hq. intros ->. tauto.
    + congruence.
Qed.

(** The violations come in the order of the walk, one visit after the
    other, and every visited node object ends up renamed. *)
Lemma violations_in_walk_order (tree : node) (st : naming_state code_object) :
  check_naming_conventions compile tree = inr st ->
  ns_violations st = flat_map (violations_at tree) (map fst (walk tree))
  /\ forall p, In p (map fst (walk tree)) ->
               kind_at p (ns_tree st) = option_map renamed (kind_at p tree).
Proof.
  intros Hrun.
  destruct (naming_loop _ _ _ (walk_NoDup tree) Hrun) as [Hv [Hin _]].
  now split.
Qed.

(** The checker fails only when [compile] does. *)
Lemma naming_body_returns (st : naming_state code_object) (p : path) :
  (forall t, exists c, compile t = inr c) ->
  exists st1, naming_body compile st p = inr st1.
Proof.
  intros Hc. unfold naming_body, recompile.
  destruct (option_map node_kind (subtree p (ns_tree st))) as [[ |name|name|id| | | ]|];
    try (eexists; reflexivity).
  - destruct (Str.islower name); simpl; [eexists; reflexivity|].
    destruct (Hc (assign p (ast_FunctionDef (Str.lower name)) (ns_tree st)))
      as [c ->]. eexists; reflexivity.
  - destruct (Str.isupper id); simpl.
    + destruct (Hc (assign p (ast_Name (Str.lower id)) (ns_tree st)))
        as [c ->]. eexists; reflexivity.
    + destruct (re_match_identifier id); eexists; reflexivity.
Qed.

Lemma check_naming_conventions_returns (tree : node) :
  (forall t, exists c, compile t = inr c) ->
  exists st, check_naming_conventions compile tree = inr st.
Proof.
  intros Hc. unfold check_naming_conventions.
  generalize (mk_naming_state tree [] (@None code_object)).
  induction (map fst (walk tree)) as [|p ps IH]; intros st; simpl.
  - eexists; reflexivity.
  - destruct (naming_body_returns st p Hc) as [st1 ->]. simpl. apply IH.
Qed.

Lemma naming_loop_silent (ps : list path) (st : naming_state code_object) :
  (forall p k, In p ps -> kind_at p (ns_tree st) = Some k -> in_order k = true) ->
  for_each (naming_body compile) ps st = inr st.
Proof.
  induction ps as [|p ps IH]; intros H; simpl; [reflexivity|].
  assert (E : naming_body compile st p = inr st).
  { unfold naming_body. fold (kind_at p (ns_tree st)).
    destruct (kind_at p (ns_tree st)) as [k|] eqn:Ek; [|reflexivity].
    specialize (H p k (or_introl eq_refl) Ek).
    destruct k; simpl in *; try reflexivity.
    - now rewrite H.
    - apply andb_true_iff in H. destruct H as [H1 H2].
      apply negb_true_iff in H1. now rewrite H1, H2. }
  rewrite E. simpl. apply IH. intros q k Hq. apply H. now right.
Qed.

End NamingFacts.

(** C2, counterexample: the function name "_" has no uppercase character,
    yet [islower] is false for it, so it is reported (and rewritten to
    itself). *)
Lemma uppercase_rule_fails_on_underscore : ~ uppercase_rule.
Proof.
  intros H.
  specialize (H snapshot underscore_tree
                (mk_naming_state underscore_tree [function_message "_"]
                                 (Some underscore_tree))
                [0] "_" eq_refl).
  assert (Hup : has_upper "_" = true).
  { apply H.
    - simpl. auto.
    - reflexivity.
    - split; [simpl; auto | reflexivity]. }
  discriminate Hup.
Qed.

Lemma violations_at_function (tree : node) (ps : list path) (name : string) :
  In (function_message name) (flat_map (violations_at tree) ps) ->
  Str.islower name = false.
Proof.
  rewrite in_flat_map. intros [p [_ Hin]]. unfold violations_at in Hin.
  destruct (kind_at p tree) as [[ |nm|nm|id| | | ]|]; simpl in Hin;
    try contradiction.
  - destruct (Str.islower nm) eqn:El; [contradiction|].
    destruct Hin as [E | []]. apply function_message_inj in E. now subst.
  - destruct (Str.isupper id); [destruct Hin as [E | []]; discriminate|].
    destruct (re_match_identifier id); [contradiction|].
    destruct Hin as [E | []]; discriminate.
Qed.

(** C2, amended: for every [FunctionDef] node the checker visits, the
    violation "Function name '<name>' should be in lowercase." is reported
    exactly when [name.islower()] is false, which it is for a name with an
    uppercase character and also for a name with no cased character at all,
    and the node's name is then its lowercase form; a name that is
    lowercase stays as it is.  The checker returns whenever [compile]
    does.  On the tree of
    [def Foo(): pass] the violations are exactly that one message, the
    name becomes "foo" and the handle is the code object compiled from the
    renamed tree. *)
Theorem function_names_checked :
  (forall (code_object : Type) (compile : node -> syntax_error + code_object)
          tree st p name,
      check_naming_conventions compile tree = inr st ->
      In p (map fst (walk tree)) ->
      kind_at p tree = Some (ast_FunctionDef name) ->
      (In (function_message name) (ns_violations st)
       <-> Str.islower name = false)
      /\ kind_at p (ns_tree st)
         = Some (ast_FunctionDef
                   (if Str.islower name then name else Str.lower name)))
  /\ (forall name,
         has_upper name = true \/ has_cased name = false ->
         Str.islower name = false)
  /\ (forall (code_object : Type) (compile : node -> syntax_error + code_object)
             tree,
         (forall t, exists c, compile t = inr c) ->
         exists st, check_naming_conventions compile tree = inr st)
  /\ (forall (code_object : Type) (compile : node -> syntax_error + code_object),
         check_naming_conventions compile foo_tree
         = match compile foo_tree_renamed with
           | inl e => inl (SyntaxError e)
           | inr c => inr (mk_naming_state foo_tree_renamed
                             [function_message "Foo"] (Some c))
           end).
Proof.
  split; [|split; [|split]].
  - intros code_object compile tree st p name Hrun Hp Hk.
    destruct (naming_loop compile _ _ _ (walk_NoDup tree) Hrun)
      as [Hv [Hin _]].
    simpl in Hv, Hin. split.
    + rewrite Hv. split.
      * apply violations_at_function.
      * intros Hl. apply in_flat_map. exists p. split; [assumption|].
        unfold violations_at. rewrite Hk. simpl. rewrite Hl. now left.
    + rewrite (Hin p Hp), Hk. simpl. now destruct (Str.islower name).
  - intros name H.
    destruct (Str.islower name) eqn:El; [|reflexivity].
    rewrite islower_spec in El. unfold has_cased in H.
    destruct (has_upper name), (has_lower name); simpl in *;
      intuition congruence.
  - intros code_object compile tree. apply check_naming_conventions_returns.
  - intros code_object compile. unfold check_naming_conventions.
    change (map fst (walk foo_tree)) with [[]; [0]; [0; 0]; [0; 1]].
    cbn [for_each].
    change (naming_body compile (mk_naming_state foo_tree [] None) [])
      with (@inr exn _ (mk_naming_state foo_tree [] (@None code_object))).
    cbn [bind].
    change (naming_body compile (mk_naming_state foo_tree [] None) [0])
      with (recompile compile foo_tree_renamed [function_message "Foo"]).
    unfold recompile. destruct (compile foo_tree_renamed); reflexivity.
Qed.

Lemma function_names_checked_witness :
  ((In (function_message "Foo") [function_message "Foo"]
    <-> Str.islower "Foo" = false)
   /\ kind_at [0] foo_tree_renamed = Some (ast_FunctionDef "foo"))
  /\ Str.islower "_" = false.
Proof.
  split.
  - apply (proj1 function_names_checked node snapshot foo_tree
                 (mk_naming_state foo_tree_renamed [function_message "Foo"]
                                  (Some foo_tree_renamed))
                 [0] "Foo").
    + reflexivity.
    + simpl. auto.
    + reflexivity.
  - apply (proj1 (proj2 function_names_checked) "_"). right. reflexivity.
Defined.

(** C5, counterexample: a function named "_" is reported again by the
    second call, lowering the name having changed nothing. *)
Lemma second_check_reports_underscore : ~ second_check_always_silent.
Proof.
  intros H.
  specialize (H snapshot underscore_tree
                (mk_naming_state underscore_tree [function_message "_"]
                                 (Some underscore_tree))
                (mk_naming_state underscore_tree [function_message "_"]
                                 (Some underscore_tree))
                eq_refl eq_refl).
  discriminate H.
Qed.

Lemma renamed_in_order (k : kind) :
  well_named k = true -> in_order (renamed k) = true.
Proof.
  destruct k as [ |name|name|id| | | ]; simpl; try reflexivity.
  - intros H. destruct (Str.islower name) eqn:El; simpl.
    + exact El.
    + now rewrite lower_islower.
  - intros H. destruct (Str.isupper id) eqn:Eu; simpl.
    + now rewrite lower_isupper, lower_re_match.
    + now rewrite Eu, H.
Qed.

(** C5, amended: when every function name of the tree has a cased
    character and every identifier matches the pattern
    [[a-zA-Z_][a-zA-Z0-9_]*], a second call on the tree left by the first
    returns an empty violation list (and no code object, and changes
    nothing). *)
Theorem second_check_silent
        (code_object : Type) (compile : node -> syntax_error + code_object)
        (tree : node) (st1 : naming_state code_object) :
  (forall n, In n (descendants tree) -> well_named (node_kind n) = true) ->
  check_naming_conventions compile tree = inr st1 ->
  check_naming_conventions compile (ns_tree st1)
  = inr (mk_naming_state (ns_tree st1) [] None).
Proof.
  intros Hwell Hrun.
  destruct (naming_loop compile _ _ _ (walk_NoDup tree) Hrun)
    as [_ [Hin [_ Hshape]]].
  simpl in Hin, Hshape.
  unfold check_naming_conventions. rewrite (walk_shape _ _ Hshape).
  apply naming_loop_silent. simpl. intros p k Hp Hk.
  rewrite (Hin p Hp) in Hk.
  apply in_map_iff in Hp. destruct Hp as [[p' n] [Ep Hpn]]. simpl in Ep. subst p'.
  assert (Hsub := walk_valid _ _ _ Hpn).
  unfold kind_at in Hk. rewrite Hsub in Hk. simpl in Hk.
  inversion Hk; subst k. apply renamed_in_order. apply Hwell.
  apply (Permutation_in _ (walk_visits_all tree)).
  unfold walk_nodes. apply in_map_iff. now exists (p, n).
Qed.

Lemma second_check_silent_witness :
  check_naming_conventions snapshot foo_tree_renamed
  = inr (mk_naming_state foo_tree_renamed [] None).
Proof.
  apply (second_check_silent node snapshot foo_tree
           (mk_naming_state foo_tree_renamed [function_message "Foo"]
                            (Some foo_tree_renamed))).
  - simpl. intros n [<- | [<- | [<- | [<- | []]]]]; reflexivity.
  - reflexivity.
Defined.

(** ** Style recommender *)

Section StyleFacts.

Variable cleandoc : string -> string.
Variable ast_parse : string -> exn + node.

Lemma style_body_messages (code : string) (st st1 : style_state) (n : node) :
  style_body cleandoc code st n = inr st1 ->
  fst st1 = fst st ++ doc_message cleandoc code n.
Proof.
  destruct st as [recs text]. unfold style_body, doc_message, recommend_at_body,
    first_body_line.
  destruct (node_kind n); destruct (lacks_docstring cleandoc n);
    repeat match goal with
           | |- context [match ?x with _ => _ end] => destruct x
           end;
    intros E; inversion E; subst; simpl; now rewrite ?app_nil_r.
Qed.

Lemma style_loop_messages (code : string) (ns : list node) (st st' : style_state) :
  for_each (style_body cleandoc code) ns st = inr st' ->
  fst st' = fst st ++ flat_map (doc_message cleandoc code) ns.
Proof.
  revert st; induction ns as [|n ns IH]; intros st; simpl.
  - intros E; inversion E; subst. now rewrite app_nil_r.
  - destruct (style_body cleandoc code st n) as [e|st1] eqn:E1; simpl;
      [discriminate|].
    intros E. rewrite (IH _ E), (style_body_messages _ _ _ _ E1).
    now rewrite app_assoc.
Qed.

Lemma style_loop_plain (code : string) (ns : list node) (st : style_state) :
  Forall (fun n => plain (node_kind n) = true) ns ->
  for_each (style_body cleandoc code) ns st = inr st.
Proof.
  induction 1 as [|n ns Hn _ IH]; simpl; [reflexivity|].
  assert (E : style_body cleandoc code st n = inr st).
  { destruct st as [recs text]. unfold style_body.
    destruct (node_kind n); simpl in Hn; try discriminate; reflexivity. }
  rewrite E. exact IH.
Qed.

(** The first loop raises nothing but [IndexError] and [AttributeError]. *)
Lemma style_loop_errors (code : string) (ns : list node) (st : style_state)
      (e : exn) :
  for_each (style_body cleandoc code) ns st = inl e ->
  e = IndexError \/ e = AttributeError.
Proof.
  revert st; induction ns as [|n ns IH]; intros st; simpl; [discriminate|].
  destruct (style_body cleandoc code st n) as [e1|st1] eqn:E1; simpl.
  - intros E; inversion E; subst. clear IH. revert E1.
    destruct st as [recs text]. unfold style_body, recommend_at_body.
    destruct (node_kind n); destruct (lacks_docstring cleandoc n);
      repeat match goal with
             | |- context [match ?x with _ => _ end] => destruct x
             end;
      intros E1; inversion E1; auto.
  - apply IH.
Qed.

Lemma length_loop_messages (ils : list (nat * string)) (st : style_state) :
  exists more, fst (fold_left length_body ils st) = fst st ++ more.
Proof.
  revert st; induction ils as [|[i line] ils IH]; intros st; simpl.
  - exists []. now rewrite app_nil_r.
  - destruct (IH (length_body st (i, line))) as [more Hm]. rewrite Hm.
    destruct st as [recs text]. unfold length_body.
    destruct (line_length_limit <? String.length line); simpl.
    + eexists. now rewrite <- app_assoc.
    + now exists more.
Qed.

Lemma length_loop_short (ils : list (nat * string)) (st : style_state) :
  Forall (fun il => String.length (snd il) <= line_length_limit) ils ->
  fold_left length_body ils st = st.
Proof.
  induction 1 as [|[i line] ils Hl _ IH]; simpl; [reflexivity|].
  simpl in Hl. destruct st as [recs text]. unfold length_body at 2.
  apply Nat.ltb_ge in Hl. rewrite Hl. exact IH.
Qed.

Lemma recommendations_include (code : string) (tree : node) (r : style_report)
      (message : string) :
  ast_parse code = inr tree ->
  recommend_coding_style cleandoc ast_parse code = inr r ->
  In message (flat_map (doc_message cleandoc code) (walk_nodes tree)) ->
  In message (recommendations r).
Proof.
  intros Hp. unfold recommend_coding_style. rewrite Hp. simpl.
  destruct (for_each _ _ _) as [e|st] eqn:Eloop; simpl; [discriminate|].
  apply style_loop_messages in Eloop. simpl in Eloop.
  destruct (length_loop_messages (enumerate 1 (Str.split_lines code)) st)
    as [more Hmore].
  destruct (fold_left length_body _ st) as [recs text]. simpl in Hmore.
  intros E Hin.
  assert (Hrecs : In message recs).
  { rewrite Hmore, Eloop. apply in_or_app. now left. }
  destruct recs as [|r0 recs]; [contradiction|].
  inversion E; subst. exact Hrecs.
Qed.

(** The recommender returns when the parser does and every line number it
    looks up lies within the lines of the text. *)
Lemma style_body_returns (code : string) (st : style_state) (n : node) :
  (node_kind n <> ast_Module -> plain (node_kind n) = false ->
   lacks_docstring cleandoc n = true -> first_body_line code n <> None) ->
  exists st1, style_body cleandoc code st n = inr st1.
Proof.
  intros H. destruct st as [recs text].
  unfold style_body, recommend_at_body. unfold first_body_line in H.
  destruct (node_kind n) eqn:Ek; try (eexists; reflexivity).
  - destruct (lacks_docstring cleandoc n); [|eexists; reflexivity].
    destruct (Str.split_lines code) as [|l ls] eqn:Es;
      [now apply split_lines_nonempty in Es|].
    cbn. destruct (is_comment_line l); eexists; reflexivity.
  - destruct (lacks_docstring cleandoc n); [|eexists; reflexivity].
    specialize (H ltac:(discriminate) eq_refl eq_refl).
    destruct (node_body n) as [|first rest]; [congruence|].
    destruct (node_lineno first) as [l|]; [|congruence].
    destruct (Str.index _ _) as [line|]; [|congruence].
    destruct (is_comment_line line); eexists; reflexivity.
  - destruct (lacks_docstring cleandoc n); [|eexists; reflexivity].
    specialize (H ltac:(discriminate) eq_refl eq_refl).
    destruct (node_body n) as [|first rest]; [congruence|].
    destruct (node_lineno first) as [l|]; [|congruence].
    destruct (Str.index _ _) as [line|]; [|congruence].
    destruct (is_comment_line line); eexists; reflexivity.
Qed.

Lemma recommend_returns (code : string) (tree : node) :
  ast_parse code = inr tree ->
  (forall n, In n (descendants tree) ->
             node_kind n <> ast_Module -> plain (node_kind n) = false ->
             lacks_docstring cleandoc n = true ->
             first_body_line code n <> None) ->
  exists r, recommend_coding_style cleandoc ast_parse code = inr r.
Proof.
  intros Hp Hlines. unfold recommend_coding_style. rewrite Hp. cbn [bind].
  assert (Hloop : forall ns st,
             (forall n, In n ns -> In n (descendants tree)) ->
             exists st', for_each (style_body cleandoc code) ns st = inr st').
  { induction ns as [|n ns IH]; intros st Hns; cbn [for_each].
    - eexists; reflexivity.
    - destruct (style_body_returns code st n) as [st1 ->].
      + apply Hlines. apply Hns. now left.
      + cbn [bind]. apply IH. intros m Hm. apply Hns. now right. }
  destruct (Hloop (walk_nodes tree) ([], code)) as [st' ->].
  { intros n Hn. apply (Permutation_in _ (walk_visits_all tree) Hn). }
  cbn [bind]. destruct (fold_left _ _ _) as [recs text].
  destruct recs; eexists; reflexivity.
Qed.

End StyleFacts.

(** C3, counterexample.  For [def f():] followed by [    pass] the
    placeholder goes in at character offset 1 of the working copy, which
    then reads "#", "# Add comments here", " Add comments here",
    "def f():", "    pass": no placeholder line stands before "    pass".
    For the one-line module [def f(): pass] there are two recommendations,
    one for the module and one for the function. *)
Lemma style_rules_fail : ~ splice_rule /\ ~ one_line_rule.
Proof.
  split.
  - intros H.
    destruct (H no_cleaning sample_parser two_line_def two_line_def_tree
                (Node (ast_FunctionDef "f") (Some 1%Z) [arguments] [pass_at 2] [])
                "f" "    pass" _ eq_refl (or_intror (or_introl eq_refl))
                eq_refl eq_refl eq_refl eq_refl eq_refl)
      as [_ [i [H1 H2]]].
    vm_compute in H1, H2.
    do 5 (destruct i as [|i]; [discriminate|]). destruct i; discriminate.
  - intros H.
    destruct (H no_cleaning sample_parser one_line_def one_line_def_tree
                eq_refl eq_refl eq_refl eq_refl eq_refl) as [out Hout].
    vm_compute in Hout. discriminate.
Qed.

Lemma walk_nodes_root (tree : node) :
  exists rest,
    walk_nodes tree = tree :: rest
    /\ Permutation rest (flat_map descendants (iter_child_nodes tree)).
Proof.
  unfold walk_nodes, walk. rewrite size_children. cbn [walk_todo app map snd].
  eexists. split; [reflexivity|].
  rewrite <- (child_refs_nodes [] tree) at 2.
  apply walk_todo_nodes. now rewrite child_refs_nodes.
Qed.

(** C3, amended: for every [FunctionDef] or [ClassDef] node without a
    (non-empty) docstring whose first body statement starts on a source line
    that is not a comment line, the recommender, when it returns, has
    emitted "Consider adding comments to function '<name>'." (or "... to
    class '<name>'.").  For a one-line module of at most 79 characters that
    is not a comment, has no docstring and holds no function or class
    definition, it returns exactly the recommendation "Consider adding
    comments here." and the placeholder comment line followed by the
    original text.  Where the placeholder lands in a longer working copy is
    left open. *)
Theorem style_recommendations
        (cleandoc : string -> string)
        (ast_parse : string -> exn + node)
        (code : string) (tree : node) :
  ast_parse code = inr tree ->
  (forall n line r,
      In n (descendants tree) ->
      lacks_docstring cleandoc n = true ->
      first_body_line code n = Some line ->
      is_comment_line line = false ->
      recommend_coding_style cleandoc ast_parse code = inr r ->
      (forall name, node_kind n = ast_FunctionDef name ->
                    In (function_recommendation name) (recommendations r))
      /\ (forall name, node_kind n = ast_ClassDef name ->
                       In (class_recommendation name) (recommendations r)))
  /\ (node_kind tree = ast_Module ->
      lacks_docstring cleandoc tree = true ->
      Forall (fun n => plain (node_kind n) = true)
             (flat_map descendants (iter_child_nodes tree)) ->
      Str.split_lines code = [code] ->
      is_comment_line code = false ->
      String.length code <= 79 ->
      recommend_coding_style cleandoc ast_parse code
      = inr (mk_style_report
               [module_recommendation]
               (placeholder_line ++ String Str.LF code)
               ["Recommended coding style: "; module_recommendation])).
Proof.
  intros Hp. split.
  - intros n line r Hn Hdoc Hline Hc Hr.
    assert (Hvisit : In n (walk_nodes tree)).
    { apply (Permutation_in _ (Permutation_sym (walk_visits_all tree)) Hn). }
    split; intros name Hk;
      apply (recommendations_include cleandoc ast_parse code tree r _ Hp Hr);
      apply in_flat_map; exists n; (split; [exact Hvisit|]);
      unfold doc_message; rewrite Hdoc, Hk, Hline, Hc; now left.
  - intros Hk Hdoc Hplain Hone Hc Hlen.
    destruct (walk_nodes_root tree) as [rest [Hwalk Hperm]].
    unfold recommend_coding_style. rewrite Hp. cbn [bind].
    rewrite Hwalk. cbn [for_each].
    assert (Hroot : style_body cleandoc code ([], code) tree
                    = inr ([module_recommendation],
                           (placeholder_line ++ String Str.LF code)%string)).
    { unfold style_body. rewrite Hk, Hdoc, Hone. cbn. now rewrite Hc. }
    rewrite Hroot. cbn [bind].
    rewrite style_loop_plain.
    2:{ apply (Permutation_Forall (Permutation_sym Hperm)). exact Hplain. }
    cbn [bind]. rewrite Hone, length_loop_short; [reflexivity|].
    constructor; [exact Hlen | constructor].
Qed.

Lemma style_recommendations_witness :
  recommend_coding_style no_cleaning sample_parser assignment
  = inr (mk_style_report
           [module_recommendation]
           (placeholder_line ++ String Str.LF assignment)
           ["Recommended coding style: "; module_recommendation])
  /\ In (function_recommendation "f")
        [module_recommendation; function_recommendation "f"].
Proof.
  split.
  - apply (proj2 (style_recommendations no_cleaning sample_parser
                    assignment assignment_tree eq_refl)).
    + reflexivity.
    + reflexivity.
    + simpl. repeat constructor.
    + reflexivity.
    + reflexivity.
    + simpl. lia.
  - apply (proj1 (proj1 (style_recommendations no_cleaning sample_parser
                           two_line_def two_line_def_tree eq_refl)
                        (Node (ast_FunctionDef "f") (Some 1%Z) [arguments]
                              [pass_at 2] [])
                        "    pass"
                        (mk_style_report
                           [module_recommendation; function_recommendation "f"]
                           (Str.slice_to (placeholder_line ++ String Str.LF two_line_def) 1
                              ++ placeholder
                              ++ Str.slice_from (placeholder_line ++ String Str.LF two_line_def) 1)
                           ["Recommended coding style: "; module_recommendation;
                            "Recommended coding style: "; function_recommendation "f"])
                        (or_intror (or_introl eq_refl))
                        eq_refl eq_refl eq_refl eq_refl)).
    reflexivity.
Defined.

(** ** The whole analysis *)

(** C6, counterexample: [X; return] parses; the checker lowers [X] and
    recompiles the tree, and [compile] raises "'return' outside function",
    a [SyntaxError] for a text the parser accepted. *)
Lemma syntax_failure_without_parse_error : ~ syntax_failure_rule.
Proof.
  intros H.
  destruct (H no_cleaning sample_parser rejects_return stray_return)
    as [[Hparse _] _].
  destruct Hparse as [e He].
  - exists return_outside_function. reflexivity.
  - discriminate He.
Qed.

Section AnalysisFacts.

Variable cleandoc : string -> string.
Variable ast_parse : string -> exn + node.
Variable code_object : Type.
Variable compile : node -> syntax_error + code_object.

Lemma naming_body_lowers (st st1 : naming_state code_object) (p : path) :
  naming_body compile st p = inr st1 ->
  ns_tree st1 = lower_at (ns_tree st) p.
Proof.
  unfold naming_body, recompile, lower_at. fold (kind_at p (ns_tree st)).
  destruct (kind_at p (ns_tree st)) as [[ |name|name|id| | | ]|];
    try (intros E; inversion E; reflexivity).
  - cbn [rewrites renamed]. destruct (Str.islower name); cbn [negb].
    + intros E; inversion E; reflexivity.
    + destruct (compile _); intros E; inversion E; reflexivity.
  - cbn [rewrites renamed]. destruct (Str.isupper id).
    + destruct (compile _); intros E; inversion E; reflexivity.
    + destruct (re_match_identifier id); cbn [negb];
        intros E; inversion E; reflexivity.
Qed.

Lemma naming_body_raises (st : naming_state code_object) (p : path) (ex : exn) :
  naming_body compile st p = inl ex ->
  exists k e,
    kind_at p (ns_tree st) = Some k /\ rewrites k = true
    /\ compile (lower_at (ns_tree st) p) = inl e /\ ex = SyntaxError e.
Proof.
  unfold naming_body, recompile, lower_at. fold (kind_at p (ns_tree st)).
  destruct (kind_at p (ns_tree st)) as [[ |name|name|id| | | ]|];
    try discriminate.
  - cbn [rewrites renamed]. destruct (Str.islower name) eqn:El; cbn [negb];
      [discriminate|].
    destruct (compile _) as [e|c] eqn:Ec; [|discriminate].
    intros E; inversion E; subst.
    exists (ast_FunctionDef name), e. cbn [rewrites]. rewrite El. auto.
  - cbn [rewrites renamed]. destruct (Str.isupper id) eqn:Eu.
    + destruct (compile _) as [e|c] eqn:Ec; [|discriminate].
      intros E; inversion E; subst.
      exists (ast_Name id), e. cbn [rewrites]. rewrite Eu. auto.
    + destruct (re_match_identifier id); discriminate.
Qed.

Lemma lowered_snoc (done : list path) (p : path) (tree : node) :
  lowered (done ++ [p]) tree = lower_at (lowered done tree) p.
Proof. unfold lowered. now rewrite fold_left_app. Qed.

Lemma kind_at_lowered_other (done : list path) (p : path) (tree : node) :
  ~ In p done -> kind_at p (lowered done tree) = kind_at p tree.
Proof.
  unfold lowered. revert tree; induction done as [|q done IH]; intros tree Hin;
    cbn [fold_left]; [reflexivity|].
  rewrite IH by (intros H; apply Hin; now right).
  unfold lower_at. destruct (kind_at q tree) as [k|]; [|reflexivity].
  destruct (rewrites k); [|reflexivity].
  apply kind_at_assign_other. intros ->. apply Hin. now left.
Qed.

Lemma naming_loop_raises (ps : list path) (st : naming_state code_object)
      (ex : exn) :
  for_each (naming_body compile) ps st = inl ex ->
  exists before p after k e,
    ps = before ++ p :: after
    /\ kind_at p (lowered before (ns_tree st)) = Some k /\ rewrites k = true
    /\ compile (lowered (before ++ [p]) (ns_tree st)) = inl e
    /\ ex = SyntaxError e.
Proof.
  revert st; induction ps as [|p ps IH]; intros st; cbn [for_each];
    [discriminate|].
  destruct (naming_body compile st p) as [e1|st1] eqn:E1; cbn [bind].
  - intros E; inversion E; subst.
    destruct (naming_body_raises _ _ _ E1) as [k [e [Hk [Hr [Hc He]]]]].
    exists [], p, ps, k, e. repeat split; assumption.
  - intros E. destruct (IH _ E) as [before [q [after [k [e H]]]]].
    destruct H as [Hps [Hk [Hr [Hc He]]]].
    rewrite (naming_body_lowers _ _ _ E1) in Hk, Hc.
    exists (p :: before), q, after, k, e. subst ps. repeat split; assumption.
Qed.

Lemma naming_raises (tree : node) (ex : exn) :
  check_naming_conventions compile tree = inl ex ->
  exists before p after k e,
    map fst (walk tree) = before ++ p :: after
    /\ kind_at p tree = Some k /\ rewrites k = true
    /\ compile (lowered (before ++ [p]) tree) = inl e
    /\ ex = SyntaxError e.
Proof.
  unfold check_naming_conventions. intros E.
  destruct (naming_loop_raises _ _ _ E) as [before [p [after [k [e H]]]]].
  destruct H as [Hps [Hk [Hr [Hc He]]]]. cbn [ns_tree] in Hk, Hc.
  exists before, p, after, k, e. repeat split; try assumption.
  rewrite <- Hk. symmetry. apply kind_at_lowered_other.
  assert (Hnd := walk_NoDup tree). rewrite Hps in Hnd.
  apply NoDup_remove_2 in Hnd. intros H. apply Hnd, in_or_app. now left.
Qed.

Lemma recommend_errors (code : string) (tree : node) (ex : exn) :
  ast_parse code = inr tree ->
  recommend_coding_style cleandoc ast_parse code = inl ex ->
  ex = IndexError \/ ex = AttributeError.
Proof.
  intros Hp. unfold recommend_coding_style. rewrite Hp. cbn [bind].
  destruct (for_each _ _ _) as [e|st] eqn:Eloop; cbn [bind].
  - intros E; inversion E; subst. now apply style_loop_errors in Eloop.
  - destruct (fold_left _ _ _) as [recs text]. destruct recs; discriminate.
Qed.

(** C6, amended: when the parser rejects the text with a [SyntaxError],
    the analysis raises that [SyntaxError] unchanged, and the script reports
    it and exits with status 1; a [SyntaxError] out of the analysis is the
    parser's, or one raised by [compile] in the checker on the tree with the
    names visited so far lowered; the scorers, the structural analyser and
    the detector are total and give 0 or the empty list on the empty text,
    and the whole analysis of the empty text returns.  Any other exception
    of the parser comes out unchanged as well, and the script does not catch
    it.  What else the recommender may raise is left open. *)
Theorem syntax_failure_propagates (code : string) :
  (forall ex,
      ast_parse code = inl ex ->
      analyze_code cleandoc ast_parse compile code = inl ex)
  /\ (forall e,
         analyze_code cleandoc ast_parse compile code
         = inl (SyntaxError e) ->
         guarded_analysis cleandoc ast_parse compile code
         = Exit [print_str "Invalid syntax in the provided code."; print_exc e] 1)
  /\ (forall ex,
         analyze_code cleandoc ast_parse compile code = inl ex ->
         (forall e, ex <> SyntaxError e) ->
         guarded_analysis cleandoc ast_parse compile code = Traceback ex)
  /\ (forall e,
         analyze_code cleandoc ast_parse compile code
         = inl (SyntaxError e) ->
         ast_parse code = inl (SyntaxError e)
         \/ exists tree before p after k,
              ast_parse code = inr tree
              /\ map fst (walk tree) = before ++ p :: after
              /\ kind_at p tree = Some k /\ rewrites k = true
              /\ compile (lowered (before ++ [p]) tree) = inl e)
  /\ (analyze_code_complexity "" = 0%Z
      /\ analyze_code_quality "" = 0%Z
      /\ detect_repeated_code "" = []
      /\ (calculate_average_function_length (module_of []) == 0)%Q)
  /\ (ast_parse "" = inr (module_of []) ->
      analyze_code cleandoc ast_parse compile ""
      = inr (mk_analysis 0 0 0 ([], None)
               (mk_style_report
                  [module_recommendation]
                  (placeholder_line ++ String Str.LF "")
                  ["Recommended coding style: "; module_recommendation]))).
Proof.
  split; [|split; [|split; [|split; [|split]]]].
  - intros ex He. unfold analyze_code. now rewrite He.
  - intros e Ha. unfold guarded_analysis. now rewrite Ha.
  - intros ex Ha Hne. unfold guarded_analysis. rewrite Ha.
    destruct ex; try reflexivity. now elim (Hne e).
  - intros e. unfold analyze_code.
    destruct (ast_parse code) as [e0|tree] eqn:Hp; cbn [bind].
    + intros E; inversion E; subst. now left.
    + destruct (check_naming_conventions compile tree) as [ex|ns] eqn:Hn;
        cbn [bind].
      * intros E; inversion E; subst.
        destruct (naming_raises _ _ Hn) as [before [p [after [k [e' H]]]]].
        destruct H as [Hps [Hk [Hr [Hc He']]]]. inversion He'; subst.
        right. exists tree, before, p, after, k. auto.
      * destruct (recommend_coding_style cleandoc ast_parse code)
          as [ex|rs] eqn:Hr; cbn [bind]; [|discriminate].
        intros E; inversion E; subst.
        destruct (recommend_errors _ _ _ Hp Hr); discriminate.
  - repeat split; reflexivity.
  - intros Hp. unfold analyze_code, recommend_coding_style.
    rewrite Hp. reflexivity.
Qed.

End AnalysisFacts.

(** A slip the amended C6 leaves open: line numbers count carriage
    returns, [split("\n")] does not, and indexing the lines raises
    [IndexError], which the script does not catch. *)
Example carriage_return_index_error :
  sample_parser carriage_return_def = inr two_line_def_tree
  /\ analyze_code no_cleaning sample_parser snapshot carriage_return_def
     = inl IndexError
  /\ guarded_analysis no_cleaning sample_parser snapshot carriage_return_def
     = Traceback IndexError.
Proof. repeat split. Qed.

(** A second slip: the parser of Python 3.11 raises [ValueError], not
    [SyntaxError], for a text with a NUL character, and the script does not
    catch it. *)
Example nul_character_value_error :
  sample_parser nul_text = inl ValueError
  /\ analyze_code no_cleaning sample_parser snapshot nul_text = inl ValueError
  /\ guarded_analysis no_cleaning sample_parser snapshot nul_text
     = Traceback ValueError.
Proof. repeat split. Qed.

Lemma syntax_failure_propagates_witness :
  analyze_code no_cleaning sample_parser snapshot lone_def
  = inl (SyntaxError lone_def_error)
  /\ guarded_analysis no_cleaning sample_parser snapshot lone_def
     = Exit [print_str "Invalid syntax in the provided code.";
             print_exc lone_def_error] 1
  /\ guarded_analysis no_cleaning sample_parser snapshot nul_text
     = Traceback ValueError
  /\ (sample_parser stray_return = inl (SyntaxError return_outside_function)
      \/ exists tree before p after k,
           sample_parser stray_return = inr tree
           /\ map fst (walk tree) = before ++ p :: after
           /\ kind_at p tree = Some k /\ rewrites k = true
           /\ rejects_return (lowered (before ++ [p]) tree)
              = inl return_outside_function).
Proof.
  split; [|split; [|split]].
  - apply (proj1 (syntax_failure_propagates no_cleaning sample_parser node
                    snapshot lone_def)).
    reflexivity.
  - apply (proj1 (proj2 (syntax_failure_propagates no_cleaning sample_parser
                           node snapshot lone_def))).
    reflexivity.
  - apply (proj1 (proj2 (proj2 (syntax_failure_propagates
                                  no_cleaning sample_parser node snapshot
                                  nul_text)))).
    + reflexivity.
    + discriminate.
  - apply (proj1 (proj2 (proj2 (proj2 (syntax_failure_propagates
                                         no_cleaning sample_parser node
                                         rejects_return stray_return))))).
    reflexivity.
Defined.

(** ** The matcher stays inside its ranges and empties its queue *)

Module difflib_facts.
Import difflib.

Section Bounds.

Variables a b : list ascii.
Variables alo ahi blo bhi : nat.
Hypothesis Ha : alo <= ahi.
Hypothesis Hb : blo <= bhi.

Local Abbreviation inside := (difflib.inside alo ahi blo bhi).
Local Abbreviation runs_below := (difflib.runs_below alo blo).

Lemma scan_row_inside (i : nat) (j2len : dict) (js : list nat)
      (newj2len : dict) (best : Match) :
  alo <= i < ahi ->
  runs_below i j2len -> runs_below (S i) newj2len -> inside best ->
  runs_below (S i) (fst (scan_row i blo bhi j2len js newj2len best))
  /\ inside (snd (scan_row i blo bhi j2len js newj2len best)).
Proof.
  intros Hi Hold. revert newj2len best.
  induction js as [|j js IH]; intros newj2len best Hnew Hbest; simpl.
  - now split.
  - destruct (j <? blo) eqn:Ejb; [now apply IH|].
    destruct (bhi <=? j) eqn:Ejh; [now split|].
    apply Nat.ltb_ge in Ejb. apply Nat.leb_gt in Ejh.
    set (k := match j with 0 => 0 | S j' => dict_get j2len j' 0 end + 1).
    assert (Hk : 1 <= k /\ k <= S i - alo /\ k <= j + 1 - blo).
    { unfold k. destruct j as [|j'].
      - lia.
      - destruct (Hold j'). lia. }
    clearbody k.
    destruct best as [[besti bestj] bestsize].
    apply IH.
    + intros j0. cbn [dict_get]. destruct (j =? j0) eqn:Ej.
      * apply Nat.eqb_eq in Ej. subst j0. lia.
      * apply Hnew.
    + destruct (bestsize <? k); [|exact Hbest]. unfold difflib.inside. lia.
Qed.

Lemma scan_rows_inside : inside (scan_rows a b alo ahi blo bhi).
Proof.
  unfold scan_rows.
  assert (H : forall n s st,
             alo <= s -> s + n <= ahi ->
             runs_below s (fst st) -> inside (snd st) ->
             inside (snd (fold_left
                            (fun st i =>
                               let '(j2len, best) := st in
                               scan_row i blo bhi j2len (b2j_get b (item a i)) [] best)
                            (seq s n) st))).
  { induction n as [|n IH]; intros s [j2len best] Hs Hn Hd Hbest; simpl.
    - exact Hbest.
    - simpl in Hd, Hbest.
      destruct (scan_row_inside s j2len (b2j_get b (item a s)) [] best)
        as [Hd' Hb']; try assumption; try lia.
      { intros j. simpl. lia. }
      apply IH; try lia.
      + destruct (scan_row s blo bhi j2len _ [] best); exact Hd'.
      + destruct (scan_row s blo bhi j2len _ [] best); exact Hb'. }
  apply H; simpl; try lia.
  intros j. simpl. lia.
Qed.

Lemma extend_left_inside (junk : bool) (besti bestj bestsize : nat) :
  inside (besti, bestj, bestsize) ->
  inside (extend_left a b junk alo blo besti bestj bestsize).
Proof.
  revert bestj bestsize; induction besti as [|i IH]; intros bestj bestsize H;
    cbn [extend_left]; [exact H|].
  destruct bestj as [|j]; [exact H|].
  destruct ((alo <? S i) && (blo <? S j)
            && Bool.eqb (isbjunk (item b j)) junk
            && Ascii.eqb (item a i) (item b j)) eqn:E; [|exact H].
  repeat (apply andb_true_iff in E; destruct E as [E ?]).
  apply Nat.ltb_lt in E. apply IH. unfold difflib.inside in *.
  match goal with H0 : (blo <? S j) = true |- _ => apply Nat.ltb_lt in H0 end.
  lia.
Qed.

Lemma extend_right_inside (fuel : nat) (junk : bool) (besti bestj bestsize : nat) :
  inside (besti, bestj, bestsize) ->
  inside (extend_right a b fuel junk ahi bhi besti bestj bestsize).
Proof.
  revert bestsize; induction fuel as [|fuel IH]; intros bestsize H;
    cbn [extend_right]; [exact H|].
  destruct ((besti + bestsize <? ahi) && (bestj + bestsize <? bhi)
            && Bool.eqb (isbjunk (item b (bestj + bestsize))) junk
            && Ascii.eqb (item a (besti + bestsize)) (item b (bestj + bestsize)))
           eqn:E; [|exact H].
  repeat (apply andb_true_iff in E; destruct E as [E ?]).
  apply Nat.ltb_lt in E. apply IH. unfold difflib.inside in *.
  match goal with
  | H0 : (bestj + bestsize <? bhi) = true |- _ => apply Nat.ltb_lt in H0
  end.
  lia.
Qed.

Lemma find_longest_match_inside :
  inside (find_longest_match a b alo ahi blo bhi).
Proof.
  unfold find_longest_match.
  assert (H1 := scan_rows_inside).
  destruct (scan_rows a b alo ahi blo bhi) as [[i1 j1] k1].
  assert (H2 := extend_left_inside false i1 j1 k1 H1).
  destruct (extend_left a b false alo blo i1 j1 k1) as [[i2 j2] k2].
  assert (H3 := extend_right_inside (ahi - (i2 + k2)) false i2 j2 k2 H2).
  destruct (extend_right a b (ahi - (i2 + k2)) false ahi bhi i2 j2 k2)
    as [[i3 j3] k3].
  assert (H4 := extend_left_inside true i3 j3 k3 H3).
  destruct (extend_left a b true alo blo i3 j3 k3) as [[i4 j4] k4].
  now apply extend_right_inside.
Qed.

End Bounds.

Section Queue.

Variables a b : list ascii.

Lemma queue_weight_cons (r : range) (queue : list range) :
  queue_weight (r :: queue) = weight r + queue_weight queue.
Proof. reflexivity. Qed.

(** Fuel beyond the weight of the queue is never used: the loop of
    [get_matching_blocks] ends with an empty queue. *)
Lemma match_ranges_fuel (fuel1 fuel2 : nat) (queue : list range)
      (blocks : list Match) :
  Forall range_ok queue ->
  queue_weight queue <= fuel1 -> queue_weight queue <= fuel2 ->
  match_ranges a b fuel1 queue blocks = match_ranges a b fuel2 queue blocks.
Proof.
  revert fuel2 queue blocks.
  induction fuel1 as [|fuel1 IH]; intros fuel2 queue blocks Hok H1 H2.
  - destruct queue as [|[[[alo ahi] blo] bhi] queue].
    + now destruct fuel2.
    + rewrite queue_weight_cons in H1. unfold weight in H1. lia.
  - destruct queue as [|[[[alo ahi] blo] bhi] queue].
    + now destruct fuel2.
    + destruct fuel2 as [|fuel2];
        [rewrite queue_weight_cons in H2; unfold weight in H2; lia|].
      inversion Hok as [|? ? Hr Hrest]; subst.
      unfold range_ok in Hr. destruct Hr as [Hlo Hhi].
      assert (Hin := find_longest_match_inside a b alo ahi blo bhi Hlo Hhi).
      cbn [match_ranges].
      destruct (find_longest_match a b alo ahi blo bhi) as [[i j] k].
      unfold difflib.inside in Hin.
      rewrite queue_weight_cons in H1, H2. unfold weight in H1, H2.
      destruct (k =? 0) eqn:Ek.
      * apply IH; [assumption | lia | lia].
      * apply Nat.eqb_neq in Ek.
        destruct ((alo <? i) && (blo <? j)) eqn:E1;
          destruct ((i + k <? ahi) && (j + k <? bhi)) eqn:E2;
          apply IH;
          repeat match goal with
                 | |- Forall _ (_ :: _) => constructor
                 | |- range_ok _ => unfold range_ok; lia
                 | |- Forall _ _ => assumption
                 | |- queue_weight _ <= _ =>
                     rewrite ?queue_weight_cons; unfold weight; lia
                 end.
Qed.

Lemma get_matching_blocks_fuel (fuel : nat) :
  2 * List.length a + 1 <= fuel ->
  match_ranges a b fuel [(0, List.length a, 0, List.length b)] []
  = match_ranges a b (2 * List.length a + 1)
                 [(0, List.length a, 0, List.length b)] [].
Proof.
  intros H. apply match_ranges_fuel.
  - constructor; [unfold range_ok; lia | constructor].
  - unfold queue_weight. simpl. lia.
  - unfold queue_weight. simpl. lia.
Qed.

End Queue.

End difflib_facts.


(** * Further properties *)

(** ** Every node is reached, level by level *)

Lemma walk_todo_complete (fuel : nat) (todo : list (path * node)) :
  forest_size (map snd todo) <= fuel ->
  forall p n q m,
    In (p, n) todo -> subtree q n = Some m ->
    In (p ++ q, m) (walk_todo fuel todo).
Proof.
  revert todo; induction fuel as [|fuel IH]; intros todo Hle p n q m Hin Hq.
  - destruct todo as [|[p0 n0] todo]; [contradiction|].
    cbn [map snd] in Hle. rewrite forest_size_cons, size_children in Hle. lia.
  - destruct todo as [|[p0 n0] todo]; [contradiction|].
    cbn [map snd] in Hle. rewrite forest_size_cons, size_children in Hle.
    assert (Hs : forest_size (map snd (todo ++ child_refs p0 n0)) <= fuel).
    { rewrite map_app, forest_size_app, child_refs_nodes. lia. }
    cbn [walk_todo]. destruct Hin as [E | Hin].
    + inversion E; subst p0 n0. destruct q as [|i q].
      * simpl in Hq. inversion Hq; subst. rewrite app_nil_r. now left.
      * right. simpl in Hq.
        destruct (nth_error (iter_child_nodes n) i) as [c|] eqn:Ec;
          [|discriminate].
        replace (p ++ i :: q) with ((p ++ [i]) ++ q)
          by (now rewrite <- app_assoc).
        apply (IH _ Hs (p ++ [i]) c q m); [|exact Hq].
        apply in_or_app. right. unfold child_refs. apply in_map_iff.
        exists (i, c). split; [reflexivity|].
        apply enumerate_In. rewrite Nat.sub_0_r. split; [lia | exact Ec].
    + right. apply (IH _ Hs p n q m); [|exact Hq].
      apply in_or_app. now left.
Qed.

Lemma walk_complete (tree : node) (q : path) (m : node) :
  subtree q tree = Some m -> In (q, m) (walk tree).
Proof.
  intros H. unfold walk.
  apply (walk_todo_complete (size tree) [([], tree)] ltac:(cbn [map snd];
           rewrite forest_size_cons; unfold forest_size; simpl; lia)
           [] tree q m); [now left | exact H].
Qed.

Lemma walk_todo_extends (fuel : nat) (todo : list (path * node)) (q : path) :
  In q (map fst (walk_todo fuel todo)) ->
  exists p, In p (map fst todo) /\ is_prefix p q.
Proof.
  revert todo; induction fuel as [|fuel IH]; intros todo; [contradiction|].
  destruct todo as [|[p n] todo]; [contradiction|].
  cbn [walk_todo map fst]. intros [<- | Hq].
  - exists p. split; [now left | apply is_prefix_refl].
  - destruct (IH _ Hq) as [x [Hx Hxq]].
    rewrite map_app in Hx. apply in_app_or in Hx. destruct Hx as [Hx | Hx].
    + exists x. split; [now right | assumption].
    + rewrite child_refs_paths in Hx. apply in_map_iff in Hx.
      destruct Hx as [i [<- _]]. exists p. split; [now left|].
      apply is_prefix_trans with (p ++ [i]); [now exists [i] | assumption].
Qed.

Lemma is_prefix_length (p q : path) :
  is_prefix p q -> List.length p <= List.length q.
Proof. intros [r ->]. rewrite length_app. lia. Qed.

Lemma left_of_app_same (p a b : path) :
  left_of a b -> left_of (p ++ a) (p ++ b).
Proof. induction p as [|i p IH]; intros H; simpl; auto. Qed.

Lemma left_of_app (a b u v : path) :
  List.length a = List.length b -> left_of a b -> left_of (a ++ u) (b ++ v).
Proof.
  revert b; induction a as [|i a IH]; intros [|j b]; simpl;
    try contradiction; try discriminate.
  intros Hl [H | [-> H]]; [now left | right]. split; [reflexivity|].
  apply IH; [congruence | assumption].
Qed.

Lemma walk_order_prefix (p x q : path) :
  walk_order p x -> is_prefix x q -> walk_order p q.
Proof.
  intros H [r ->]. destruct r as [|i r]; [now rewrite app_nil_r|].
  left. rewrite length_app. simpl. destruct H as [H | [H _]]; lia.
Qed.

Lemma children_ordered (p : path) (start count : nat) :
  StronglySorted walk_order (map (fun i => p ++ [i]) (seq start count)).
Proof.
  revert start; induction count as [|count IH]; intros start; simpl;
    constructor; [apply IH|].
  apply Forall_forall. intros y Hy. apply in_map_iff in Hy.
  destruct Hy as [j [<- Hj]]. apply in_seq in Hj.
  right. split; [now rewrite !length_app|].
  apply left_of_app_same. simpl. left. lia.
Qed.

Lemma walk_todo_ordered (fuel : nat) (todo : list (path * node)) :
  ordered_queue (map fst todo) ->
  StronglySorted walk_order (map fst (walk_todo fuel todo)).
Proof.
  revert todo; induction fuel as [|fuel IH]; intros todo [Hs [Hw Hpar]];
    [constructor|].
  destruct todo as [|[p n] todo]; [constructor|].
  cbn [walk_todo map fst] in *.
  inversion Hs as [|? ? Hs' Hp]; subst.
  rewrite Forall_forall in Hp.
  assert (Hkids : forall x, In x (map fst (child_refs p n)) ->
                            exists i, x = p ++ [i]).
  { intros x Hx. rewrite child_refs_paths in Hx. apply in_map_iff in Hx.
    destruct Hx as [i [<- _]]. now exists i. }
  assert (Hlen : forall x, In x (map fst todo) ->
                           List.length x = List.length p
                           \/ List.length x = List.length p + 1).
  { intros x Hx.
    assert (H1 := Hw p x (or_introl eq_refl) (or_intror Hx)).
    destruct (Hp x Hx) as [H | [H _]]; lia. }
  assert (Hnext : ordered_queue (map fst (todo ++ child_refs p n))).
  { rewrite map_app. split; [|split].
    - apply sorted_app;
        [assumption | rewrite child_refs_paths; apply children_ordered |].
      intros x y Hx Hy. destruct (Hkids y Hy) as [i ->].
      destruct (Hlen x Hx) as [E | E].
      + left. rewrite length_app. simpl. lia.
      + right. split; [rewrite length_app; simpl; lia|].
        assert (Hx' : x = removelast x ++ [last x 0]).
        { apply app_removelast_last. intros ->. simpl in E. lia. }
        assert (Hl : List.length (removelast x) = List.length p).
        { apply (f_equal (@List.length nat)) in Hx'.
          rewrite length_app in Hx'. simpl in Hx'. lia. }
        rewrite Hx'. apply left_of_app; [exact Hl|].
        apply (Hpar p x); [now left | now right | exact E].
    - intros x y Hx Hy.
      assert (Hlow : forall z, In z (map fst todo ++ map fst (child_refs p n)) ->
                               List.length p <= List.length z
                               /\ List.length z <= List.length p + 1).
      { intros z Hz. apply in_app_or in Hz. destruct Hz as [Hz | Hz].
        - destruct (Hlen z Hz); lia.
        - destruct (Hkids z Hz) as [i ->]. rewrite length_app. simpl. lia. }
      destruct (Hlow x Hx), (Hlow y Hy). lia.
    - intros x y Hx Hy E.
      apply in_app_or in Hx. apply in_app_or in Hy.
      destruct Hy as [Hy | Hy].
      + destruct Hx as [Hx | Hx].
        * apply (Hpar x y); [now right | now right | exact E].
        * destruct (Hkids x Hx) as [i ->]. rewrite length_app in E.
          simpl in E. destruct (Hlen y Hy); lia.
      + destruct (Hkids y Hy) as [j ->]. rewrite removelast_last.
        rewrite length_app in E. simpl in E.
        destruct Hx as [Hx | Hx].
        * destruct (Hp x Hx) as [H | [_ H]]; [lia | exact H].
        * destruct (Hkids x Hx) as [i ->]. rewrite length_app in E.
          simpl in E. lia. }
  constructor; [now apply IH|].
  apply Forall_forall. intros q Hq.
  destruct (walk_todo_extends _ _ _ Hq) as [x [Hx Hxq]].
  rewrite map_app in Hx. apply in_app_or in Hx. destruct Hx as [Hx | Hx].
  - apply walk_order_prefix with x; [apply Hp, Hx | exact Hxq].
  - destruct (Hkids x Hx) as [i ->]. left.
    apply is_prefix_length in Hxq. rewrite length_app in Hxq. simpl in Hxq. lia.
Qed.

Lemma walk_ordered (tree : node) :
  StronglySorted walk_order (map fst (walk tree)).
Proof.
  apply walk_todo_ordered. split; [|split].
  - repeat constructor.
  - simpl. intros x y [<- | []] [<- | []]. lia.
  - simpl. intros x y [<- | []] [<- | []]. simpl. lia.
Qed.

(** ** The naming checker changes names and nothing else *)

Lemma skeleton_set_kind (k : kind) (n : node) :
  skeleton (set_kind k n) = skeleton n.
Proof. now destruct n. Qed.

Lemma skeleton_set_children (n : node) (cs : list node) :
  map skeleton cs = map skeleton (iter_child_nodes n) ->
  skeleton (set_children n cs) = skeleton n.
Proof.
  destruct n as [k l f b t]. simpl. intros H.
  rewrite !map_app in H. f_equal.
  - rewrite <- firstn_map, H, <- (length_map skeleton f).
    apply firstn_length_app.
  - rewrite <- firstn_map, <- skipn_map, H, <- (length_map skeleton f).
    rewrite skipn_length_app, <- (length_map skeleton b).
    apply firstn_length_app.
  - rewrite <- skipn_map, H, Nat.add_comm, <- skipn_skipn.
    rewrite <- (length_map skeleton f), skipn_length_app.
    rewrite <- (length_map skeleton b). apply skipn_length_app.
Qed.

Lemma map_skeleton_replace (i : nat) (x y : node) (xs : list node) :
  skeleton x = skeleton y -> nth_error xs i = Some y ->
  map skeleton (replace_nth i x xs) = map skeleton xs.
Proof.
  intros Hs. revert xs; induction i as [|i IH]; intros [|z xs]; simpl;
    try discriminate.
  - intros E. inversion E; subst. now rewrite Hs.
  - intros E. now rewrite IH.
Qed.

Lemma skeleton_assign (k : kind) (p : path) (tree : node) :
  skeleton (assign p k tree) = skeleton tree.
Proof.
  revert tree; induction p as [|i p IH]; intros tree; simpl.
  - apply skeleton_set_kind.
  - destruct (nth_error (iter_child_nodes tree) i) as [c|] eqn:Ec; [|reflexivity].
    apply skeleton_set_children. apply map_skeleton_replace with (y := c); auto.
Qed.

Lemma skeleton_map_kinds (f : kind -> kind) (n : node) :
  skeleton (map_kinds f n) = skeleton n.
Proof.
  induction n as [k l front body back Hf Hb Ht] using node_induction.
  simpl. rewrite !map_map. f_equal; apply map_ext_Forall; assumption.
Qed.

Lemma children_map_kinds (f : kind -> kind) (n : node) :
  iter_child_nodes (map_kinds f n) = map (map_kinds f) (iter_child_nodes n).
Proof. destruct n as [k l a b c]. simpl. now rewrite !map_app. Qed.

Lemma kind_at_map_kinds (f : kind -> kind) (q : path) (n : node) :
  kind_at q (map_kinds f n) = option_map f (kind_at q n).
Proof.
  unfold kind_at. revert n; induction q as [|i q IH]; intros n.
  - now destruct n.
  - simpl. rewrite children_map_kinds, nth_error_map.
    destruct (nth_error (iter_child_nodes n) i); simpl; [apply IH | reflexivity].
Qed.

(** Two trees with one skeleton and the same record under every path are
    one tree. *)
Lemma children_ext (xs ys : list node) :
  Forall (fun x => forall y, skeleton x = skeleton y ->
                             (forall q, kind_at q x = kind_at q y) -> x = y) xs ->
  map skeleton xs = map skeleton ys ->
  (forall i q x y, nth_error xs i = Some x -> nth_error ys i = Some y ->
                   kind_at q x = kind_at q y) ->
  xs = ys.
Proof.
  intros H. revert ys. induction H as [|x xs Hx _ IH]; intros [|y ys] Hs Hk;
    simpl in Hs; try discriminate; [reflexivity|].
  inversion Hs. f_equal.
  - apply Hx; [assumption|]. intros q. now apply (Hk 0 q).
  - apply IH; [assumption|]. intros i q x' y'. apply (Hk (S i) q).
Qed.

Lemma tree_ext (t1 t2 : node) :
  skeleton t1 = skeleton t2 ->
  (forall q, kind_at q t1 = kind_at q t2) ->
  t1 = t2.
Proof.
  revert t2.
  induction t1 as [k1 l1 a1 b1 c1 Ha Hb Hc] using node_induction.
  intros [k2 l2 a2 b2 c2] Hs Hk. simpl in Hs. inversion Hs as [[Hl Ea Eb Ec]].
  assert (Ek : k1 = k2)
    by (specialize (Hk []); unfold kind_at in Hk; simpl in Hk; congruence).
  assert (Hchildren : a1 ++ b1 ++ c1 = a2 ++ b2 ++ c2).
  { apply children_ext.
    - repeat (apply Forall_app; split); assumption.
    - now rewrite !map_app, Ea, Eb, Ec.
    - intros i q x y Hx Hy. specialize (Hk (i :: q)). unfold kind_at in Hk.
      simpl in Hk. rewrite Hx, Hy in Hk. exact Hk. }
  assert (La : List.length a1 = List.length a2)
    by (rewrite <- (length_map skeleton a1), Ea; apply length_map).
  assert (Lb : List.length b1 = List.length b2)
    by (rewrite <- (length_map skeleton b1), Eb; apply length_map).
  assert (Ea' : a1 = a2).
  { rewrite <- (firstn_length_app a1 (b1 ++ c1)), Hchildren, La.
    apply firstn_length_app. }
  subst a2. apply app_inv_head in Hchildren.
  assert (Eb' : b1 = b2).
  { rewrite <- (firstn_length_app b1 c1), Hchildren, Lb.
    apply firstn_length_app. }
  subst b2. apply app_inv_head in Hchildren. now subst.
Qed.

Lemma renamed_idempotent (k : kind) : renamed (renamed k) = renamed k.
Proof.
  destruct k as [ |name|name|id| | | ]; simpl; try reflexivity.
  - destruct (Str.islower name) eqn:El; simpl; [now rewrite El|].
    rewrite lower_islower.
    destruct (has_cased name) eqn:Ec; [reflexivity|].
    rewrite (lower_fixed (Str.lower name)); [reflexivity|].
    apply lower_has_upper.
  - destruct (Str.isupper id) eqn:Eu; simpl; [|now rewrite Eu].
    now rewrite lower_isupper.
Qed.

Lemma renamed_fixed (k : kind) : rewrites k = false -> renamed k = k.
Proof.
  destruct k as [ |name|name|id| | | ]; simpl; try reflexivity.
  - intros H. apply negb_false_iff in H. now rewrite H.
  - intros H. now rewrite H.
Qed.

Lemma map_kinds_twice (f : kind -> kind) (n : node) :
  (forall k, f (f k) = f k) -> map_kinds f (map_kinds f n) = map_kinds f n.
Proof.
  intros Hf.
  induction n as [k l front body back Ha Hb Hc] using node_induction.
  simpl. rewrite Hf, !map_map. f_equal; apply map_ext_Forall; assumption.
Qed.

Lemma map_kinds_fixed (f : kind -> kind) (n : node) :
  Forall (fun m => f (node_kind m) = node_kind m) (descendants n) ->
  map_kinds f n = n.
Proof.
  induction n as [k l front body back Ha Hb Hc] using node_induction.
  intros H. cbn [descendants] in H. inversion H as [|? ? Hk Hrest]; subst.
  simpl in Hk. apply Forall_app in Hrest. destruct Hrest as [Hfa Hrest].
  apply Forall_app in Hrest. destruct Hrest as [Hfb Hfc].
  simpl. rewrite Hk.
  assert (Hlist : forall xs,
             Forall (fun n => Forall (fun m => f (node_kind m) = node_kind m)
                                     (descendants n) -> map_kinds f n = n) xs ->
             Forall (fun m => f (node_kind m) = node_kind m)
                    (flat_map descendants xs) ->
             map (map_kinds f) xs = xs).
  { induction 1 as [|x xs Hx _ IH]; simpl; intros Hall; [reflexivity|].
    apply Forall_app in Hall. destruct Hall. f_equal; auto. }
  now rewrite !Hlist.
Qed.

Section NamingMore.

Context {code_object : Type} (compile : node -> syntax_error + code_object).

Lemma naming_body_skeleton (st st1 : naming_state code_object) (p : path) :
  naming_body compile st p = inr st1 ->
  skeleton (ns_tree st1) = skeleton (ns_tree st).
Proof.
  unfold naming_body, recompile.
  destruct (option_map node_kind (subtree p (ns_tree st)))
    as [[ |name|name|id| | | ]|];
    try (intros E; inversion E; subst; reflexivity).
  - destruct (Str.islower name); simpl;
      [intros E; inversion E; subst; reflexivity|].
    destruct (compile _); intros E; inversion E; subst; simpl.
    apply skeleton_assign.
  - destruct (Str.isupper id); simpl.
    + destruct (compile _); intros E; inversion E; subst; simpl.
      apply skeleton_assign.
    + destruct (re_match_identifier id); simpl;
        intros E; inversion E; subst; reflexivity.
Qed.

Lemma naming_loop_skeleton (ps : list path) (st st' : naming_state code_object) :
  for_each (naming_body compile) ps st = inr st' ->
  skeleton (ns_tree st') = skeleton (ns_tree st).
Proof.
  revert st; induction ps as [|p ps IH]; intros st; simpl.
  - intros E; inversion E; subst. reflexivity.
  - destruct (naming_body compile st p) as [e|st1] eqn:E1; simpl; [discriminate|].
    intros E. rewrite (IH _ E). now apply naming_body_skeleton in E1.
Qed.

Lemma checked_tree (tree : node) (st : naming_state code_object) :
  check_naming_conventions compile tree = inr st ->
  ns_tree st = map_kinds renamed tree.
Proof.
  intros Hrun. apply tree_ext.
  - rewrite skeleton_map_kinds. apply (naming_loop_skeleton _ _ _ Hrun).
  - intros q. rewrite kind_at_map_kinds.
    destruct (naming_loop compile _ _ _ (walk_NoDup tree) Hrun)
      as [_ [Hin [Hout _]]].
    simpl in Hin, Hout.
    destruct (subtree q tree) as [m|] eqn:Eq.
    + apply Hin. apply in_map_iff. exists (q, m). split; [reflexivity|].
      now apply walk_complete.
    + assert (Hnot : ~ In q (map fst (walk tree))).
      { intros Hq. apply in_map_iff in Hq. destruct Hq as [[q' m] [E Hq]].
        simpl in E. subst q'. apply walk_valid in Hq. congruence. }
      rewrite (Hout q Hnot). unfold kind_at. now rewrite Eq.
Qed.

End NamingMore.

Lemma size_map_kinds (f : kind -> kind) (n : node) :
  size (map_kinds f n) = size n.
Proof.
  induction n as [k l front body back Ha Hb Hc] using node_induction.
  simpl. rewrite !map_map. do 2 f_equal; [f_equal|]; f_equal;
    apply map_ext_Forall; assumption.
Qed.

Lemma child_refs_map_kinds (f : kind -> kind) (p : path) (n : node) :
  child_refs p (map_kinds f n)
  = map (fun pn => (fst pn, map_kinds f (snd pn))) (child_refs p n).
Proof.
  unfold child_refs. rewrite children_map_kinds, map_map.
  generalize (iter_child_nodes n) 0.
  induction l as [|x xs IH]; intros s; simpl; [reflexivity|].
  now rewrite IH.
Qed.

Lemma walk_todo_map_kinds (f : kind -> kind) (fuel : nat)
      (todo : list (path * node)) :
  walk_todo fuel (map (fun pn => (fst pn, map_kinds f (snd pn))) todo)
  = map (fun pn => (fst pn, map_kinds f (snd pn))) (walk_todo fuel todo).
Proof.
  revert todo; induction fuel as [|fuel IH]; intros todo; [reflexivity|].
  destruct todo as [|[p n] todo]; [reflexivity|].
  cbn [map fst snd walk_todo]. f_equal.
  rewrite child_refs_map_kinds, <- map_app. apply IH.
Qed.

Lemma walk_nodes_map_kinds (f : kind -> kind) (tree : node) :
  walk_nodes (map_kinds f tree) = map (map_kinds f) (walk_nodes tree).
Proof.
  unfold walk_nodes, walk. rewrite size_map_kinds.
  change [([], map_kinds f tree)]
    with (map (fun pn : path * node => (fst pn, map_kinds f (snd pn)))
              [([], tree)]).
  rewrite walk_todo_map_kinds, !map_map. reflexivity.
Qed.

Lemma kind_map_kinds (f : kind -> kind) (n : node) :
  node_kind (map_kinds f n) = f (node_kind n).
Proof. now destruct n. Qed.

Section NamingReports.

Context {code_object : Type} (compile : node -> syntax_error + code_object).

Lemma violations_by_node (tree : node) (refs : list (path * node)) :
  (forall p n, In (p, n) refs -> subtree p tree = Some n) ->
  flat_map (violations_at tree) (map fst refs)
  = flat_map (fun n => violation_of (node_kind n)) (map snd refs).
Proof.
  induction refs as [|[p n] refs IH]; intros Hv; simpl; [reflexivity|].
  rewrite IH by (intros q m Hq; apply Hv; now right).
  unfold violations_at at 1, kind_at. now rewrite (Hv p n (or_introl eq_refl)).
Qed.

Lemma checked_violations (tree : node) (st : naming_state code_object) :
  check_naming_conventions compile tree = inr st ->
  ns_violations st
  = flat_map (fun n => violation_of (node_kind n)) (walk_nodes tree).
Proof.
  intros Hrun.
  destruct (naming_loop compile _ _ _ (walk_NoDup tree) Hrun) as [Hv _].
  simpl in Hv. rewrite Hv. apply violations_by_node. apply walk_valid.
Qed.

Lemma naming_body_handle (st st1 : naming_state code_object) (p : path) :
  naming_body compile st p = inr st1 ->
  (handle_current compile st -> handle_current compile st1)
  /\ (ns_modified_code st1 = None ->
      ns_modified_code st = None
      /\ ns_tree st1 = ns_tree st
      /\ forall k, kind_at p (ns_tree st) = Some k -> rewrites k = false).
Proof.
  unfold naming_body, recompile, handle_current.
  fold (kind_at p (ns_tree st)).
  destruct (kind_at p (ns_tree st)) as [[ |name|name|id| | | ]|];
    try (intros E; inversion E; subst; split;
         [tauto | intros H; repeat split; auto; intros k Hk; now inversion Hk]).
  - destruct (Str.islower name) eqn:El; simpl.
    + intros E; inversion E; subst. split; [tauto|].
      intros H. repeat split; auto. intros k Hk. inversion Hk; subst.
      simpl. now rewrite El.
    + destruct (compile _) as [e|c] eqn:Ec; intros E; inversion E; subst.
      simpl. split; [|discriminate].
      intros _ c' Hc'. inversion Hc'; subst. exact Ec.
  - destruct (Str.isupper id) eqn:Eu; simpl.
    + destruct (compile _) as [e|c] eqn:Ec; intros E; inversion E; subst.
      simpl. split; [|discriminate].
      intros _ c' Hc'. inversion Hc'; subst. exact Ec.
    + destruct (re_match_identifier id); simpl;
        intros E; inversion E; subst; simpl; (split; [tauto|]);
        intros H; repeat split; auto; intros k Hk; inversion Hk; subst;
        exact Eu.
Qed.

Lemma naming_loop_handle (ps : list path) (st st' : naming_state code_object) :
  for_each (naming_body compile) ps st = inr st' ->
  (handle_current compile st -> handle_current compile st')
  /\ (ns_modified_code st' = None ->
      ns_modified_code st = None
      /\ ns_tree st' = ns_tree st
      /\ forall p k, In p ps -> kind_at p (ns_tree st) = Some k ->
                     rewrites k = false).
Proof.
  revert st; induction ps as [|p ps IH]; intros st; simpl.
  - intros E; inversion E; subst. split; [tauto|]. intros H.
    repeat split; auto. intros p k [].
  - destruct (naming_body compile st p) as [e|st1] eqn:E1; simpl; [discriminate|].
    intros E. destruct (IH _ E) as [Hcur Hnone].
    destruct (naming_body_handle _ _ _ E1) as [Hcur1 Hnone1].
    split; [tauto|]. intros H.
    destruct (Hnone H) as [H1 [Ht Hk]]. destruct (Hnone1 H1) as [H0 [Ht0 Hk0]].
    repeat split; [assumption | congruence |].
    intros q k [<- | Hq] Hkq; [now apply Hk0|].
    apply (Hk q k Hq). now rewrite Ht0.
Qed.

Lemma naming_body_quiet (st : naming_state code_object) (p : path) :
  (forall k, kind_at p (ns_tree st) = Some k -> rewrites k = false) ->
  exists st1, naming_body compile st p = inr st1
              /\ ns_tree st1 = ns_tree st
              /\ ns_modified_code st1 = ns_modified_code st.
Proof.
  unfold naming_body. fold (kind_at p (ns_tree st)). intros H.
  destruct (kind_at p (ns_tree st)) as [[ |name|name|id| | | ]|];
    try (eexists; repeat split; reflexivity).
  - specialize (H _ eq_refl). simpl in H. apply negb_false_iff in H.
    rewrite H. eexists; repeat split; reflexivity.
  - specialize (H _ eq_refl). simpl in H. rewrite H.
    destruct (re_match_identifier id); eexists; repeat split; reflexivity.
Qed.

Lemma naming_loop_quiet (ps : list path) (st : naming_state code_object) :
  (forall p k, In p ps -> kind_at p (ns_tree st) = Some k -> rewrites k = false) ->
  exists st', for_each (naming_body compile) ps st = inr st'
              /\ ns_tree st' = ns_tree st
              /\ ns_modified_code st' = ns_modified_code st.
Proof.
  revert st; induction ps as [|p ps IH]; intros st H; simpl.
  - eexists; repeat split; reflexivity.
  - destruct (naming_body_quiet st p) as [st1 [E1 [Ht1 Hm1]]].
    { intros k. apply H. now left. }
    rewrite E1. simpl.
    destruct (IH st1) as [st' [E [Ht Hm]]].
    { intros q k Hq. rewrite Ht1. apply H. now right. }
    exists st'. repeat split; congruence.
Qed.

Lemma visited_kinds (tree : node) (P : kind -> Prop) :
  (forall p k, In p (map fst (walk tree)) -> kind_at p tree = Some k -> P k)
  <-> Forall (fun n => P (node_kind n)) (descendants tree).
Proof.
  rewrite Forall_forall. split.
  - intros H n Hn.
    apply (Permutation_in _ (Permutation_sym (walk_visits_all tree))) in Hn.
    unfold walk_nodes in Hn. apply in_map_iff in Hn.
    destruct Hn as [[p m] [E Hin]]. simpl in E. subst m.
    apply (H p); [apply in_map_iff; now exists (p, n)|].
    unfold kind_at. now rewrite (walk_valid _ _ _ Hin).
  - intros H p k Hp Hk. apply in_map_iff in Hp.
    destruct Hp as [[p' n] [E Hin]]. simpl in E. subst p'.
    unfold kind_at in Hk. rewrite (walk_valid _ _ _ Hin) in Hk.
    inversion Hk; subst. apply H.
    apply (Permutation_in _ (walk_visits_all tree)).
    unfold walk_nodes. apply in_map_iff. now exists (p, n).
Qed.

End NamingReports.

(** X2: when the checker returns, its violation list is, in the order of
    the walk, what each node's own name calls for: the lowercase message for
    a function name that is not [islower], the uppercase message for an
    identifier that [isupper], the pattern message for any other identifier
    that does not match, and nothing for every other node. *)
Theorem violations_node_by_node
        (code_object : Type) (compile : node -> syntax_error + code_object)
        (tree : node) (st : naming_state code_object) :
  check_naming_conventions compile tree = inr st ->
  ns_violations st
  = flat_map (fun n => violation_of (node_kind n)) (walk_nodes tree).
Proof. apply checked_violations. Qed.

Lemma violations_node_by_node_witness :
  [uppercase_message "X"]
  = flat_map (fun n => violation_of (node_kind n)) (walk_nodes stray_return_tree).
Proof.
  apply (violations_node_by_node node snapshot stray_return_tree
           (mk_naming_state
              (map_kinds renamed stray_return_tree)
              [uppercase_message "X"]
              (Some (map_kinds renamed stray_return_tree)))).
  reflexivity.
Defined.

(** X3: the tree the checker leaves behind is the tree it was given with
    every function name that is not [islower] and every identifier that
    [isupper] replaced by its lowercase form; line numbers, children and all
    other nodes are as they were. *)
Theorem only_names_change
        (code_object : Type) (compile : node -> syntax_error + code_object)
        (tree : node) (st : naming_state code_object) :
  check_naming_conventions compile tree = inr st ->
  ns_tree st = map_kinds renamed tree.
Proof. apply checked_tree. Qed.

Lemma only_names_change_witness :
  foo_tree_renamed = map_kinds renamed foo_tree.
Proof.
  apply (only_names_change node snapshot foo_tree
           (mk_naming_state foo_tree_renamed [function_message "Foo"]
                            (Some foo_tree_renamed))).
  reflexivity.
Defined.

(** X4: the code object the checker hands back, if any, is the one
    [compile] gives for the tree as the checker leaves it.  It hands back
    none exactly when no function name fails [islower] and no identifier
    [isupper]; the tree is then untouched, and in that case the checker
    returns whatever [compile] would do, for it never calls it. *)
Theorem handle_is_of_final_tree
        (code_object : Type) (compile : node -> syntax_error + code_object)
        (tree : node) :
  (forall st,
      check_naming_conventions compile tree = inr st ->
      (forall c, ns_modified_code st = Some c -> compile (ns_tree st) = inr c)
      /\ (ns_modified_code st = None
          <-> Forall (fun n => rewrites (node_kind n) = false) (descendants tree)))
  /\ (Forall (fun n => rewrites (node_kind n) = false) (descendants tree) ->
      exists st,
        check_naming_conventions compile tree = inr st
        /\ ns_tree st = tree /\ ns_modified_code st = None).
Proof.
  assert (Hquiet :
            Forall (fun n => rewrites (node_kind n) = false) (descendants tree) ->
            exists st,
              check_naming_conventions compile tree = inr st
              /\ ns_tree st = tree /\ ns_modified_code st = None).
  { intros H.
    apply (naming_loop_quiet compile (map fst (walk tree))
                             (mk_naming_state tree [] None)).
    exact (proj2 (visited_kinds tree (fun k => rewrites k = false)) H). }
  split; [|exact Hquiet].
  intros st Hrun.
  destruct (naming_loop_handle compile _ _ _ Hrun) as [Hcur Hnone].
  split.
  - apply Hcur. intros c Hc. discriminate Hc.
  - split.
    + intros H. destruct (Hnone H) as [_ [_ Hk]].
      apply (proj1 (visited_kinds tree (fun k => rewrites k = false))). exact Hk.
    + intros H. destruct (Hquiet H) as [st' [E [_ Hm]]]. congruence.
Qed.

Lemma handle_is_of_final_tree_witness :
  snapshot foo_tree_renamed = inr foo_tree_renamed
  /\ exists st,
      check_naming_conventions rejects_return assignment_tree = inr st
      /\ ns_tree st = assignment_tree /\ ns_modified_code st = None.
Proof.
  split.
  - apply (proj1 (proj1 (handle_is_of_final_tree node snapshot foo_tree)
                        (mk_naming_state foo_tree_renamed
                                         [function_message "Foo"]
                                         (Some foo_tree_renamed))
                        eq_refl)).
    reflexivity.
  - apply (proj2 (handle_is_of_final_tree node rejects_return assignment_tree)).
    simpl. repeat constructor.
Defined.

(** X5: a second call on the tree the first call left changes nothing in
    the tree, and its violation list is, in the order of the walk, what the
    names as lowered by the first call call for. *)
Theorem second_check_keeps_tree
        (code_object : Type) (compile : node -> syntax_error + code_object)
        (tree : node) (st1 st2 : naming_state code_object) :
  check_naming_conventions compile tree = inr st1 ->
  check_naming_conventions compile (ns_tree st1) = inr st2 ->
  ns_tree st2 = ns_tree st1
  /\ ns_violations st2
     = flat_map (fun n => violation_of (renamed (node_kind n))) (walk_nodes tree).
Proof.
  intros H1 H2.
  assert (E1 := checked_tree compile _ _ H1).
  assert (E2 := checked_tree compile _ _ H2).
  split.
  - rewrite E2, E1. apply map_kinds_twice. apply renamed_idempotent.
  - rewrite (checked_violations compile _ _ H2), E1, walk_nodes_map_kinds.
    rewrite flat_map_concat_map, map_map, <- flat_map_concat_map.
    apply flat_map_agree. intros n _. now rewrite kind_map_kinds.
Qed.

Lemma second_check_keeps_tree_witness :
  underscore_tree = underscore_tree
  /\ [function_message "_"]
     = flat_map (fun n => violation_of (renamed (node_kind n)))
                (walk_nodes underscore_tree).
Proof.
  apply (second_check_keeps_tree node snapshot underscore_tree
           (mk_naming_state underscore_tree [function_message "_"]
                            (Some underscore_tree))
           (mk_naming_state underscore_tree [function_message "_"]
                            (Some underscore_tree)));
    reflexivity.
Defined.

(** ** What the style recommender returns *)

Lemma take_drop_length (n : nat) (s : string) :
  String.length (Str.take n s) + String.length (Str.drop n s) = String.length s.
Proof.
  revert s; induction n as [|n IH]; intros [|c s]; simpl; try reflexivity.
  now rewrite IH.
Qed.

Lemma take_length (n : nat) (s : string) :
  n <= String.length s -> String.length (Str.take n s) = n.
Proof.
  revert s; induction n as [|n IH]; intros [|c s]; simpl; try reflexivity;
    try lia.
  intros H. rewrite IH; [reflexivity | lia].
Qed.

Lemma splice_length (s x : string) (k : Z) :
  String.length (Str.slice_to s k ++ x ++ Str.slice_from s k)
  = String.length s + String.length x.
Proof.
  unfold Str.slice_to, Str.slice_from. rewrite !append_length.
  assert (H := take_drop_length (Str.clamp (String.length s) k) s). lia.
Qed.

Lemma overwrite_length (s x : string) (i : nat) :
  1 <= i <= String.length s ->
  String.length (Str.slice_to s (Z.of_nat i - 1) ++ x
                   ++ Str.slice_from s (Z.of_nat i))
  = String.length s + String.length x - 1.
Proof.
  intros Hi. unfold Str.slice_to, Str.slice_from. rewrite !append_length.
  assert (H1 : Str.clamp (String.length s) (Z.of_nat i - 1) = i - 1).
  { unfold Str.clamp. destruct (Z.of_nat i - 1 <? 0)%Z eqn:E; lia. }
  assert (H2 : Str.clamp (String.length s) (Z.of_nat i) = i).
  { unfold Str.clamp. destruct (Z.of_nat i <? 0)%Z eqn:E; lia. }
  rewrite H1, H2.
  assert (Ht := take_length (i - 1) s ltac:(lia)).
  assert (Hd := take_drop_length i s).
  assert (Ht' := take_length i s ltac:(lia)). lia.
Qed.

Lemma split_lines_offsets (s : string) (j : nat) (line : string) :
  nth_error (Str.split_lines s) j = Some line ->
  j + String.length line <= String.length s.
Proof.
  revert j line; induction s as [|c s IH]; intros j line.
  - destruct j as [|[|j]]; simpl; intros E; inversion E; subst. simpl. lia.
  - cbn [Str.split_lines]. destruct (Ascii.eqb c Str.LF).
    + destruct j as [|j]; simpl; intros E.
      * inversion E; subst. simpl. lia.
      * apply IH in E. lia.
    + destruct (Str.split_lines s) as [|l ls] eqn:Es;
        [now apply split_lines_nonempty in Es|].
      destruct j as [|j]; simpl; intros E.
      * inversion E; subst. specialize (IH 0 l eq_refl). simpl in *. lia.
      * specialize (IH (S j) line E). simpl. lia.
Qed.

Section StyleMore.

Variable cleandoc : string -> string.
Variable ast_parse : string -> exn + node.

Lemma length_loop_exact (ils : list (nat * string)) (st : style_state) :
  fst (fold_left length_body ils st)
  = fst st ++ flat_map long_line_message ils.
Proof.
  revert st; induction ils as [|[i line] ils IH]; intros st; simpl.
  - now rewrite app_nil_r.
  - rewrite IH. destruct st as [recs text].
    unfold length_body, long_line_message. cbn [fst snd].
    destruct (line_length_limit <? String.length line); simpl.
    + now rewrite <- app_assoc.
    + reflexivity.
Qed.

Lemma length_loop_growth (ils : list (nat * string)) (st : style_state) :
  (forall il, In il ils ->
              line_length_limit < String.length (snd il) ->
              1 <= fst il <= String.length (snd st)) ->
  String.length (snd (fold_left length_body ils st))
  = String.length (snd st) + List.length (flat_map long_line_message ils).
Proof.
  revert st; induction ils as [|[i line] ils IH]; intros st H; simpl.
  - lia.
  - destruct st as [recs text]. unfold length_body at 2, long_line_message at 1.
    cbn [fst snd] in *.
    destruct (line_length_limit <? String.length line) eqn:El.
    + apply Nat.ltb_lt in El.
      assert (Hi := H (i, line) (or_introl eq_refl) El). simpl in Hi.
      assert (Hlen := overwrite_length text (String "\"%char (String Str.LF ""))
                                       i Hi).
      change (String.length (String "\"%char (String Str.LF ""))) with 2 in Hlen.
      rewrite IH; cbn [snd].
      * rewrite Hlen. cbn [app List.length]. lia.
      * intros il Hil Hlong. specialize (H il (or_intror Hil) Hlong).
        rewrite Hlen. lia.
    + rewrite IH; cbn [snd]; [reflexivity|].
      intros il Hil. apply H. now right.
Qed.

Lemma style_body_growth (code : string) (st st1 : style_state) (n : node) :
  style_body cleandoc code st n = inr st1 ->
  String.length (snd st1)
  = String.length (snd st) + doc_growth cleandoc code n.
Proof.
  destruct st as [recs text].
  unfold style_body, doc_growth, doc_message, recommend_at_body,
    first_body_line.
  assert (Hph : String.length placeholder = 21) by reflexivity.
  set (ph := placeholder) in *. clearbody ph.
  destruct (node_kind n); destruct (lacks_docstring cleandoc n);
    repeat match goal with
           | |- context [node_body n] => destruct (node_body n)
           | |- context [node_lineno ?x] => destruct (node_lineno x)
           | |- context [Str.index ?x ?y] => destruct (Str.index x y)
           | |- context [is_comment_line ?x] => destruct (is_comment_line x)
           end;
    intros E; first [discriminate E | injection E as <-]; cbn [snd];
    rewrite ?splice_length, ?Hph;
    cbn [append String.length]; lia.
Qed.

Lemma style_loop_growth (code : string) (ns : list node) (st st' : style_state) :
  for_each (style_body cleandoc code) ns st = inr st' ->
  String.length (snd st')
  = String.length (snd st) + list_sum (map (doc_growth cleandoc code) ns).
Proof.
  revert st; induction ns as [|n ns IH]; intros st; simpl.
  - intros E; inversion E; subst. lia.
  - destruct (style_body cleandoc code st n) as [e|st1] eqn:E1; simpl;
      [discriminate|].
    intros E. rewrite (IH _ E), (style_body_growth _ _ _ _ E1). lia.
Qed.

Lemma for_each_fails {A S} (body : S -> A -> result S) (xs : list A) (x : A) :
  In x xs -> (forall s, exists e, body s x = inl e) ->
  forall s, exists e, for_each body xs s = inl e.
Proof.
  intros Hin Hx. induction xs as [|y ys IH]; [contradiction|].
  intros s. simpl. destruct Hin as [-> | Hin].
  - destruct (Hx s) as [e ->]. now exists e.
  - destruct (body s y) as [e|s1]; [now exists e|]. simpl. now apply IH.
Qed.

Lemma recommend_report (code : string) (tree : node) (r : style_report) :
  ast_parse code = inr tree ->
  recommend_coding_style cleandoc ast_parse code = inr r ->
  exists st,
    for_each (style_body cleandoc code) (walk_nodes tree) ([], code) = inr st
    /\ fst (fold_left length_body (enumerate 1 (Str.split_lines code)) st)
       = found_recommendations cleandoc code tree
    /\ r = match found_recommendations cleandoc code tree with
           | [] => mk_style_report [no_recommendations] no_modification
                                   [recommendation_header; no_recommendations]
           | found =>
               mk_style_report
                 found
                 (snd (fold_left length_body
                                 (enumerate 1 (Str.split_lines code)) st))
                 (flat_map (fun x => [recommendation_header; x]) found)
           end.
Proof.
  intros Hp. unfold recommend_coding_style. rewrite Hp. cbn [bind].
  destruct (for_each _ _ _) as [e|st] eqn:Eloop; cbn [bind]; [discriminate|].
  intros E. exists st. split; [reflexivity|].
  assert (Hf : fst (fold_left length_body (enumerate 1 (Str.split_lines code)) st)
               = found_recommendations cleandoc code tree).
  { rewrite length_loop_exact. unfold found_recommendations.
    now rewrite (style_loop_messages _ _ _ _ _ Eloop). }
  split; [exact Hf|].
  rewrite <- Hf.
  destruct (fold_left length_body _ st) as [recs text]. cbn [fst snd].
  destruct recs; inversion E; reflexivity.
Qed.

End StyleMore.

(** X6: when the recommender returns, its list is never empty: it holds the
    messages of the nodes in the order of the walk followed by those of the
    lines over 79 characters in the order of the lines, or, when there is
    none of either, the one fixed message, and then the text handed back is
    the fixed text.  Every recommendation is printed after the same header
    line. *)
Theorem recommendations_exact
        (cleandoc : string -> string)
        (ast_parse : string -> exn + node)
        (code : string) (tree : node) (r : style_report) :
  ast_parse code = inr tree ->
  recommend_coding_style cleandoc ast_parse code = inr r ->
  recommendations r
  = match found_recommendations cleandoc code tree with
    | [] => [no_recommendations]
    | found => found
    end
  /\ (found_recommendations cleandoc code tree = [] ->
      modified_code r = no_modification)
  /\ printed r
     = flat_map (fun x => [recommendation_header; x]) (recommendations r)
  /\ recommendations r <> [].
Proof.
  intros Hp Hr.
  destruct (recommend_report cleandoc ast_parse code tree r Hp Hr)
    as [st [_ [_ ->]]].
  destruct (found_recommendations cleandoc code tree); simpl;
    repeat split; try reflexivity; try discriminate.
Qed.

Lemma recommendations_exact_witness :
  [module_recommendation; function_recommendation "f"]
  = match found_recommendations no_cleaning two_line_def two_line_def_tree with
    | [] => [no_recommendations]
    | found => found
    end.
Proof.
  apply (proj1 (recommendations_exact
                  no_cleaning sample_parser two_line_def two_line_def_tree
                  (mk_style_report
                     [module_recommendation; function_recommendation "f"]
                     (Str.slice_to (placeholder_line ++ String Str.LF two_line_def) 1
                        ++ placeholder
                        ++ Str.slice_from (placeholder_line ++ String Str.LF two_line_def) 1)
                     [recommendation_header; module_recommendation;
                      recommendation_header; function_recommendation "f"])
                  eq_refl eq_refl)).
Defined.

(** X7: when a recommendation was found, the text handed back is longer
    than the original by 20 characters for the module's placeholder, 21 for
    each function or class placeholder and 1 for each line over 79
    characters: a placeholder is inserted whole, while the two characters
    of a line marker take the place of one character of the working copy. *)
Theorem modified_text_length
        (cleandoc : string -> string)
        (ast_parse : string -> exn + node)
        (code : string) (tree : node) (r : style_report) :
  ast_parse code = inr tree ->
  recommend_coding_style cleandoc ast_parse code = inr r ->
  found_recommendations cleandoc code tree <> [] ->
  String.length (modified_code r)
  = String.length code
    + list_sum (map (doc_growth cleandoc code) (walk_nodes tree))
    + List.length (flat_map long_line_message
                            (enumerate 1 (Str.split_lines code))).
Proof.
  intros Hp Hr Hfound.
  destruct (recommend_report cleandoc ast_parse code tree r Hp Hr)
    as [st [Hloop [_ ->]]].
  destruct (found_recommendations cleandoc code tree) as [|x xs];
    [congruence|]. cbn [modified_code].
  assert (Hg := style_loop_growth cleandoc code _ _ _ Hloop). cbn [snd] in Hg.
  rewrite length_loop_growth, Hg; [reflexivity|].
  intros [i line] Hil Hlong. cbn [fst snd] in *.
  apply enumerate_In in Hil. destruct Hil as [Hi Hnth].
  apply split_lines_offsets in Hnth. rewrite Hg. lia.
Qed.

Lemma modified_text_length_witness :
  String.length
    (Str.slice_to (placeholder_line ++ String Str.LF two_line_def) 1
       ++ placeholder
       ++ Str.slice_from (placeholder_line ++ String Str.LF two_line_def) 1)
  = String.length two_line_def
    + list_sum (map (doc_growth no_cleaning two_line_def)
                    (walk_nodes two_line_def_tree))
    + List.length (flat_map long_line_message
                            (enumerate 1 (Str.split_lines two_line_def))).
Proof.
  apply (modified_text_length
           no_cleaning sample_parser two_line_def two_line_def_tree
           (mk_style_report
              [module_recommendation; function_recommendation "f"]
              (Str.slice_to (placeholder_line ++ String Str.LF two_line_def) 1
                 ++ placeholder
                 ++ Str.slice_from (placeholder_line ++ String Str.LF two_line_def) 1)
              [recommendation_header; module_recommendation;
               recommendation_header; function_recommendation "f"])
           eq_refl eq_refl).
  discriminate.
Defined.

(** X8: if the tree has a function or a class without docstring whose first
    body statement carries a line number for which [code.split("\n")] has
    no line (or has no first statement or no line number at all), the
    recommender does not return: it raises [IndexError] or
    [AttributeError], and so the whole analysis returns no result. *)
Theorem recommender_needs_every_line
        (cleandoc : string -> string)
        (ast_parse : string -> exn + node)
        (code_object : Type) (compile : node -> syntax_error + code_object)
        (code : string) (tree n : node) :
  ast_parse code = inr tree ->
  In n (descendants tree) ->
  plain (node_kind n) = false -> node_kind n <> ast_Module ->
  lacks_docstring cleandoc n = true ->
  first_body_line code n = None ->
  (exists e, recommend_coding_style cleandoc ast_parse code = inl e
             /\ (e = IndexError \/ e = AttributeError))
  /\ forall r, analyze_code cleandoc ast_parse compile code <> inr r.
Proof.
  intros Hp Hn Hplain Hmod Hdoc Hline.
  assert (Hstep : forall st, exists e, style_body cleandoc code st n = inl e).
  { intros [recs text]. unfold style_body, recommend_at_body.
    unfold first_body_line in Hline.
    destruct (node_kind n); try discriminate; try congruence;
      rewrite Hdoc;
      destruct (node_body n) as [|first rest]; try (eexists; reflexivity);
      destruct (node_lineno first); try (eexists; reflexivity);
      rewrite Hline; eexists; reflexivity. }
  assert (Hvisit : In n (walk_nodes tree)).
  { apply (Permutation_in _ (Permutation_sym (walk_visits_all tree)) Hn). }
  destruct (for_each_fails (style_body cleandoc code) _ n Hvisit Hstep ([], code))
    as [e He].
  assert (Hrec : recommend_coding_style cleandoc ast_parse code = inl e).
  { unfold recommend_coding_style. rewrite Hp. cbn [bind].
    now rewrite He. }
  split.
  - exists e. split; [exact Hrec|]. now apply style_loop_errors in He.
  - intros r. unfold analyze_code.
    destruct (ast_parse code); cbn [bind]; [discriminate|].
    destruct (check_naming_conventions compile n0); cbn [bind]; [discriminate|].
    rewrite Hrec. discriminate.
Qed.

Lemma recommender_needs_every_line_witness :
  (exists e, recommend_coding_style no_cleaning sample_parser carriage_return_def
             = inl e
             /\ (e = IndexError \/ e = AttributeError))
  /\ forall r, analyze_code no_cleaning sample_parser snapshot carriage_return_def
               <> inr r.
Proof.
  apply (recommender_needs_every_line
           no_cleaning sample_parser node snapshot carriage_return_def
           two_line_def_tree
           (Node (ast_FunctionDef "f") (Some 1%Z) [arguments] [pass_at 2] [])).
  - reflexivity.
  - simpl. auto.
  - reflexivity.
  - discriminate.
  - reflexivity.
  - reflexivity.
Defined.

(** ** The order of the tree loops *)

Lemma left_of_irrefl (p : path) : ~ left_of p p.
Proof. induction p as [|i p IH]; simpl; [tauto|]. intros [H | [_ H]]; [lia | auto]. Qed.

Lemma left_of_asym (p q : path) : left_of p q -> left_of q p -> False.
Proof.
  revert q; induction p as [|i p IH]; intros [|j q]; simpl; try tauto.
  intros [H1 | [-> H1]] [H2 | [E H2]]; try lia. now apply (IH q).
Qed.

Lemma walk_order_irrefl (p : path) : ~ walk_order p p.
Proof. intros [H | [_ H]]; [lia | now apply left_of_irrefl in H]. Qed.

Lemma walk_order_asym (p q : path) : walk_order p q -> walk_order q p -> False.
Proof.
  intros [H1 | [E1 H1]] [H2 | [E2 H2]]; try lia. now apply (left_of_asym p q).
Qed.

Lemma sorted_unique {A} (R : A -> A -> Prop) (l1 l2 : list A) :
  (forall x, ~ R x x) -> (forall x y, R x y -> R y x -> False) ->
  StronglySorted R l1 -> StronglySorted R l2 ->
  (forall x, In x l1 <-> In x l2) ->
  l1 = l2.
Proof.
  intros Hirr Hasym. revert l2; induction l1 as [|a l1 IH]; intros l2 H1 H2 Hin.
  - destruct l2 as [|b l2]; [reflexivity|].
    now destruct (proj2 (Hin b) (or_introl eq_refl)).
  - destruct l2 as [|b l2];
      [now destruct (proj1 (Hin a) (or_introl eq_refl))|].
    inversion H1 as [|? ? H1' Ha]; subst. inversion H2 as [|? ? H2' Hb]; subst.
    rewrite Forall_forall in Ha, Hb.
    assert (E : a = b).
    { destruct (proj1 (Hin a) (or_introl eq_refl)) as [E | Hab]; [now symmetry|].
      destruct (proj2 (Hin b) (or_introl eq_refl)) as [E | Hba]; [assumption|].
      now destruct (Hasym a b (Ha b Hba) (Hb a Hab)). }
    subst b. f_equal. apply IH; try assumption.
    intros x. split; intros Hx.
    + destruct (proj1 (Hin x) (or_intror Hx)) as [<- | H]; [|exact H].
      now destruct (Hirr a (Ha a Hx)).
    + destruct (proj2 (Hin x) (or_intror Hx)) as [<- | H]; [|exact H].
      now destruct (Hirr a (Hb a Hx)).
Qed.

Lemma sorted_by_path (visits : list (path * node)) :
  StronglySorted walk_order (map fst visits)
  <-> StronglySorted (fun x y => walk_order (fst x) (fst y)) visits.
Proof.
  induction visits as [|x visits IH]; simpl.
  - split; constructor.
  - split; intros H; inversion H as [|? ? Hs Hx]; subst; constructor;
      try (now apply IH); rewrite Forall_forall in *.
    + intros y Hy. apply Hx. now apply in_map.
    + intros q Hq. apply in_map_iff in Hq. destruct Hq as [y [<- Hy]].
      now apply Hx.
Qed.

(** X1: the three tree loops take the positions of the tree in one and the
    same order, level by level from the root and from left to right within a
    level, each position once; there is no other listing of the positions
    in that order.  (An object that stands at several positions, as the
    [Load] that the parser shares among the names it reads, is taken at
    each of them.)  The list of function lengths, the violations of the
    checker and the node recommendations are what the positions give, one
    after the other in that order. *)
Theorem tree_loops_level_by_level (tree : node) :
  exists visits : list (path * node),
    (forall p n, In (p, n) visits <-> subtree p tree = Some n)
    /\ StronglySorted walk_order (map fst visits)
    /\ (forall other : list (path * node),
          (forall p n, In (p, n) other <-> subtree p tree = Some n) ->
          StronglySorted walk_order (map fst other) ->
          other = visits)
    /\ function_lengths tree
       = map body_count (filter is_function (map snd visits))
    /\ (forall (code_object : Type)
               (compile : node -> syntax_error + code_object) st,
          check_naming_conventions compile tree = inr st ->
          ns_violations st
          = flat_map (fun n => violation_of (node_kind n)) (map snd visits))
    /\ (forall (cleandoc : string -> string)
               (ast_parse : string -> exn + node) code r,
          ast_parse code = inr tree ->
          recommend_coding_style cleandoc ast_parse code = inr r ->
          recommendations r
          = match flat_map (doc_message cleandoc code) (map snd visits)
                  ++ flat_map long_line_message
                              (enumerate 1 (Str.split_lines code)) with
            | [] => [no_recommendations]
            | found => found
            end).
Proof.
  exists (walk tree).
  assert (Hall : forall p n, In (p, n) (walk tree) <-> subtree p tree = Some n).
  { intros p n. split; [apply walk_valid | apply walk_complete]. }
  split; [exact Hall|]. split; [apply walk_ordered|].
  split; [|split; [|split]].
  - intros other Hother Hsorted.
    apply (sorted_unique (fun x y => walk_order (fst x) (fst y))).
    + intros x. apply walk_order_irrefl.
    + intros x y. apply walk_order_asym.
    + now apply sorted_by_path.
    + apply sorted_by_path, walk_ordered.
    + intros [p n]. now rewrite Hother, Hall.
  - apply function_lengths_spec.
  - intros code_object compile st. apply checked_violations.
  - intros cleandoc ast_parse code r Hp Hr.
    destruct (recommend_report cleandoc ast_parse code tree r Hp Hr)
      as [st [_ [_ ->]]].
    unfold found_recommendations, walk_nodes.
    now destruct (flat_map _ _ ++ _).
Qed.

(** ** Scores of joined texts *)

Lemma split_lines_join (a b : string) :
  Str.split_lines (join a b) = Str.split_lines a ++ Str.split_lines b.
Proof.
  unfold join. induction a as [|c a IH]; cbn [append Str.split_lines].
  - now rewrite Ascii.eqb_refl.
  - destruct (Ascii.eqb c Str.LF).
    + now rewrite IH.
    + rewrite IH. destruct (Str.split_lines a) as [|l ls] eqn:Es;
        [now apply split_lines_nonempty in Es | reflexivity].
Qed.

Lemma complexity_filter (code : string) :
  analyze_code_complexity code
  = Z.of_nat (List.length (filter is_comment_line (Str.split_lines code))).
Proof. unfold analyze_code_complexity. now rewrite count_loop. Qed.

Lemma line_count_length (code : string) : line_count code <= String.length code + 1.
Proof.
  unfold line_count. induction code as [|c code IH]; cbn [Str.split_lines].
  - simpl. lia.
  - destruct (Ascii.eqb c Str.LF); [simpl in *; lia|].
    destruct (Str.split_lines code); simpl in *; lia.
Qed.

(** X9: the complexity score of two texts joined by a line feed is the sum
    of their scores; the score of a text is at most its number of lines,
    which is at most its length plus one, so a text without line feed
    scores 0 or 1. *)
Theorem complexity_adds_up :
  (forall a b,
      analyze_code_complexity (join a b)
      = (analyze_code_complexity a + analyze_code_complexity b)%Z)
  /\ (forall code,
         (analyze_code_complexity code <= Z.of_nat (line_count code))%Z
         /\ line_count code <= String.length code + 1)
  /\ (forall code,
         no_line_feed code = true ->
         line_count code = 1
         /\ analyze_code_complexity code = (if is_comment_line code then 1 else 0)%Z).
Proof.
  split; [|split].
  - intros a b. rewrite !complexity_filter, split_lines_join, filter_app,
      length_app. lia.
  - intros code. split; [|apply line_count_length].
    rewrite complexity_filter. unfold line_count.
    apply inj_le. apply filter_length_le.
  - intros code H.
    assert (Hs : Str.split_lines code = [code]).
    { induction code as [|c code IH]; [reflexivity|].
      simpl in H. apply andb_true_iff in H. destruct H as [Hc Hr].
      apply negb_true_iff in Hc. cbn [Str.split_lines]. rewrite Hc.
      now rewrite (IH Hr). }
    split; [unfold line_count; now rewrite Hs|].
    rewrite complexity_filter, Hs. simpl.
    now destruct (is_comment_line code).
Qed.

Lemma complexity_adds_up_witness :
  line_count "# note" = 1
  /\ analyze_code_complexity "# note"
     = (if is_comment_line "# note" then 1 else 0)%Z.
Proof.
  apply (proj2 (proj2 complexity_adds_up) "# note"). reflexivity.
Defined.

Lemma prefix_join (needle a b : string) :
  no_line_feed needle = true ->
  prefix needle (join a b) = prefix needle a.
Proof.
  unfold join. revert needle; induction a as [|d a IH]; intros [|c n] H;
    try reflexivity.
  - simpl in H. apply andb_true_iff in H. destruct H as [Hc _].
    apply negb_true_iff in Hc. simpl.
    destruct (ascii_dec c Str.LF) as [->|]; [|reflexivity].
    now rewrite Ascii.eqb_refl in Hc.
  - simpl in H. apply andb_true_iff in H. destruct H as [_ Hn].
    simpl. destruct (ascii_dec c d); [|reflexivity]. now apply IH.
Qed.

Lemma contains_join (needle a b : string) :
  no_line_feed needle = true -> needle <> EmptyString ->
  Str.contains needle (join a b)
  = Str.contains needle a || Str.contains needle b.
Proof.
  intros Hn Hne. induction a as [|d a IH].
  - unfold join. cbn [append Str.contains].
    change (String Str.LF b) with (join "" b) at 1.
    rewrite (prefix_join needle "" b Hn).
    destruct needle; [congruence | reflexivity].
  - change (join (String d a) b) with (String d (join a b)).
    cbn [Str.contains]. fold (join a b).
    change (String d (join a b)) with (join (String d a) b).
    rewrite (prefix_join needle (String d a) b Hn), IH.
    now rewrite orb_assoc.
Qed.

(** X10: joining two texts by a line feed adds their quality scores, except
    that a penalty both texts had to pay is paid once: 10 comes back when
    both hold "goto", 5 when both hold "magic_number".  So the joined text
    never scores lower than the two apart. *)
Theorem quality_of_joined_texts (a b : string) :
  analyze_code_quality (join a b)
  = (analyze_code_quality a + analyze_code_quality b
     + (if Str.contains "goto" a && Str.contains "goto" b then 10 else 0)
     + (if Str.contains "magic_number" a && Str.contains "magic_number" b
        then 5 else 0))%Z
  /\ (analyze_code_quality a + analyze_code_quality b
      <= analyze_code_quality (join a b))%Z.
Proof.
  assert (Hc : analyze_code_complexity (join a b)
               = (analyze_code_complexity a + analyze_code_complexity b)%Z).
  { rewrite !complexity_filter, split_lines_join, filter_app, length_app. lia. }
  rewrite !quality_unfold, Hc.
  rewrite (contains_join "goto" a b eq_refl ltac:(discriminate)).
  rewrite (contains_join "magic_number" a b eq_refl ltac:(discriminate)).
  destruct (Str.contains "goto" a), (Str.contains "goto" b),
    (Str.contains "magic_number" a), (Str.contains "magic_number" b);
    simpl; lia.
Qed.

(** ** Bounds of the average and of the detector *)

Lemma list_sum_bounds (xs : list nat) (lo hi : nat) :
  Forall (fun x => lo <= x <= hi) xs ->
  lo * List.length xs <= list_sum xs <= hi * List.length xs.
Proof. induction 1; simpl; nia. Qed.

Lemma mean_bounds (xs : list nat) (lo hi : nat) :
  xs <> [] -> Forall (fun x => lo <= x <= hi) xs ->
  (inject_Z (Z.of_nat lo) <= mean xs <= inject_Z (Z.of_nat hi))%Q.
Proof.
  intros Hne Hall. assert (Hs := list_sum_bounds xs lo hi Hall).
  assert (Hl : 0 < List.length xs) by (destruct xs; [congruence | simpl; lia]).
  assert (Hpos : (0 < inject_Z (Z.of_nat (List.length xs)))%Q).
  { unfold Qlt. simpl. lia. }
  unfold mean. split.
  - apply Qle_shift_div_l; [exact Hpos|].
    rewrite <- inject_Z_mult, <- Zle_Qle. lia.
  - apply Qle_shift_div_r; [exact Hpos|].
    rewrite <- inject_Z_mult, <- Zle_Qle. lia.
Qed.

(** X11: the average function length lies between the smallest and the
    largest number of body statements of the functions of the tree; it is
    never negative, and at least 1 when the tree has a function and every
    function body has a statement. *)
Theorem average_function_length_bounds (tree : node) :
  (0 <= calculate_average_function_length tree)%Q
  /\ forall lo hi,
      functions tree <> [] ->
      Forall (fun f => lo <= body_count f <= hi) (functions tree) ->
      (inject_Z (Z.of_nat lo) <= calculate_average_function_length tree
       <= inject_Z (Z.of_nat hi))%Q.
Proof.
  assert (HP := function_lengths_perm tree).
  assert (Hb : forall lo hi,
             functions tree <> [] ->
             Forall (fun f => lo <= body_count f <= hi) (functions tree) ->
             (inject_Z (Z.of_nat lo) <= calculate_average_function_length tree
              <= inject_Z (Z.of_nat hi))%Q).
  { intros lo hi Hne Hall.
    assert (Hall' : Forall (fun x => lo <= x <= hi) (function_lengths tree)).
    { apply (Permutation_Forall (Permutation_sym HP)).
      now rewrite Forall_map. }
    assert (Hne' : function_lengths tree <> []).
    { intros E. rewrite E in HP. apply Permutation_nil in HP.
      destruct (functions tree); [congruence | discriminate]. }
    unfold calculate_average_function_length.
    destruct (function_lengths tree) as [|x xs] eqn:E; [congruence|].
    apply (mean_bounds (x :: xs) lo hi); [discriminate | exact Hall']. }
  split; [|exact Hb].
  assert (Hcase : functions tree = [] \/ functions tree <> []).
  { destruct (functions tree); [now left | right; discriminate]. }
  destruct Hcase as [Ef | Hne].
  - unfold calculate_average_function_length.
    rewrite Ef in HP. apply Permutation_sym, Permutation_nil in HP.
    rewrite HP. apply Qle_refl.
  - set (hi := list_sum (map body_count (functions tree))).
    assert (Hall : Forall (fun g => 0 <= body_count g <= hi) (functions tree)).
    { apply Forall_forall. intros g Hg. split; [lia|].
      unfold hi. clear -Hg. induction (functions tree) as [|y ys IH];
        [contradiction|]. destruct Hg as [-> | Hg]; simpl; [lia|].
      specialize (IH Hg). lia. }
    apply (Hb 0 hi Hne Hall).
Qed.

Lemma average_function_length_bounds_witness :
  (inject_Z (Z.of_nat 1) <= calculate_average_function_length foo_tree
   <= inject_Z (Z.of_nat 1))%Q.
Proof.
  apply (proj2 (average_function_length_bounds foo_tree) 1 1).
  - discriminate.
  - simpl. repeat constructor.
Defined.

Lemma pair_lt_irrefl (x : nat * nat) : ~ pair_lt x x.
Proof. unfold pair_lt. lia. Qed.

Lemma sorted_NoDup (l : list (nat * nat)) :
  StronglySorted pair_lt l -> NoDup l.
Proof.
  induction 1 as [|x l Hs IH Hx]; constructor; [|assumption].
  intros Hin. rewrite Forall_forall in Hx.
  exact (pair_lt_irrefl x (Hx x Hin)).
Qed.

Lemma row_count (i : nat) (line1 : string) (ys : list string) (s : nat) :
  List.length (flat_map (row i line1) (enumerate s ys)) <= List.length ys.
Proof.
  revert s; induction ys as [|y ys IH]; intros s; simpl; [lia|].
  rewrite length_app. specialize (IH (S s)).
  unfold row at 1. cbn [snd]. destruct (similar line1 y); simpl; lia.
Qed.

Lemma rows_count (lines xs : list string) (s : nat) :
  s + List.length xs = List.length lines ->
  2 * List.length (flat_map (rows lines) (enumerate s xs))
  <= List.length xs * (List.length xs - 1).
Proof.
  revert s; induction xs as [|x xs IH]; intros s H; [simpl; lia|].
  cbn [enumerate flat_map List.length] in *. rewrite length_app.
  specialize (IH (S s) ltac:(lia)).
  unfold rows at 1. cbn [fst snd].
  assert (Hr := row_count s x (skipn (s + 1) lines) 0).
  rewrite length_skipn in Hr.
  set (a := List.length (flat_map (row s x) (enumerate 0 (skipn (s + 1) lines))))
    in *.
  set (b := List.length (flat_map (rows lines) (enumerate (S s) xs))) in *.
  set (n := List.length xs) in *.
  assert (Ha : a <= n) by lia.
  replace (S n - 1) with n by lia.
  destruct n as [|m]; [lia|]. replace (S m - 1) with m in IH by lia. nia.
Qed.

(** X12: the detector never reports a pair twice, every pair it reports is
    two different line indices of the text in ascending order, and for a
    text of [n] lines there are at most [n (n - 1) / 2] pairs; for a text
    without line feed there is none. *)
Theorem detect_repeated_code_bounds (code : string) :
  NoDup (detect_repeated_code code)
  /\ (forall i j, In (i, j) (detect_repeated_code code) ->
                  i < j < line_count code)
  /\ 2 * List.length (detect_repeated_code code)
     <= line_count code * (line_count code - 1)
  /\ (no_line_feed code = true -> detect_repeated_code code = []).
Proof.
  assert (Hcount : 2 * List.length (detect_repeated_code code)
                   <= line_count code * (line_count code - 1)).
  { rewrite detect_repeated_code_rows. apply rows_count. reflexivity. }
  split; [|split; [|split]].
  - apply sorted_NoDup. rewrite detect_repeated_code_rows. apply rows_sorted.
  - intros i j Hin. apply detect_repeated_code_In in Hin.
    destruct Hin as [Hlt [l1 [l2 [_ [Hj _]]]]].
    split; [exact Hlt|]. unfold line_count. apply nth_error_Some. congruence.
  - exact Hcount.
  - intros H.
    assert (Hs : Str.split_lines code = [code]).
    { clear Hcount. induction code as [|c code IH]; [reflexivity|].
      simpl in H. apply andb_true_iff in H. destruct H as [Hc Hr].
      apply negb_true_iff in Hc. cbn [Str.split_lines]. rewrite Hc.
      now rewrite (IH Hr). }
    unfold line_count in Hcount. rewrite Hs in Hcount. simpl in Hcount.
    destruct (detect_repeated_code code); [reflexivity | simpl in Hcount; lia].
Qed.

Lemma detect_repeated_code_bounds_witness :
  detect_repeated_code "abc" = [].
Proof.
  apply (proj2 (proj2 (proj2 (detect_repeated_code_bounds "abc")))).
  reflexivity.
Defined.

(** ** The script *)

Lemma rstrip_cons (c : ascii) (s : string) :
  Str.rstrip (String c s)
  = match Str.rstrip s with
    | EmptyString => if Str.isspace c then EmptyString else String c EmptyString
    | r => String c r
    end.
Proof. reflexivity. Qed.

Lemma rstrip_idempotent (s : string) : Str.rstrip (Str.rstrip s) = Str.rstrip s.
Proof.
  induction s as [|c s IH]; [reflexivity|].
  rewrite (rstrip_cons c s). destruct (Str.rstrip s) as [|d r] eqn:E.
  - destruct (Str.isspace c) eqn:Ec; [reflexivity|].
    rewrite rstrip_cons. simpl. now rewrite Ec.
  - rewrite rstrip_cons, IH. reflexivity.
Qed.

Lemma rstrip_head (c : ascii) (s : string) :
  Str.isspace c = false -> exists r, Str.rstrip (String c s) = String c r.
Proof.
  intros Hc. cbn [Str.rstrip]. destruct (Str.rstrip s).
  - rewrite Hc. now exists EmptyString.
  - eexists; reflexivity.
Qed.

Lemma lstrip_head (s : string) :
  Str.lstrip s = EmptyString
  \/ exists c r, Str.lstrip s = String c r /\ Str.isspace c = false.
Proof.
  induction s as [|c s IH]; [now left|].
  cbn [Str.lstrip]. destruct (Str.isspace c) eqn:Ec; [exact IH|].
  right. now exists c, s.
Qed.

Lemma strip_idempotent (s : string) : Str.strip (Str.strip s) = Str.strip s.
Proof.
  unfold Str.strip. destruct (lstrip_head s) as [-> | [c [r [-> Hc]]]];
    [reflexivity|].
  destruct (rstrip_head c r Hc) as [r' Hr]. rewrite Hr.
  cbn [Str.lstrip]. rewrite Hc, <- Hr. apply rstrip_idempotent.
Qed.

Lemma lstrip_no_line_feed (s : string) :
  no_line_feed s = true -> no_line_feed (Str.lstrip s) = true.
Proof.
  induction s as [|c s IH]; [reflexivity|].
  intros H. cbn [Str.lstrip]. destruct (Str.isspace c); [|exact H].
  simpl in H. apply andb_true_iff in H. now apply IH.
Qed.

Lemma rstrip_no_line_feed (s : string) :
  no_line_feed s = true -> no_line_feed (Str.rstrip s) = true.
Proof.
  induction s as [|c s IH]; [reflexivity|].
  intros H. simpl in H. apply andb_true_iff in H. destruct H as [Hc Hs].
  cbn [Str.rstrip]. specialize (IH Hs). destruct (Str.rstrip s).
  - destruct (Str.isspace c); [reflexivity|]. simpl. now rewrite Hc.
  - simpl in *. rewrite Hc. exact IH.
Qed.

Lemma strip_no_line_feed (s : string) :
  no_line_feed s = true -> no_line_feed (Str.strip s) = true.
Proof.
  intros H. unfold Str.strip.
  now apply rstrip_no_line_feed, lstrip_no_line_feed.
Qed.

Lemma split_lines_single (code : string) :
  no_line_feed code = true -> Str.split_lines code = [code].
Proof.
  induction code as [|c code IH]; [reflexivity|].
  intros H. simpl in H. apply andb_true_iff in H. destruct H as [Hc Hr].
  apply negb_true_iff in Hc. cbn [Str.split_lines]. rewrite Hc.
  now rewrite (IH Hr).
Qed.

Lemma read_code_from (stdin : list string) (out : list event) :
  match read_code stdin out with
  | (out', Some (code, rest)) =>
      exists blanks line,
        stdin = blanks ++ line :: rest
        /\ Forall blank blanks
        /\ code = Str.strip line /\ code <> EmptyString
        /\ out' = out ++ prompts blanks
  | (out', None) => Forall blank stdin /\ out' = out ++ prompts stdin
  end.
Proof.
  revert out; induction stdin as [|line stdin IH]; intros out.
  - simpl. split; [constructor | reflexivity].
  - cbn [read_code]. destruct (Str.strip line) as [|c s] eqn:Es.
    + specialize (IH ((out ++ [ev_prompt prompt_text])
                        ++ [ev_print [v_str empty_input]])).
      destruct (read_code stdin _) as [out' [[code rest]|]].
      * destruct IH as [blanks [l [E [Hb [Hc [Hne Ho]]]]]].
        exists (line :: blanks), l.
        split; [simpl; now rewrite E|].
        split; [constructor; assumption|].
        split; [exact Hc|]. split; [exact Hne|].
        rewrite Ho. unfold prompts. simpl. now rewrite <- !app_assoc.
      * destruct IH as [Hb Ho]. split; [constructor; assumption|].
        rewrite Ho. unfold prompts. simpl. now rewrite <- !app_assoc.
    + exists [], line.
      split; [reflexivity|]. split; [constructor|].
      split; [now rewrite Es|]. split; [discriminate | reflexivity].
Qed.

(** X13: the script asks until a line is more than whitespace.  The text it
    goes on with is that line stripped: it is not empty and has no
    whitespace at either end; every line before it was blank and drew one
    complaint; if the input ends first, the last prompt meets
    [EOFError]. *)
Theorem read_code_first_text (stdin : list string) :
  match read_code stdin [] with
  | (out, Some (code, rest)) =>
      exists blanks line,
        stdin = blanks ++ line :: rest
        /\ Forall blank blanks
        /\ code = Str.strip line /\ code <> EmptyString
        /\ Str.strip code = code
        /\ out = prompts blanks
  | (out, None) => Forall blank stdin /\ out = prompts stdin
  end.
Proof.
  assert (H := read_code_from stdin []).
  destruct (read_code stdin []) as [out [[code rest]|]]; [|exact H].
  destruct H as [blanks [line [E [Hb [Hc [Hne Ho]]]]]].
  exists blanks, line.
  split; [exact E|]. split; [exact Hb|]. split; [exact Hc|].
  split; [exact Hne|]. split; [|exact Ho].
  rewrite Hc. apply strip_idempotent.
Qed.

Lemma quality_le_complexity_aux (code : string) :
  (analyze_code_quality code <= analyze_code_complexity code)%Z.
Proof.
  rewrite quality_unfold.
  destruct (Str.contains "goto" code), (Str.contains "magic_number" code); lia.
Qed.

Section ScriptFacts.

Variable cleandoc : string -> string.
Variable ast_parse : string -> exn + node.
Variable code_object : Type.
Variable compile : node -> syntax_error + code_object.

Lemma analyze_code_returns (code : string) (r : analysis code_object) :
  analyze_code cleandoc ast_parse compile code = inr r ->
  exists tree ns rs,
    ast_parse code = inr tree
    /\ check_naming_conventions compile tree = inr ns
    /\ recommend_coding_style cleandoc ast_parse code = inr rs
    /\ r = mk_analysis (analyze_code_complexity code) (analyze_code_quality code)
                       (calculate_average_function_length tree)
                       (ns_violations ns, ns_modified_code ns) rs.
Proof.
  unfold analyze_code.
  destruct (ast_parse code) as [e|tree] eqn:Hp; cbn [bind];
    [discriminate|].
  destruct (check_naming_conventions compile tree) as [e|ns] eqn:Hn;
    cbn [bind]; [discriminate|].
  destruct (recommend_coding_style cleandoc ast_parse code) as [e|rs] eqn:Hr;
    cbn [bind]; [discriminate|].
  intros E. inversion E. exists tree, ns, rs. auto.
Qed.

Lemma script_after_analysis (stdin : list string) (out : list event)
      (code : string) (rest : list string) (r : analysis code_object) :
  read_code stdin [] = (out, Some (code, rest)) ->
  analyze_code cleandoc ast_parse compile code = inr r ->
  script cleandoc ast_parse compile stdin
  = (out ++ map (fun line => ev_print [v_str line]) (printed (style r))
         ++ report code r (fst (naming_violations r)),
     goes_on).
Proof.
  intros Hread Hrun. unfold script. rewrite Hread, Hrun.
  destruct (analyze_code_returns code r Hrun) as [tree [ns [rs [Hp [Hn [_ ->]]]]]].
  rewrite Hp, Hn. cbn [naming_violations fst]. unfold report.
  rewrite <- !app_assoc. reflexivity.
Qed.

Lemma script_cases (stdin : list string) :
  match read_code stdin [] with
  | (out, None) =>
      script cleandoc ast_parse compile stdin = (out, traceback EOFError)
  | (out, Some (code, _)) =>
      match analyze_code cleandoc ast_parse compile code with
      | inl (SyntaxError e) =>
          script cleandoc ast_parse compile stdin
          = (out ++ [ev_print [v_str "Invalid syntax in the provided code."];
                     ev_print [v_exc e]],
             exit_status 1)
      | inl e =>
          script cleandoc ast_parse compile stdin = (out, traceback (Raised e))
      | inr r =>
          script cleandoc ast_parse compile stdin
          = (out ++ map (fun line => ev_print [v_str line]) (printed (style r))
                 ++ report code r (fst (naming_violations r)),
             goes_on)
      end
  end.
Proof.
  destruct (read_code stdin []) as [out [[code rest]|]] eqn:Hread.
  - destruct (analyze_code cleandoc ast_parse compile code) as [e|r] eqn:Hrun.
    + unfold script. rewrite Hread, Hrun. now destruct e.
    + now apply (script_after_analysis _ _ _ rest).
  - unfold script. now rewrite Hread.
Qed.

End ScriptFacts.

Lemma detect_single_line (code : string) :
  no_line_feed code = true -> detect_repeated_code code = [].
Proof.
  intros H. rewrite detect_repeated_code_rows, (split_lines_single code H).
  reflexivity.
Qed.

Lemma complexity_single_line (code : string) :
  no_line_feed code = true ->
  analyze_code_complexity code = (if is_comment_line code then 1 else 0)%Z.
Proof.
  intros H. rewrite complexity_filter, (split_lines_single code H). simpl.
  now destruct (is_comment_line code).
Qed.

Lemma sorted_reverse_low (q : Z) :
  (q <= 5)%Z -> sorted_reverse (q :: fixed_scores) = [20; 15; 10; 5; q]%Z.
Proof.
  intros H. unfold sorted_reverse, fixed_scores. simpl.
  destruct (20 <? q)%Z eqn:E1; [lia|].
  destruct (15 <? q)%Z eqn:E2; [lia|].
  destruct (10 <? q)%Z eqn:E3; [lia|].
  destruct (5 <? q)%Z eqn:E4; [lia | reflexivity].
Qed.

Lemma insert_desc_perm (x : Z) (l : list Z) :
  Permutation (insert_desc x l) (x :: l).
Proof.
  induction l as [|y l IH]; simpl; [apply Permutation_refl|].
  destruct (y <? x)%Z; [apply Permutation_refl|].
  rewrite IH. apply perm_swap.
Qed.

Lemma insert_desc_sorted (x : Z) (l : list Z) :
  descending l -> descending (insert_desc x l).
Proof.
  unfold descending. induction 1 as [|y l Hs IH Hy]; simpl.
  - repeat constructor.
  - destruct (y <? x)%Z eqn:E.
    + apply Z.ltb_lt in E. constructor; [now constructor|].
      constructor; [lia|]. revert Hy. apply Forall_impl. intros z Hz. lia.
    + apply Z.ltb_ge in E. constructor; [exact IH|].
      apply (Permutation_Forall (Permutation_sym (insert_desc_perm x l))).
      constructor; assumption.
Qed.

Lemma descending_max (x : Z) (r : list Z) :
  descending (x :: r) -> fold_left Z.max r x = x.
Proof.
  unfold descending. intros H. inversion H as [|? ? _ Hx]; subst. clear H.
  induction r as [|y r IH]; [reflexivity|].
  inversion Hx; subst. simpl. rewrite Z.max_l by lia. now apply IH.
Qed.

Lemma last_default (a : Z) (l : list Z) (d d' : Z) :
  last (a :: l) d = last (a :: l) d'.
Proof.
  revert a; induction l as [|b l IH]; intros a; [reflexivity|].
  change (last (b :: l) d = last (b :: l) d'). apply IH.
Qed.

Lemma descending_min (x : Z) (r : list Z) :
  descending (x :: r) -> fold_left Z.min r x = last r x.
Proof.
  unfold descending. revert x; induction r as [|y r IH]; intros x H;
    [reflexivity|].
  inversion H as [|? ? Hs Hx]; subst. inversion Hx; subst.
  cbn [fold_left]. rewrite Z.min_r by lia. rewrite (IH y Hs).
  destruct r as [|z r]; [reflexivity|].
  change (last (y :: z :: r) x) with (last (z :: r) x). apply last_default.
Qed.

(** X14: [sorted(scores, reverse=True)] is the scores rearranged, largest
    first; the maximum of the column built from it is its first entry and
    the minimum its last. *)
Theorem sorted_scores_descend (scores : list Z) :
  Permutation (sorted_reverse scores) scores
  /\ descending (sorted_reverse scores)
  /\ forall x r,
      sorted_reverse scores = x :: r ->
      column_max (sorted_reverse scores) = x
      /\ column_min (sorted_reverse scores) = last r x.
Proof.
  assert (Hp : Permutation (sorted_reverse scores) scores).
  { unfold sorted_reverse. induction scores as [|x l IH]; simpl; [constructor|].
    rewrite insert_desc_perm. now constructor. }
  assert (Hs : descending (sorted_reverse scores)).
  { clear Hp. unfold sorted_reverse. induction scores as [|x l IH]; simpl.
    - unfold descending. constructor.
    - now apply insert_desc_sorted. }
  split; [exact Hp|]. split; [exact Hs|].
  intros x r E. rewrite E in Hs |- *. simpl.
  split; [now apply descending_max | now apply descending_min].
Qed.

Lemma sorted_scores_descend_witness :
  column_max (sorted_reverse [7; 20; 10; 15; 5]%Z) = 20%Z
  /\ column_min (sorted_reverse [7; 20; 10; 15; 5]%Z)
     = last [15; 10; 7; 5]%Z 20%Z.
Proof.
  apply (proj2 (proj2 (sorted_scores_descend [7; 20; 10; 15; 5]%Z))).
  reflexivity.
Defined.

(** X16: the script reads its text with [input], one line, so whenever it
    gets as far as its report the text has no line feed: the complexity
    score is 0 or 1, the quality score at most 1, the detector finds
    nothing ("No repeated code found."), the user's score stands last in
    the sorted scores behind 20, 15, 10 and 5, the maximum is 20 and the
    minimum the user's score. *)
Theorem script_reports_one_line
        (cleandoc : string -> string)
        (ast_parse : string -> exn + node)
        (code_object : Type) (compile : node -> syntax_error + code_object)
        (stdin : list string) (out : list event) :
  Forall (fun line => no_line_feed line = true) stdin ->
  script cleandoc ast_parse compile stdin = (out, goes_on) ->
  exists (before middle : list event) (c q : Z),
    (c = 0 \/ c = 1)%Z /\ (q <= c)%Z
    /\ out
       = before
         ++ [ev_print [v_str "Code Complexity Score:"; v_int c];
             ev_print [v_str "Code Quality Score:"; v_int q]]
         ++ middle
         ++ [ev_print [v_str "Sorted Scores:"; v_ints [20; 15; 10; 5; q]%Z];
             ev_print [v_str "No repeated code found."];
             ev_print [v_str "Mean Score:";
                       v_float (column_mean [20; 15; 10; 5; q]%Z)];
             ev_print [v_str "Max Score:"; v_int 20];
             ev_print [v_str "Min Score:"; v_int q]]
    /\ (column_mean [20; 15; 10; 5; q]%Z == inject_Z (50 + q) / 5)%Q.
Proof.
  intros Hlines Hrun.
  assert (Hread := read_code_from stdin []).
  assert (Hends := script_cases cleandoc ast_parse code_object compile stdin).
  destruct (read_code stdin []) as [pre [[code rest]|]];
    [|rewrite Hends in Hrun; discriminate].
  destruct (analyze_code cleandoc ast_parse compile code) as [e|r] eqn:Ha.
  { destruct e; rewrite Hends in Hrun; discriminate. }
  rewrite Hends in Hrun. inversion Hrun as [Hout]. clear Hrun Hends.
  destruct Hread as [blanks [line [Estdin [_ [Hcode _]]]]].
  assert (Hfree : no_line_feed code = true).
  { rewrite Hcode. apply strip_no_line_feed.
    rewrite Forall_forall in Hlines. apply Hlines. rewrite Estdin.
    apply in_or_app. right. now left. }
  destruct (analyze_code_returns cleandoc ast_parse code_object compile code r Ha)
    as [tree [ns [rs [_ [_ [_ Hr]]]]]].
  assert (Hc : complexity_score r = analyze_code_complexity code)
    by (now rewrite Hr).
  assert (Hq : quality_score r = analyze_code_quality code)
    by (now rewrite Hr).
  assert (Hcv := complexity_single_line code Hfree).
  assert (Hle := quality_le_complexity_aux code).
  exists (pre ++ map (fun line => ev_print [v_str line]) (printed (style r))),
    ([ev_print [v_str "Average Function Length:";
                v_float (average_function_length r)];
      ev_print [v_str "Modified Code:"];
      ev_print [v_str (modified_code (style r))]]
       ++ report_violation (fst (naming_violations r))),
    (complexity_score r), (quality_score r).
  split; [rewrite Hc, Hcv; destruct (is_comment_line code); auto|].
  split; [rewrite Hc, Hq; exact Hle|].
  assert (Hlow : (quality_score r <= 5)%Z).
  { rewrite Hq. rewrite Hcv in Hle. destruct (is_comment_line code); lia. }
  split.
  - unfold report. rewrite (sorted_reverse_low _ Hlow),
      (detect_single_line code Hfree).
    unfold column_max, column_min. cbn [fold_left report_repeated].
    replace (Z.max (Z.max (Z.max (Z.max 20 15) 10) 5) (quality_score r))
      with 20%Z by lia.
    replace (Z.min (Z.min (Z.min (Z.min 20 15) 10) 5) (quality_score r))
      with (quality_score r) by lia.
    rewrite <- !app_assoc. reflexivity.
  - unfold column_mean. cbn [fold_left List.length].
    replace (0 + 20 + 15 + 10 + 5 + quality_score r)%Z
      with (50 + quality_score r)%Z by lia.
    reflexivity.
Qed.

Lemma script_reports_one_line_witness :
  exists (before middle : list event) (c q : Z),
    (c = 0 \/ c = 1)%Z /\ (q <= c)%Z
    /\ fst (script no_cleaning sample_parser snapshot ["  "; assignment])
       = before
         ++ [ev_print [v_str "Code Complexity Score:"; v_int c];
             ev_print [v_str "Code Quality Score:"; v_int q]]
         ++ middle
         ++ [ev_print [v_str "Sorted Scores:"; v_ints [20; 15; 10; 5; q]%Z];
             ev_print [v_str "No repeated code found."];
             ev_print [v_str "Mean Score:";
                       v_float (column_mean [20; 15; 10; 5; q]%Z)];
             ev_print [v_str "Max Score:"; v_int 20];
             ev_print [v_str "Min Score:"; v_int q]]
    /\ (column_mean [20; 15; 10; 5; q]%Z == inject_Z (50 + q) / 5)%Q.
Proof.
  apply (script_reports_one_line no_cleaning sample_parser node snapshot
           ["  "; assignment]).
  - repeat constructor.
  - reflexivity.
Defined.
